(** * jsPDF-AutoTable: the input parser ([src/inputParser.ts])

    A shallow embedding of the functions that turn the user's settings into
    the sized and styled grid ([parseInput], [parseContent],
    [getTableColumns], [generateSectionRowFromColumnData], [cellStyles],
    [getStartY]) and the properties the specification states about them.

    Conventions of the embedding:
    - a JavaScript number that measures a width is a rational ([Q]): no NaN,
      no infinity, no rounding; numeric equality is [Qeq] ([==]);
    - span counters and span values are integers ([Z]), so that a zero or a
      negative span behaves as in the source;
    - a JavaScript object used as a dictionary is a [gmap string _]; an object
      whose enumeration order matters is an association list in that order;
    - [undefined] is [None];
    - a JavaScript string is the string of the bytes of its UTF-8 encoding,
      so that a character of Basic Latin is one byte and the other characters
      are two to four bytes, none of them below 128;
    - a cell object is shared by the two properties of [row.cells] that point
      to it: the row keeps a heap of cells and a map from property names to
      heap addresses. *)

From Stdlib Require Import ZArith QArith Qminmax Lia Lqa Ascii String.
From stdpp Require Import gmap strings list fin_maps pretty.

Local Open Scope Z_scope.

(** ** JavaScript values *)

(** Scalar cell contents: string, number, boolean, null. *)
Inductive Scalar :=
| SStr (s : string)
| SNum (n : Z)
| SBool (b : bool)
| SNull.

Definition scalar_truthy (v : Scalar) : bool :=
  match v with
  | SStr s => negb (String.eqb s EmptyString)
  | SNum n => negb (n =? 0)
  | SBool b => b
  | SNull => false
  end.

(** A style property value: a number (widths, sizes), a string ('wrap',
    'auto', a font name), a boolean or a list of numbers (a colour). *)
Inductive StyleVal :=
| VNum (q : Q)
| VStr (s : string)
| VBool (b : bool)
| VList (l : list Q).

Abbreviation Styles := (gmap string StyleVal).

(** Modelled from the spec: [assign] of [polyfills.ts], which is not among the
    sources. "Later sources override earlier ones key-by-key (shallow per
    top-level style property)": every own property of every source is copied
    onto the target, in order. *)
Definition assign {A : Type} (target : gmap string A)
    (sources : list (gmap string A)) : gmap string A :=
  fold_left (fun to nextSource => nextSource ∪ to) sources target.

(** [a || b] on optional objects: an object is always truthy. *)
Definition orElse {A : Type} (a b : option A) : option A :=
  match a with Some _ => a | None => b end.

(** An object literal in the enumeration order of its own properties. *)
Fixpoint obj_get {A : Type} (o : list (string * A)) (key : string) : option A :=
  match o with
  | [] => None
  | (k, v) :: rest => if String.eqb k key then Some v else obj_get rest key
  end.

Definition obj_keys {A : Type} (o : list (string * A)) : list string :=
  remove_dups (o.*1).

(** [a[i]] on an array, for an integer [i]. *)
Definition arr_get {A : Type} (a : list A) (i : Z) : option A :=
  if i <? 0 then None else a !! Z.to_nat i.

Definition Qzero (q : Q) : bool := Qeq_bool q 0.

(** [typeof v === 'number'], with the number. *)
Definition typeof_number (v : option StyleVal) : option Q :=
  match v with
  | Some (VNum q) => Some q
  | _ => None
  end.

(** [v === s] for a string [s]. *)
Definition is_string (v : option StyleVal) (s : string) : bool :=
  match v with
  | Some (VStr s') => String.eqb s' s
  | _ => false
  end.

(** [Math.max] on two numbers. *)
Definition Math_max (a b : Q) : Q := if Qle_bool a b then b else a.

(** ** Input shapes ([interfaces.ts]) *)

Inductive Section := head | body | foot.

#[global] Instance Section_eq_dec : EqDecision Section.
Proof. solve_decision. Defined.

(** A cell definition object [{content, colSpan, rowSpan, styles}]. *)
Record CellDef := {
  content : option Scalar;
  def_colSpan : option Z;
  def_rowSpan : option Z;
  def_styles : option Styles;
}.

Inductive CellInput :=
| Plain (v : Scalar)
| Rich (d : CellDef).

Definition cell_truthy (c : CellInput) : bool :=
  match c with Plain v => scalar_truthy v | Rich _ => true end.

(** [c.colSpan] read as a property, [undefined] on a scalar. *)
Definition input_colSpan (c : CellInput) : option Z :=
  match c with Plain _ => None | Rich d => def_colSpan d end.

Definition input_rowSpan (c : CellInput) : option Z :=
  match c with Plain _ => None | Rich d => def_rowSpan d end.

(** A row is an array of cells or an object from column keys to cells. *)
Inductive RowInput :=
| Positional (cells : list CellInput)
| Keyed (props : list (string * CellInput)).

(** A column identity: a string or a number. Numeric identities are array
    positions and column indices, hence naturals. *)
Inductive DataKey :=
| KStr (s : string)
| KNum (n : nat).

#[global] Instance DataKey_eq_dec : EqDecision DataKey.
Proof. solve_decision. Defined.

Definition key_truthy (k : DataKey) : bool :=
  match k with KStr s => negb (String.eqb s EmptyString) | KNum n => negb (Nat.eqb n 0) end.

(** The property name a key denotes when it indexes an object. *)
Definition propKey (k : DataKey) : string :=
  match k with KStr s => s | KNum n => pretty n end.

(** A column descriptor [{dataKey, key, header, title, footer, colSpan}]. *)
Record ColumnDef := {
  col_dataKey : option DataKey;
  col_key : option DataKey;
  col_header : option CellInput;
  col_title : option CellInput;
  col_footer : option CellInput;
  col_colSpan : option Z;
}.

Inductive ColumnInput :=
| ColScalar (k : DataKey)
| ColObj (d : ColumnDef).

(** ** The model classes ([models.ts]) *)

Module Column.
(** Modelled from the spec: the [Column] class of [models.ts], which is not
    among the sources. A column has its identity [dataKey], the raw input it
    comes from, its zero-based [index] and the aggregated widths, which start
    at zero. *)
Record t := mk {
  dataKey : DataKey;
  raw : ColumnInput;
  index : nat;
  wrappedWidth : Q;
  minReadableWidth : Q;
  minWidth : Q;
}.

Definition new (dataKey : DataKey) (raw : ColumnInput) (index : nat) : t :=
  mk dataKey raw index 0 0 0.

(** [column.wrappedWidth = w], [column.minReadableWidth = w],
    [column.minWidth = w] *)
Definition set_wrappedWidth (w : Q) (c : t) : t :=
  mk (dataKey c) (raw c) (index c) w (minReadableWidth c) (minWidth c).

Definition set_minReadableWidth (w : Q) (c : t) : t :=
  mk (dataKey c) (raw c) (index c) (wrappedWidth c) w (minWidth c).

Definition set_minWidth (w : Q) (c : t) : t :=
  mk (dataKey c) (raw c) (index c) (wrappedWidth c) (minReadableWidth c) w.
End Column.

Abbreviation Column := Column.t.

(** ** Column resolution: [getTableColumns] *)

Record Content := {
  columns : option (list ColumnInput);
  c_head : list RowInput;
  c_body : list RowInput;
  c_foot : list RowInput;
}.

(** [settings.head[0] || settings.body[0] || settings.foot[0] || []]: a row is
    an array or an object, hence truthy. *)
Definition firstRow (s : Content) : RowInput :=
  match c_head s, c_body s, c_foot s with
  | r :: _, _, _ => r
  | [], r :: _, _ => r
  | [], [], r :: _ => r
  | [], [], [] => Positional []
  end.

(** [Object.keys(firstRow)] paired with [firstRow[key]]. *)
Definition Object_entries (r : RowInput) : list (string * CellInput) :=
  match r with
  | Positional cells => imap (fun i c => (pretty i, c)) cells
  | Keyed props =>
      omap (fun key => (fun c => (key, c)) <$> obj_get props key) (obj_keys props)
  end.

Definition isArray (r : RowInput) : bool :=
  match r with Positional _ => true | Keyed _ => false end.

(** [firstRow[key] && firstRow[key].colSpan ? firstRow[key].colSpan : 1] *)
Definition firstRow_colSpan (c : CellInput) : Z :=
  if cell_truthy c then
    match input_colSpan c with
    | Some n => if n =? 0 then 1 else n
    | None => 1
    end
  else 1.

(** The body of [for (let i = 0; i < colSpan; i++)]. *)
Definition pushColumn (array : bool) (key : string) (columns : list Column)
    (i : nat) : list Column :=
  let id :=
    if array then KNum (length columns)
    else KStr (key +:+ (if decide (0 < i)%nat then "_" +:+ pretty i else EmptyString)) in
  columns ++ [Column.new id (ColScalar id) (length columns)].

Definition pushColumnsFor (array : bool) (columns : list Column)
    (entry : string * CellInput) : list Column :=
  let colSpan := firstRow_colSpan entry.2 in
  fold_left (pushColumn array entry.1) (seq 0 (Z.to_nat colSpan)) columns.

(** [a || b] on an optional key: the empty string and zero are falsy. *)
Definition key_or (a : option DataKey) (b : DataKey) : DataKey :=
  match a with
  | Some k => if key_truthy k then k else b
  | None => b
  end.

Definition getTableColumns (settings : Content) : list Column :=
  match columns settings with
  | Some cols =>
      imap (fun index input =>
              let key :=
                match input with
                | ColScalar _ => KNum index
                | ColObj d => key_or (col_dataKey d) (key_or (col_key d) (KNum index))
                end in
              Column.new key input index) cols
  | None =>
      let firstRow := firstRow settings in
      fold_left (pushColumnsFor (isArray firstRow))
        (filter (fun e => e.1 ≠ "_element") (Object_entries firstRow)) []
  end.

(** ** Cells and rows ([models.ts]) *)

(** [text.split(/\r\n|\r|\n/g)] *)
Fixpoint splitLines (s cur : string) : list string :=
  match s with
  | EmptyString => [cur]
  | String c rest =>
      if Ascii.eqb c "013"%char then
        match rest with
        | String c2 rest2 =>
            if Ascii.eqb c2 "010"%char then cur :: splitLines rest2 EmptyString
            else cur :: splitLines rest EmptyString
        | EmptyString => cur :: splitLines rest EmptyString
        end
      else if Ascii.eqb c "010"%char then cur :: splitLines rest EmptyString
      else splitLines rest (cur +:+ String c EmptyString)
  end.

(** [\s] of a regular expression: the white space and the line terminators
    of ECMAScript, that is U+0009 to U+000D, U+0020, U+00A0, U+1680, U+2000
    to U+200A, U+2028, U+2029, U+202F, U+205F, U+3000 and U+FEFF.
    [whitespaceAt s] is the number of bytes that the white-space character at
    the head of [s] takes (one for the six of Basic Latin, two for U+00A0,
    three for the others), and zero when [s] does not start with one. No such
    sequence starts at a continuation byte, so the bytes of another character
    are never taken for white space. *)
Definition whitespaceAt (s : string) : nat :=
  match s with
  | EmptyString => 0%nat
  | String a rest =>
      let a := nat_of_ascii a in
      if (Nat.eqb a 32 || (Nat.leb 9 a && Nat.leb a 13))%bool then 1%nat
      else
        match rest with
        | EmptyString => 0%nat
        | String b rest =>
            let b := nat_of_ascii b in
            if (Nat.eqb a 194 && Nat.eqb b 160)%bool then 2%nat
            else
              match rest with
              | EmptyString => 0%nat
              | String c _ =>
                  let c := nat_of_ascii c in
                  if ((Nat.eqb a 225 && Nat.eqb b 154 && Nat.eqb c 128)
                      || (Nat.eqb a 226 && Nat.eqb b 128
                          && ((Nat.leb 128 c && Nat.leb c 138)
                              || Nat.eqb c 168 || Nat.eqb c 169 || Nat.eqb c 175))
                      || (Nat.eqb a 226 && Nat.eqb b 129 && Nat.eqb c 159)
                      || (Nat.eqb a 227 && Nat.eqb b 128 && Nat.eqb c 128)
                      || (Nat.eqb a 239 && Nat.eqb b 187 && Nat.eqb c 191))%bool
                  then 3%nat
                  else 0%nat
              end
        end
  end.

(** The pieces of [s] between maximal runs of white space, read from a
    position where [cur] is the piece begun, [inRun] tells whether a run of
    white space is being read, and [skip] bytes are left of the white-space
    character being read. *)
Fixpoint splitWhitespaceFrom (s cur : string) (inRun : bool) (skip : nat)
    : list string :=
  match s with
  | EmptyString => [cur]
  | String c rest =>
      match skip with
      | S skip => splitWhitespaceFrom rest cur inRun skip
      | O =>
          match whitespaceAt s with
          | S more =>
              if inRun then splitWhitespaceFrom rest EmptyString true more
              else cur :: splitWhitespaceFrom rest EmptyString true more
          | O =>
              splitWhitespaceFrom rest (cur +:+ String c EmptyString) false 0
          end
      end
  end.

(** [s.split(/\s+/)]: the pieces between maximal runs of white space, with an
    empty piece before a leading run and after a trailing one. *)
Definition splitWhitespace (s : string) : list string :=
  splitWhitespaceFrom s EmptyString false 0.

(** ['' + content] *)
Definition scalar_text (v : Scalar) : string :=
  match v with
  | SStr s => s
  | SNum n => pretty n
  | SBool true => "true"
  | SBool false => "false"
  | SNull => EmptyString
  end.

Module Cell.
(** [cell.text] is an array of lines, or a single string once a hook has
    replaced it. *)
Inductive Text :=
| Lines (l : list string)
| Str (s : string).

Record t := mk {
  raw : option CellInput;
  styles : Styles;
  text : Text;
  section : Section;
  colSpan : Z;
  rowSpan : Z;
  contentWidth : Q;
  wrappedWidth : Q;
  minReadableWidth : Q;
  minWidth : Q;
}.

(** Modelled from the spec: the constructor of the [Cell] class of
    [models.ts], which is not among the sources. The cell keeps the raw input
    value, takes [colSpan] and [rowSpan] from a cell definition that declares
    them (1 otherwise; a zero or negative span is not guarded against), merges
    the definition's own [styles] over the cascade's, and normalises the
    content to a sequence of lines; an absent or null content gives one empty
    line. The widths start at zero. *)
Definition new (raw : option CellInput) (themeStyles : Styles)
    (section : Section) : t :=
  let rowSpan := default 1 (raw ≫= input_rowSpan) in
  let colSpan := default 1 (raw ≫= input_colSpan) in
  let ownStyles :=
    match raw with
    | Some (Rich d) => default ∅ (def_styles d)
    | _ => ∅
    end in
  let content :=
    match raw with
    | Some (Plain v) => scalar_text v
    | Some (Rich d) =>
        match content d with
        | Some v => scalar_text v
        | None => "[object Object]"
        end
    | None => EmptyString
    end in
  mk raw (assign themeStyles [ownStyles]) (Lines (splitLines content EmptyString))
     section colSpan rowSpan 0 0 0 0.
End Cell.

Abbreviation Cell := Cell.t.

Module Row.
(** Modelled from the spec: the [Row] class of [models.ts], which is not among
    the sources. A row belongs to one section and owns a mapping from column
    identity (both [dataKey] and [index], as aliases to the same cell) to its
    cells. The cell objects live in [heap], at the index of the column they
    were created for; [cells] maps a property name to a heap address. *)
Record t := mk {
  raw : RowInput;
  index : nat;
  section : Section;
  heap : gmap nat Cell;
  cells : gmap string nat;
}.

Definition new (raw : RowInput) (index : nat) (section : Section) : t :=
  mk raw index section ∅ ∅.

(** [row.cells[key]] *)
Definition cell (r : t) (key : string) : option Cell :=
  cells r !! key ≫= fun a => heap r !! a.

(** [row.cells[key] = cell] for the cell object at address [a]. *)
Definition setCell (r : t) (key : string) (a : nat) : t :=
  mk (raw r) (index r) (section r) (heap r) (<[key := a]> (cells r)).

(** Allocation of a new cell object at address [a]. *)
Definition alloc (r : t) (a : nat) (c : Cell) : t :=
  mk (raw r) (index r) (section r) (<[a := c]> (heap r)) (cells r).
End Row.

Abbreviation Row := Row.t.

(** ** Themes and style options ([config.ts], [models.ts]) *)

Module Theme.
Record t := mk {
  table : Styles;
  head : Styles;
  body : Styles;
  foot : Styles;
  alternateRow : Styles;
}.
End Theme.

Abbreviation Theme := Theme.t.

(** [theme[sectionName]] *)
Definition theme_section (theme : Theme) (sectionName : Section) : Styles :=
  match sectionName with
  | head => Theme.head theme
  | body => Theme.body theme
  | foot => Theme.foot theme
  end.

Module StylesProps.
Record t := mk {
  styles : Styles;
  headStyles : Styles;
  bodyStyles : Styles;
  footStyles : Styles;
  alternateRowStyles : Styles;
  columnStyles : gmap string Styles;
}.
End StylesProps.

Abbreviation StylesProps := StylesProps.t.

(** [table.styles[`${sectionName}Styles`]] *)
Definition sectionStyles (styles : StylesProps) (sectionName : Section) : Styles :=
  match sectionName with
  | head => StylesProps.headStyles styles
  | body => StylesProps.bodyStyles styles
  | foot => StylesProps.footStyles styles
  end.

(** [table.styles.columnStyles[column.dataKey] ||
     table.styles.columnStyles[column.index] || {}] *)
Definition columnStylesOf (styles : StylesProps) (column : Column) : Styles :=
  default ∅
    (orElse (StylesProps.columnStyles styles !! propKey (Column.dataKey column))
            (StylesProps.columnStyles styles !! pretty (Column.index column))).

(** ** Style cascade: [cellStyles]

    [getTheme] and [defaultStyles] belong to [config.ts], which is not among
    the sources: the theme in force and the default styles are arguments.
    [state().table] is the table under construction; its theme and its style
    options are arguments as well. *)
Definition cellStyles (defaultStyles : Styles) (theme : Theme)
    (styles : StylesProps) (sectionName : Section) (column : Column)
    (rowIndex : nat) : Styles :=
  let otherStyles :=
    [ Theme.table theme;
      theme_section theme sectionName;
      StylesProps.styles styles;
      sectionStyles styles sectionName ] in
  let columnStyles := columnStylesOf styles column in
  let colStyles := if decide (sectionName = body) then columnStyles else ∅ in
  let rowStyles :=
    if decide (sectionName = body ∧ (rowIndex mod 2 = 0)%nat)
    then assign ∅ [Theme.alternateRow theme; StylesProps.alternateRowStyles styles]
    else ∅ in
  assign defaultStyles (otherStyles ++ [rowStyles; colStyles]).

(** ** Grid construction: the first loop of [parseContent] *)

Module Span.
(** An entry of [rowSpansLeftForColumn]: the rows still covered below the
    anchor ([left]) and the columns the anchor claims after its own
    ([times]). *)
Record t := mk {
  left : Z;
  times : Z;
}.
End Span.

Abbreviation Ledger := (gmap nat Span.t).

(** The variables of the callback of [sectionRows.forEach] and of the loop
    over the columns in it. *)
Record RowState := mkRowState {
  rowSpansLeftForColumn : Ledger;
  row : Row;
  skippedRowForRowSpans : Z;
  colSpansAdded : Z;
  columnSpansLeft : Z;
}.

(** [rowSpansLeftForColumn[i] == null || rowSpansLeftForColumn[i].left === 0] *)
Definition noRowSpanLeft (ledger : Ledger) (i : nat) : bool :=
  match ledger !! i with
  | None => true
  | Some span => Span.left span =? 0
  end.

(** [sectionRow[key] = val] on an object under construction. *)
Fixpoint obj_set {A : Type} (o : list (string * A)) (key : string) (val : A)
    : list (string * A) :=
  match o with
  | [] => [(key, val)]
  | (k, v) :: rest =>
      if String.eqb k key then (k, val) :: rest else (k, v) :: obj_set rest key val
  end.

(** A column's raw input used as a cell value: a string or a number stays a
    scalar; a descriptor object is an object without [content], [rowSpan] or
    [styles], which shows its [colSpan] if it has one. *)
Definition columnData_asCell (columnData : ColumnInput) : CellInput :=
  match columnData with
  | ColScalar (KStr s) => Plain (SStr s)
  | ColScalar (KNum n) => Plain (SNum (Z.of_nat n))
  | ColObj d => Rich (Build_CellDef None (col_colSpan d) None None)
  end.

(** [columnData.header], [columnData.footer]: undefined on a scalar. *)
Definition columnData_header (columnData : ColumnInput) : option CellInput :=
  match columnData with ColScalar _ => None | ColObj d => col_header d end.

Definition columnData_footer (columnData : ColumnInput) : option CellInput :=
  match columnData with ColScalar _ => None | ColObj d => col_footer d end.

Definition truthy (c : option CellInput) : bool :=
  match c with Some c => cell_truthy c | None => false end.

Definition generateSectionRowFromColumnData (columns : list Column)
    (sectionName : Section) : option RowInput :=
  let sectionRow :=
    fold_left
      (fun sectionRow col =>
         let columnData := Column.raw col in
         match sectionName with
         | head =>
             let val :=
               match columnData_header columnData with
               | Some h => if cell_truthy h then h else columnData_asCell columnData
               | None => columnData_asCell columnData
               end in
             if cell_truthy val
             then obj_set sectionRow (propKey (Column.dataKey col)) val
             else sectionRow
         | foot =>
             match columnData_footer columnData with
             | Some f =>
                 if cell_truthy f
                 then obj_set sectionRow (propKey (Column.dataKey col)) f
                 else sectionRow
             | None => sectionRow
             end
         | body => sectionRow
         end)
      columns [] in
  if decide (0 < length (obj_keys sectionRow))%nat
  then Some (Keyed sectionRow) else None.

(** [settings[sectionName]] *)
Definition settings_section (settings : Content) (sectionName : Section)
    : list RowInput :=
  match sectionName with
  | head => c_head settings
  | body => c_body settings
  | foot => c_foot settings
  end.

(** The rows of a section once the head or foot generated from the columns
    has been pushed onto [settings[sectionName]]. *)
Definition sectionRowsOf (settings : Content) (tableColumns : list Column)
    (sectionName : Section) : list RowInput :=
  let sectionRows := settings_section settings sectionName in
  if decide (length sectionRows = 0%nat ∧ is_Some (columns settings)
             ∧ sectionName ≠ body)
  then
    match generateSectionRowFromColumnData tableColumns sectionName with
    | Some sectionRow => sectionRows ++ [sectionRow]
    | None => sectionRows
    end
  else sectionRows.

Section GridBuilder.

(** The table under construction, as [cellStyles] reads it. *)
Variable defaultStyles : Styles.
Variable theme : Theme.
Variable styles : StylesProps.
Variable columns : list Column.

(** The body of [for (let column of table.columns)]. *)
Definition columnStep (sectionName : Section) (rawRow : RowInput)
    (rowIndex : nat) (st : RowState) (column : Column) : RowState :=
  let ledger := rowSpansLeftForColumn st in
  let index := Column.index column in
  if noRowSpanLeft ledger index then
    if columnSpansLeft st =? 0 then
      let rawCell :=
        match rawRow with
        | Positional cells =>
            arr_get cells
              (Z.of_nat index - colSpansAdded st - skippedRowForRowSpans st)
        | Keyed props => obj_get props (propKey (Column.dataKey column))
        end in
      let styles := cellStyles defaultStyles theme styles sectionName column rowIndex in
      let cell := Cell.new rawCell styles sectionName in
      let row :=
        Row.setCell
          (Row.setCell (Row.alloc (row st) index cell)
             (propKey (Column.dataKey column)) index)
          (pretty index) index in
      let columnSpansLeft := Cell.colSpan cell - 1 in
      mkRowState
        (<[index := Span.mk (Cell.rowSpan cell - 1) columnSpansLeft]> ledger)
        row (skippedRowForRowSpans st) (colSpansAdded st) columnSpansLeft
    else
      mkRowState ledger (row st) (skippedRowForRowSpans st)
        (colSpansAdded st + 1) (columnSpansLeft st - 1)
  else
    match ledger !! index with
    | Some span =>
        mkRowState
          (<[index := Span.mk (Span.left span - 1) (Span.times span)]> ledger)
          (row st) (skippedRowForRowSpans st + 1) (colSpansAdded st)
          (Span.times span)
    | None => st
    end.

(** The callback of [sectionRows.forEach]. *)
Definition parseRow (sectionName : Section) (ledger : Ledger)
    (rowIndex : nat) (rawRow : RowInput) : RowState :=
  fold_left (columnStep sectionName rawRow rowIndex) columns
    (mkRowState ledger (Row.new rawRow rowIndex sectionName) 0 0 0).

(** [sectionRows.forEach], from row [rowIndex] on, with the ledger the rows
    before have left. *)
Fixpoint parseRows (sectionName : Section) (ledger : Ledger) (rowIndex : nat)
    (sectionRows : list RowInput) : list Row :=
  match sectionRows with
  | [] => []
  | rawRow :: rest =>
      let st := parseRow sectionName ledger rowIndex rawRow in
      row st :: parseRows sectionName (rowSpansLeftForColumn st) (S rowIndex) rest
  end.

(** The ledger after the rows of [sectionRows]. *)
Fixpoint ledgerAfter (sectionName : Section) (ledger : Ledger) (rowIndex : nat)
    (sectionRows : list RowInput) : Ledger :=
  match sectionRows with
  | [] => ledger
  | rawRow :: rest =>
      ledgerAfter sectionName
        (rowSpansLeftForColumn (parseRow sectionName ledger rowIndex rawRow))
        (S rowIndex) rest
  end.

(** [table[sectionName]] after the first loop. *)
Definition parseSection (sectionName : Section) (sectionRows : list RowInput)
    : list Row :=
  parseRows sectionName ∅ 0 sectionRows.

End GridBuilder.

(** ** The host document ([state.ts], [common.ts], [config.ts])

    These modules are not among the sources; the parser reads them through a
    handful of functions and values, gathered here. *)

Module Margin.
Record t := mk {
  top : Q;
  right : Q;
  bottom : Q;
  left : Q;
}.
End Margin.

(** The value of the [margin] setting before [marginOrPadding] reads it. *)
Inductive MarginInput :=
| MarginNum (q : Q)
| MarginList (l : list Q)
| MarginSides (top right bottom left : option Q).

(** [doc.previousAutoTable], as far as [getStartY] reads it. *)
Record PreviousTable := {
  finalY : Q;
  startPageNumber : Z;
  prev_pageNumber : Z;
}.

(** A [didParseCell] callback: it receives the cell, its row and its column,
    and may change the cell in place. *)
Definition CellHook : Type := Cell → Row → Column → Cell.

Inductive StartY :=
| StartYNum (q : Q)
| StartYFalse.

Inductive TableWidth :=
| TableWidthNum (q : Q)
| TableWidthWrap
| TableWidthAuto.

(** The options of one level (global, document or table), and the settings
    merged from them. An absent property is [None]. The three drawing hooks
    are collected like [didParseCell] and never called by the parser. *)
Record UserOptions := mkOptions {
  tableId : option string;
  theme : option string;
  useCss : option bool;
  startY : option StartY;
  margin : option MarginInput;
  tableWidth : option TableWidth;
  html : option string;
  includeHiddenHtml : option bool;
  columns_opt : option (list ColumnInput);
  head_opt : option (list RowInput);
  body_opt : option (list RowInput);
  foot_opt : option (list RowInput);
  styles_opt : option Styles;
  headStyles_opt : option Styles;
  bodyStyles_opt : option Styles;
  footStyles_opt : option Styles;
  alternateRowStyles_opt : option Styles;
  columnStyles_opt : option (gmap string Styles);
  didParseCell : option CellHook;
}.

(** The three sections of a parsed HTML table. *)
Record HtmlContent := {
  html_head : list RowInput;
  html_body : list RowInput;
  html_foot : list RowInput;
}.

Record Host := {
  scaleFactor : Q;
  pageWidth : Q;
  pageNumber : Z;
  previousAutoTable : option PreviousTable;
  (** [getStringWidth(text, styles)] of [common.ts] *)
  getStringWidth : list string → Styles → Q;
  (** [cell.padding('horizontal')] of [models.ts], a function of the cell's
      styles *)
  padding_horizontal : Styles → Q;
  (** [marginOrPadding(value, defaultValue)] of [common.ts] *)
  marginOrPadding : option MarginInput → option MarginInput → Margin.t;
  (** [getTheme], [defaultStyles()] and [defaultConfig()] of [config.ts] *)
  getTheme : option string → Theme;
  defaultStyles : Styles;
  defaultConfig : UserOptions;
  (** [parseHtml(input, includeHiddenHtml, useCss)] of [htmlParser.ts] *)
  parseHtml : string → option bool → option bool → option HtmlContent;
  (** the text colour and the font of the document *)
  doc_userStyles : Styles;
}.

(** ** Width resolution: the second and third loops of [parseContent] *)

Section WidthResolver.

Variable host : Host.
Variable styles : StylesProps.
Variable hooks : list CellHook.

(** Modelled from the spec: [callCellHooks] of the [Table] class of
    [models.ts], which is not among the sources. "Hooks are synchronous,
    invoked in registration order once per cell; a hook may mutate the cell's
    text/styles in place". *)
Definition callCellHooks (handlers : list CellHook) (cell : Cell) (row : Row)
    (column : Column) : Cell :=
  fold_left (fun cell handler => handler cell row column) handlers cell.

(** [Array.isArray(cell.text) ? cell.text : [cell.text]] *)
Definition textLines (text : Cell.Text) : list string :=
  match text with
  | Cell.Lines l => l
  | Cell.Str s => [s]
  end.

(** [text.join(' ')] *)
Definition join (sep : string) (l : list string) : string := String.concat sep l.

(** [cell.styles.minCellWidth || defaultMinWidth]; [minCellWidth] is declared
    a number. *)
Definition minCellWidth_or (cellStyles : Styles) (defaultMinWidth : Q) : Q :=
  match typeof_number (cellStyles !! "minCellWidth") with
  | Some q => if Qzero q then defaultMinWidth else q
  | None => defaultMinWidth
  end.

(** Lines 229 to 254: the widths of one cell, after the hooks. *)
Definition resolveCellWidths (cell : Cell) : Cell :=
  let text := textLines (Cell.text cell) in
  let st := Cell.styles cell in
  let contentWidth := (getStringWidth host text st + padding_horizontal host st)%Q in
  let longestWordWidth :=
    getStringWidth host (splitWhitespace (join " " text)) st in
  let minReadableWidth := (longestWordWidth + padding_horizontal host st)%Q in
  let widths :=
    match typeof_number (st !! "cellWidth") with
    | Some cellWidth => (cellWidth, cellWidth)
    | None =>
        if is_string (st !! "cellWidth") "wrap" then (contentWidth, contentWidth)
        else
          let defaultMinWidth := (10 / scaleFactor host)%Q in
          let minWidth := minCellWidth_or st defaultMinWidth in
          let wrappedWidth := contentWidth in
          if negb (Qle_bool minWidth wrappedWidth)
          then (minWidth, minWidth)
          else (minWidth, wrappedWidth)
    end in
  Cell.mk (Cell.raw cell) st (Cell.Lines text) (Cell.section cell)
    (Cell.colSpan cell) (Cell.rowSpan cell)
    contentWidth widths.2 minReadableWidth widths.1.

(** The body of the loop over the columns in the second loop. *)
Definition cellPassStep (row : Row) (column : Column) : Row :=
  match Row.cells row !! pretty (Column.index column) with
  | None => row
  | Some a =>
      match Row.heap row !! a with
      | None => row
      | Some cell =>
          let cell := callCellHooks hooks cell row column in
          Row.alloc row a (resolveCellWidths cell)
      end
  end.

Definition cellPass (columns : list Column) (row : Row) : Row :=
  fold_left cellPassStep columns row.

(** The [else] branch of the third loop: the [cellWidth] of the column's
    entry in [columnStyles], when it is a number other than zero. *)
Definition respectColumnStyles (column : Column) : Column :=
  let columnStyles := columnStylesOf styles column in
  match typeof_number (columnStyles !! "cellWidth") with
  | Some cellWidth =>
      if Qzero cellWidth then column
      else Column.set_wrappedWidth cellWidth (Column.set_minWidth cellWidth column)
  | None => column
  end.

(** The body of the loop over the columns in the third loop. *)
Definition aggregateStep (row : Row) (column : Column) : Column :=
  let cell := Row.cell row (pretty (Column.index column)) in
  let column :=
    match cell with
    | Some c =>
        if Cell.colSpan c =? 1 then
          let column :=
            Column.set_wrappedWidth
              (Math_max (Column.wrappedWidth column) (Cell.wrappedWidth c)) column in
          let column :=
            Column.set_minWidth
              (Math_max (Column.minWidth column) (Cell.minWidth c)) column in
          Column.set_minReadableWidth
            (Math_max (Column.minReadableWidth column) (Cell.minReadableWidth c))
            column
        else respectColumnStyles column
    | None => respectColumnStyles column
    end in
  match cell with
  | Some c =>
      let column :=
        if (1 <? Cell.colSpan c) && Qzero (Column.minWidth column)
        then Column.set_minWidth (Cell.minWidth c) column
        else column in
      if (1 <? Cell.colSpan c) && Qzero (Column.wrappedWidth column)
      then Column.set_wrappedWidth (Cell.minWidth c) column
      else column
  | None => column
  end.

(** The third loop: every row updates every column. *)
Definition aggregate (rows : list Row) (columns : list Column) : list Column :=
  fold_left (fun columns row => aggregateStep row <$> columns) rows columns.

End WidthResolver.

(** ** The table ([models.ts]) *)

Module Table.
Record t := mk {
  id : option string;
  startY : Q;
  settings : UserOptions;
  styles : StylesProps;
  userStyles : Styles;
  hooks : list CellHook;
  margin : Margin.t;
  columns : list Column;
  head : list Row;
  body : list Row;
  foot : list Row;
  minWidth : Q;
  wrappedWidth : Q;
  width : Q;
}.

(** Modelled from the spec: the constructor and [allRows] of the [Table]
    class of [models.ts], which is not among the sources. A new table has no
    column and no row; "for every cell in every row" runs over the head, the
    body and the foot, in this order. *)
Definition new (id : option string) (startY : Q) (settings : UserOptions)
    (styles : StylesProps) (userStyles : Styles) (hooks : list CellHook)
    (margin : Margin.t) : t :=
  mk id startY settings styles userStyles hooks margin [] [] [] [] 0 0 0.

Definition allRows (table : t) : list Row :=
  head table ++ body table ++ foot table.
End Table.

Abbreviation Table := Table.t.

(** ** [parseContent] *)

(** The content of the settings after lines 95 to 97, where the three
    sections have become arrays. *)
Definition contentOf (settings : UserOptions) : Content :=
  Build_Content (columns_opt settings)
    (default [] (head_opt settings))
    (default [] (body_opt settings))
    (default [] (foot_opt settings)).

(** [settings.head], [settings.body] and [settings.foot] after an update of
    the arrays in place. *)
Definition setSections (settings : UserOptions) (h b f : list RowInput)
    : UserOptions :=
  mkOptions (tableId settings) (theme settings) (useCss settings)
    (startY settings) (margin settings) (tableWidth settings) (html settings)
    (includeHiddenHtml settings) (columns_opt settings)
    (Some h) (Some b) (Some f)
    (styles_opt settings) (headStyles_opt settings) (bodyStyles_opt settings)
    (footStyles_opt settings) (alternateRowStyles_opt settings)
    (columnStyles_opt settings) (didParseCell settings).

(** [settings] is [table.settings]: the rows pushed onto its sections are
    seen through the table. *)
Definition parseContent (host : Host) (table : Table) : Table :=
  let settings := contentOf (Table.settings table) in
  let columns := getTableColumns settings in
  let theme := getTheme host (theme (Table.settings table)) in
  let sectionRows sectionName := sectionRowsOf settings columns sectionName in
  let parse sectionName :=
    parseSection (defaultStyles host) theme (Table.styles table) columns
      sectionName (sectionRows sectionName) in
  let widths rows :=
    cellPass host (Table.hooks table) columns <$> rows in
  let h := widths (parse head) in
  let b := widths (parse body) in
  let f := widths (parse foot) in
  let columns := aggregate (Table.styles table) (h ++ b ++ f) columns in
  Table.mk (Table.id table) (Table.startY table)
    (setSections (Table.settings table)
       (sectionRows head) (sectionRows body) (sectionRows foot))
    (Table.styles table) (Table.userStyles table) (Table.hooks table)
    (Table.margin table) columns h b f
    (Table.minWidth table) (Table.wrappedWidth table) (Table.width table).

(** ** [parseInput] *)

(** The arguments of [doc.autoTable]: one options object, or the deprecated
    [(columns, body, [options])]. *)
Inductive Args :=
| Args1 (options : UserOptions)
| Args3 (cols : list ColumnInput) (rows : list RowInput)
        (options : option UserOptions).

Definition noOptions : UserOptions :=
  mkOptions None None None None None None None None None None None None
    None None None None None None None.

(** [x == null] on a cell value *)
Definition isNullish (c : option CellInput) : bool :=
  match c with
  | None | Some (Plain SNull) => true
  | _ => false
  end.

(** "Support v2 title prop in v3" *)
Definition titleAsHeader (col : ColumnInput) : ColumnInput :=
  match col with
  | ColObj d =>
      if isNullish (col_header d)
      then ColObj (Build_ColumnDef (col_dataKey d) (col_key d) (col_title d)
                     (col_title d) (col_footer d) (col_colSpan d))
      else col
  | ColScalar _ => col
  end.

Definition parseUserArguments (args : Args) : UserOptions :=
  match args with
  | Args1 options => options
  | Args3 cols rows options =>
      let opts := default noOptions options in
      mkOptions (tableId opts) (theme opts) (useCss opts) (startY opts)
        (margin opts) (tableWidth opts) (html opts) (includeHiddenHtml opts)
        (Some (titleAsHeader <$> cols)) (head_opt opts) (Some rows)
        (foot_opt opts) (styles_opt opts) (headStyles_opt opts)
        (bodyStyles_opt opts) (footStyles_opt opts)
        (alternateRowStyles_opt opts) (columnStyles_opt opts)
        (didParseCell opts)
  end.

(** [assign(target, source)] on two options objects: the properties of
    [source] override those of [target]. *)
Definition assignOptions (target source : UserOptions) : UserOptions :=
  mkOptions
    (orElse (tableId source) (tableId target))
    (orElse (theme source) (theme target))
    (orElse (useCss source) (useCss target))
    (orElse (startY source) (startY target))
    (orElse (margin source) (margin target))
    (orElse (tableWidth source) (tableWidth target))
    (orElse (html source) (html target))
    (orElse (includeHiddenHtml source) (includeHiddenHtml target))
    (orElse (columns_opt source) (columns_opt target))
    (orElse (head_opt source) (head_opt target))
    (orElse (body_opt source) (body_opt target))
    (orElse (foot_opt source) (foot_opt target))
    (orElse (styles_opt source) (styles_opt target))
    (orElse (headStyles_opt source) (headStyles_opt target))
    (orElse (bodyStyles_opt source) (bodyStyles_opt target))
    (orElse (footStyles_opt source) (footStyles_opt target))
    (orElse (alternateRowStyles_opt source) (alternateRowStyles_opt target))
    (orElse (columnStyles_opt source) (columnStyles_opt target))
    (orElse (didParseCell source) (didParseCell target)).

Definition isSamePageAsPreviousTable (host : Host)
    (previous : option PreviousTable) : bool :=
  match previous with
  | None => false
  | Some previous =>
      let endingPage := startPageNumber previous + prev_pageNumber previous - 1 in
      endingPage =? pageNumber host
  end.

Definition getStartY (host : Host) (settings : UserOptions) (marginTop : Q) : Q :=
  let startY :=
    match startY settings with
    | None | Some StartYFalse =>
        let previous := previousAutoTable host in
        match previous with
        | Some p =>
            if isSamePageAsPreviousTable host previous
            then Some (StartYNum (finalY p + 20 / scaleFactor host)%Q)
            else startY settings
        | None => startY settings
        end
    | Some (StartYNum _) => startY settings
    end in
  match startY with
  | Some (StartYNum q) => if Qzero q then marginTop else q
  | _ => marginTop
  end.

(** [settings.theme === 'auto'] *)
Definition resolveTheme (settings : UserOptions) : option string :=
  match theme settings with
  | Some name =>
      if String.eqb name "auto"
      then Some (if default false (useCss settings) then "plain" else "striped")
      else Some name
  | None => None
  end.

Definition setTheme (settings : UserOptions) (name : option string) : UserOptions :=
  mkOptions (tableId settings) name (useCss settings)
    (startY settings) (margin settings) (tableWidth settings) (html settings)
    (includeHiddenHtml settings) (columns_opt settings)
    (head_opt settings) (body_opt settings) (foot_opt settings)
    (styles_opt settings) (headStyles_opt settings) (bodyStyles_opt settings)
    (footStyles_opt settings) (alternateRowStyles_opt settings)
    (columnStyles_opt settings) (didParseCell settings).

(** "Merge styles one level deeper" *)
Definition mergeStyles {A : Type} (prop : UserOptions → option (gmap string A))
    (allOptions : list UserOptions) : gmap string A :=
  assign ∅ ((fun opts => default ∅ (prop opts)) <$> allOptions).

(** The array a section of the settings refers to belongs to the last options
    object that has the property; a row pushed onto the section is pushed
    onto that array. *)
Fixpoint pushToOwner (get : UserOptions → option (list RowInput))
    (set : list RowInput → UserOptions → UserOptions)
    (rows : list RowInput) (allOptions : list UserOptions) : list UserOptions :=
  match allOptions with
  | [] => []
  | opts :: rest =>
      if existsb (fun o => bool_decide (is_Some (get o))) rest
      then opts :: pushToOwner get set rows rest
      else
        match get opts with
        | Some _ => set rows opts :: rest
        | None => opts :: rest
        end
  end.

Definition set_head (rows : list RowInput) (o : UserOptions) : UserOptions :=
  mkOptions (tableId o) (theme o) (useCss o) (startY o) (margin o)
    (tableWidth o) (html o) (includeHiddenHtml o) (columns_opt o)
    (Some rows) (body_opt o) (foot_opt o) (styles_opt o) (headStyles_opt o)
    (bodyStyles_opt o) (footStyles_opt o) (alternateRowStyles_opt o)
    (columnStyles_opt o) (didParseCell o).

Definition set_foot (rows : list RowInput) (o : UserOptions) : UserOptions :=
  mkOptions (tableId o) (theme o) (useCss o) (startY o) (margin o)
    (tableWidth o) (html o) (includeHiddenHtml o) (columns_opt o)
    (head_opt o) (body_opt o) (Some rows) (styles_opt o) (headStyles_opt o)
    (bodyStyles_opt o) (footStyles_opt o) (alternateRowStyles_opt o)
    (columnStyles_opt o) (didParseCell o).

(** [settings.html] is truthy: an element or a non-empty selector. *)
Definition htmlContentOf (host : Host) (settings : UserOptions)
    : option HtmlContent :=
  match html settings with
  | Some input =>
      if String.eqb input EmptyString then None
      else parseHtml host input (includeHiddenHtml settings) (useCss settings)
  | None => None
  end.

(** Lines 32 to 99 of [parseInput]: the table handed to [parseContent].
    [globalOptions] and [documentOptions] are what [getGlobalOptions()] and
    [getDocumentOptions()] return. *)
Definition newTable (host : Host) (globalOptions documentOptions : UserOptions)
    (args : Args) : Table :=
  let tableOptions := parseUserArguments args in
  let allOptions := [globalOptions; documentOptions; tableOptions] in
  let defaultConf := defaultConfig host in
  let settings := fold_left assignOptions allOptions defaultConf in
  let settings := setTheme settings (resolveTheme settings) in
  let margin := marginOrPadding host (margin settings) (margin defaultConf) in
  let startY := getStartY host settings (Margin.top margin) in
  let styleOptions :=
    StylesProps.mk
      (mergeStyles styles_opt allOptions)
      (mergeStyles headStyles_opt allOptions)
      (mergeStyles bodyStyles_opt allOptions)
      (mergeStyles footStyles_opt allOptions)
      (mergeStyles alternateRowStyles_opt allOptions)
      (mergeStyles columnStyles_opt allOptions) in
  let userStyles := doc_userStyles host in
  let hooks := omap didParseCell allOptions in
  let htmlContent := htmlContentOf host settings in
  let settings :=
    setSections settings
      (default [] (orElse (html_head <$> htmlContent) (head_opt settings)))
      (default [] (orElse (html_body <$> htmlContent) (body_opt settings)))
      (default [] (orElse (html_foot <$> htmlContent) (foot_opt settings))) in
  Table.new (tableId tableOptions) startY settings styleOptions userStyles
    hooks margin.

(** [columns.reduce((total, col) => total + width(col), 0)] *)
Definition reduceWidths (width : Column → Q) (columns : list Column) : Q :=
  fold_left (fun total col => (total + width col)%Q) columns 0%Q.

Definition parseInput (host : Host) (globalOptions documentOptions : UserOptions)
    (args : Args) : Table :=
  let table := newTable host globalOptions documentOptions args in
  let table := parseContent host table in
  let minWidth := reduceWidths Column.minWidth (Table.columns table) in
  let wrappedWidth := reduceWidths Column.wrappedWidth (Table.columns table) in
  let width :=
    match tableWidth (Table.settings table) with
    | Some (TableWidthNum tableWidth) => tableWidth
    | Some TableWidthWrap => wrappedWidth
    | _ =>
        (pageWidth host - Margin.left (Table.margin table)
         - Margin.right (Table.margin table))%Q
    end in
  Table.mk (Table.id table) (Table.startY table) (Table.settings table)
    (Table.styles table) (Table.userStyles table) (Table.hooks table)
    (Table.margin table) (Table.columns table) (Table.head table)
    (Table.body table) (Table.foot table) minWidth wrappedWidth width.

(** *** What a call leaves behind

    [parseContent] pushes the generated head and foot rows onto the arrays of
    the settings. Without HTML content these arrays are those of an options
    object, which the next call reads again; the deprecated arguments keep
    the columns with their [header] set. *)
Definition optionsAfter (host : Host) (globalOptions documentOptions : UserOptions)
    (args : Args) : list UserOptions :=
  let tableOptions := parseUserArguments args in
  let allOptions := [globalOptions; documentOptions; tableOptions] in
  let settings := fold_left assignOptions allOptions (defaultConfig host) in
  let table := parseInput host globalOptions documentOptions args in
  match htmlContentOf host settings with
  | Some _ => allOptions
  | None =>
      pushToOwner foot_opt set_foot
        (default [] (foot_opt (Table.settings table)))
        (pushToOwner head_opt set_head
           (default [] (head_opt (Table.settings table))) allOptions)
  end.

Definition argsAfter (args : Args) (tableOptions : UserOptions) : Args :=
  match args with
  | Args1 _ => Args1 tableOptions
  | Args3 cols rows options =>
      Args3 (titleAsHeader <$> cols) rows
        (match options with Some _ => Some tableOptions | None => None end)
  end.

(** A call of [parseInput] with the state it leaves: the table, and the
    global options, document options and arguments as the next call finds
    them. *)
Definition run (host : Host) (st : UserOptions * UserOptions * Args)
    : Table * (UserOptions * UserOptions * Args) :=
  let '(globalOptions, documentOptions, args) := st in
  let table := parseInput host globalOptions documentOptions args in
  match optionsAfter host globalOptions documentOptions args with
  | [g; d; t] => (table, (g, d, argsAfter args t))
  | _ => (table, st)
  end.

(** ** A concrete host

    A document whose font makes every character five units wide, with a
    uniform horizontal padding of ten, scale factor one, an A4 page and one
    theme. The examples below run the parser on it. *)

Module Fixture.

Definition widest (text : list string) : nat :=
  foldr (fun s n => Nat.max (String.length s) n) 0%nat text.

Definition theme0 : Theme :=
  Theme.mk {[ "fontSize" := VNum 10 ]}
           {[ "fontStyle" := VStr "bold" ]}
           ∅
           {[ "fontStyle" := VStr "bold" ]}
           {[ "fillColor" := VNum 245 ]}.

Definition config0 : UserOptions :=
  mkOptions None (Some "striped") (Some false) None (Some (MarginNum 40))
    (Some TableWidthAuto) None (Some false) None None None None
    None None None None None None None.

Definition margin0 (value defaultValue : option MarginInput) : Margin.t :=
  match orElse value defaultValue with
  | Some (MarginNum q) => Margin.mk q q q q
  | _ => Margin.mk 0 0 0 0
  end.

Definition host0 : Host :=
  Build_Host 1 595 1 None
    (fun text _ => inject_Z (5 * Z.of_nat (widest text)))
    (fun _ => 10%Q)
    margin0
    (fun _ => theme0)
    {[ "cellWidth" := VStr "auto" ]}
    config0
    (fun _ _ _ => None)
    {[ "textColor" := VNum 0 ]}.

Definition str (s : string) : CellInput := Plain (SStr s).

Definition spanning (s : string) (colSpan rowSpan : option Z) : CellInput :=
  Rich (Build_CellDef (Some (SStr s)) colSpan rowSpan None).

Definition options (columns : option (list ColumnInput))
    (h b f : option (list RowInput)) (columnStyles : option (gmap string Styles))
    : UserOptions :=
  mkOptions None None None None None None None None columns h b f
    None None None None None columnStyles None.

Definition table (o : UserOptions) : Table :=
  parseInput host0 noOptions noOptions (Args1 o).

(** The cell of row [i] of a section under property [key], if any. *)
Definition cellAt (rows : list Row) (i : nat) (key : string) : option Cell :=
  rows !! i ≫= fun r => Row.cell r key.

End Fixture.

(** * Reference definitions

    What the specification says in its own words, to compare with the
    functions above. *)

(** The columns with the identities [ids], numbered from [n] in this order. *)
Fixpoint numberedFrom (n : nat) (ids : list DataKey) : list Column :=
  match ids with
  | [] => []
  | id :: rest => Column.new id (ColScalar id) n :: numberedFrom (S n) rest
  end.

(** [key], [key_1], [key_2], ... *)
Definition siblingKey (key : string) (i : nat) : DataKey :=
  KStr (match i with O => key | S _ => key +:+ "_" +:+ pretty i end).

(** The number of columns a cell of the first row stands for: its declared
    [colSpan], one when it declares none (or zero). *)
Definition columnsFor (c : CellInput) : nat :=
  match input_colSpan c with
  | Some n => if n =? 0 then 1%nat else Z.to_nat n
  | None => 1%nat
  end.

(** "For array-shaped rows, one column per array position, identity =
    position index." *)
Definition onePerPosition (cells : list CellInput) : list Column :=
  numberedFrom 0 (KNum <$> seq 0 (length cells)).

(** A cell of the first row that stands for one column: it declares no
    [colSpan], or a [colSpan] of zero or one. *)
Definition oneColumn (c : CellInput) : Prop :=
  input_colSpan c = None ∨ input_colSpan c = Some 0 ∨ input_colSpan c = Some 1.

(** The value of property [key] after a shallow merge of [layers], listed in
    increasing precedence: that of the last layer that sets it. *)
Fixpoint mergedValue (layers : list Styles) (key : string) : option StyleVal :=
  match layers with
  | [] => None
  | layer :: rest => orElse (mergedValue rest key) (layer !! key)
  end.

(** The layers of the cascade of section 4.3, in increasing precedence. *)
Definition cascadeLayers (defaultStyles : Styles) (theme : Theme)
    (styles : StylesProps) (sectionName : Section) (column : Column)
    (rowIndex : nat) : list Styles :=
  [ defaultStyles;
    Theme.table theme;
    theme_section theme sectionName;
    StylesProps.styles styles;
    sectionStyles styles sectionName ]
  ++ (if decide (sectionName = body ∧ Nat.even rowIndex = true)
      then [Theme.alternateRow theme; StylesProps.alternateRowStyles styles]
      else [])
  ++ (if decide (sectionName = body)
      then
        [ match StylesProps.columnStyles styles !! propKey (Column.dataKey column) with
          | Some byDataKey => byDataKey
          | None =>
              match StylesProps.columnStyles styles !! pretty (Column.index column) with
              | Some byIndex => byIndex
              | None => ∅
              end
          end ]
      else []).

(** The styles a cell definition declares for the cell itself: [raw.styles];
    none on a scalar and on a missing value. *)
Definition ownStyles (raw : option CellInput) : Styles :=
  match raw with
  | Some (Rich d) => default ∅ (def_styles d)
  | _ => ∅
  end.

(** The floor of the "auto" mode in the words of the claim: "the style's
    explicit minCellWidth if given, else 10 divided by the scale factor". *)
Definition autoFloor_given (scaleFactor : Q) (st : Styles) : Q :=
  match st !! "minCellWidth" with
  | Some (VNum m) => m
  | _ => (10 / scaleFactor)%Q
  end.

(** The same floor when a [minCellWidth] of zero counts as not given. *)
Definition autoFloor (scaleFactor : Q) (st : Styles) : Q :=
  match st !! "minCellWidth" with
  | Some (VNum m) => if Qeq_bool m 0 then (10 / scaleFactor)%Q else m
  | _ => (10 / scaleFactor)%Q
  end.

(** The three width modes of section 4.4, for a floor [floor] of the "auto"
    mode: a fixed numeric width, "wrap", and everything else. *)
Definition widthModes (floor : Styles → Q) (c : Cell) : Prop :=
  let cellWidth := Cell.styles c !! "cellWidth" in
  (∀ w, cellWidth = Some (VNum w) →
        Cell.minWidth c = w ∧ Cell.wrappedWidth c = w) ∧
  (cellWidth = Some (VStr "wrap") →
        Cell.minWidth c = Cell.contentWidth c ∧
        Cell.wrappedWidth c = Cell.contentWidth c) ∧
  ((∀ w, cellWidth ≠ Some (VNum w)) → cellWidth ≠ Some (VStr "wrap") →
        Cell.minWidth c = floor (Cell.styles c) ∧
        Cell.wrappedWidth c =
          if Qle_bool (floor (Cell.styles c)) (Cell.contentWidth c)
          then Cell.contentWidth c else floor (Cell.styles c)).

(** The columns before the aggregation and the rows before the cell pass. *)
Definition columnsOf (table : Table) : list Column :=
  getTableColumns (contentOf (Table.settings table)).

Definition gridOf (host : Host) (table : Table) (sectionName : Section)
    : list Row :=
  parseSection (defaultStyles host) (getTheme host (theme (Table.settings table)))
    (Table.styles table) (columnsOf table) sectionName
    (sectionRowsOf (contentOf (Table.settings table)) (columnsOf table) sectionName).

Definition heapOrdered (r : Row) : Prop :=
  ∀ a c, Row.heap r !! a = Some c → (Cell.minWidth c <= Cell.wrappedWidth c)%Q.

(** The cell created for the column of index [i] in row [r], if any. *)
Definition created (r : Row) (i : nat) : option Cell := Row.heap r !! i.

(** The columns are numbered from [n] in the order of the list. *)
Definition indexedFrom (n : nat) (columns : list Column) : Prop :=
  ∀ i column, columns !! i = Some column → Column.index column = (n + i)%nat.

(** A row has no value for a column: as an array it is shorter than the
    column list at that column, as an object it lacks the column's key. *)
Definition missingIn (rawRow : RowInput) (column : Column) : Prop :=
  match rawRow with
  | Positional cells => (length cells ≤ Column.index column)%nat
  | Keyed props => propKey (Column.dataKey column) ∉ props.*1
  end.

(** A cell value that declares no span other than 1. *)
Definition noSpans (c : CellInput) : Prop :=
  default 1 (input_colSpan c) = 1 ∧ default 1 (input_rowSpan c) = 1.

Definition spanFree (rawRow : RowInput) : Prop :=
  match rawRow with
  | Positional cells => Forall noSpans cells
  | Keyed props => Forall noSpans props.*2
  end.

(** The value a row has for a column when no span shifts the positions. *)
Definition rawCellOf (rawRow : RowInput) (column : Column) : option CellInput :=
  match rawRow with
  | Positional cells => cells !! Column.index column
  | Keyed props => obj_get props (propKey (Column.dataKey column))
  end.

(** The state of the loop over the columns when no span is pending. *)
Definition noSpanPending (st : RowState) : Prop :=
  columnSpansLeft st = 0 ∧ colSpansAdded st = 0 ∧ skippedRowForRowSpans st = 0 ∧
  ∀ k, noRowSpanLeft (rowSpansLeftForColumn st) k = true.

(** The value a column provides for a generated row of a section: for the
    head its [header] when that is truthy and else the column's input itself
    when that is truthy; for the foot its [footer] when that is truthy. *)
Definition generatedValue (sectionName : Section) (column : Column)
    : option CellInput :=
  match sectionName with
  | head =>
      if truthy (columnData_header (Column.raw column))
      then columnData_header (Column.raw column)
      else if cell_truthy (columnData_asCell (Column.raw column))
           then Some (columnData_asCell (Column.raw column))
           else None
  | foot =>
      if truthy (columnData_footer (Column.raw column))
      then columnData_footer (Column.raw column)
      else None
  | body => None
  end.

(** The value the last column with property name [key] provides. *)
Definition lastProvided (sectionName : Section) (columns : list Column)
    (key : string) : option CellInput :=
  foldr
    (fun column later =>
       match later with
       | Some v => Some v
       | None =>
           if decide (propKey (Column.dataKey column) = key)
           then generatedValue sectionName column else None
       end)
    None columns.

(** The object [generateSectionRowFromColumnData] builds. *)
Definition generatedObject (sectionName : Section) (columns : list Column)
    (start : list (string * CellInput)) : list (string * CellInput) :=
  fold_left
    (fun sectionRow column =>
       match generatedValue sectionName column with
       | Some val => obj_set sectionRow (propKey (Column.dataKey column)) val
       | None => sectionRow
       end)
    columns start.

(** What the rows do to one column in the third loop. *)
Definition aggregateColumn (styles : StylesProps) (rows : list Row)
    (column : Column) : Column :=
  fold_left (fun column r => aggregateStep styles r column) rows column.

(** The sum of a list of numbers. *)
Definition sumQ (l : list Q) : Q := foldr Qplus 0%Q l.

(** [parseInput] from line 40 on: the table of the merged settings, the
    merged style options and the hooks. *)
Definition tableFrom (host : Host) (id : option string) (settings : UserOptions)
    (styleOptions : StylesProps) (hooks : list CellHook) : Table :=
  let settings := setTheme settings (resolveTheme settings) in
  let margin := marginOrPadding host (margin settings) (margin (defaultConfig host)) in
  let startY := getStartY host settings (Margin.top margin) in
  let htmlContent := htmlContentOf host settings in
  let settings :=
    setSections settings
      (default [] (orElse (html_head <$> htmlContent) (head_opt settings)))
      (default [] (orElse (html_body <$> htmlContent) (body_opt settings)))
      (default [] (orElse (html_foot <$> htmlContent) (foot_opt settings))) in
  let table :=
    parseContent host
      (Table.new id startY settings styleOptions (doc_userStyles host) hooks
         margin) in
  let minWidth := reduceWidths Column.minWidth (Table.columns table) in
  let wrappedWidth := reduceWidths Column.wrappedWidth (Table.columns table) in
  let width :=
    match tableWidth (Table.settings table) with
    | Some (TableWidthNum tableWidth) => tableWidth
    | Some TableWidthWrap => wrappedWidth
    | _ =>
        (pageWidth host - Margin.left (Table.margin table)
         - Margin.right (Table.margin table))%Q
    end in
  Table.mk (Table.id table) (Table.startY table) (Table.settings table)
    (Table.styles table) (Table.userStyles table) (Table.hooks table)
    (Table.margin table) (Table.columns table) (Table.head table)
    (Table.body table) (Table.foot table) minWidth wrappedWidth width.

(** The merged style options of a list of options. *)
Definition styleOptionsOf (allOptions : list UserOptions) : StylesProps :=
  StylesProps.mk
    (mergeStyles styles_opt allOptions)
    (mergeStyles headStyles_opt allOptions)
    (mergeStyles bodyStyles_opt allOptions)
    (mergeStyles footStyles_opt allOptions)
    (mergeStyles alternateRowStyles_opt allOptions)
    (mergeStyles columnStyles_opt allOptions).

(** The settings with other arrays for the head and the foot. *)
Definition withSections (s : UserOptions) (h f : option (list RowInput))
    : UserOptions :=
  mkOptions (tableId s) (theme s) (useCss s) (startY s) (margin s)
    (tableWidth s) (html s) (includeHiddenHtml s) (columns_opt s)
    h (body_opt s) f (styles_opt s) (headStyles_opt s) (bodyStyles_opt s)
    (footStyles_opt s) (alternateRowStyles_opt s) (columnStyles_opt s)
    (didParseCell s).

(** Some options object has the section. *)
Definition owned (get : UserOptions → option (list RowInput))
    (allOptions : list UserOptions) : bool :=
  existsb (fun o => bool_decide (is_Some (get o))) allOptions.

(** * Further notions

    The settings in force, the identity of rows and columns, the names of
    the cells of a row, and more hosts for the examples. *)

(** The value in force for a setting after [assign({}, defaultConf,
    ...allOptions)]: that of the table options when they have the property,
    else the document's, else the global one, else the default
    configuration's. *)
Definition inForce {A : Type} (prop : UserOptions → option A) (host : Host)
    (globalOptions documentOptions : UserOptions) (args : Args) : option A :=
  orElse (prop (parseUserArguments args))
    (orElse (prop documentOptions)
       (orElse (prop globalOptions) (prop (defaultConfig host)))).

(** The value of [key] in a style option over the three levels: the table
    options' when their object has the key, else the document's, else the
    global one; a level without the option counts as an empty object. *)
Definition fromLevels {A : Type} (prop : UserOptions → option (gmap string A))
    (globalOptions documentOptions tableOptions : UserOptions) (key : string)
    : option A :=
  orElse (default ∅ (prop tableOptions) !! key)
    (orElse (default ∅ (prop documentOptions) !! key)
       (default ∅ (prop globalOptions) !! key)).

(** [table[sectionName]] *)
Definition table_section (table : Table) (sectionName : Section) : list Row :=
  match sectionName with
  | head => Table.head table
  | body => Table.body table
  | foot => Table.foot table
  end.

(** [settings[sectionName]] on an options object. *)
Definition section_opt (settings : UserOptions) (sectionName : Section)
    : option (list RowInput) :=
  match sectionName with
  | head => head_opt settings
  | body => body_opt settings
  | foot => foot_opt settings
  end.

(** What identifies a row object: its input, its index and its section. *)
Definition rowIdentity (r : Row) : RowInput * nat * Section :=
  (Row.raw r, Row.index r, Row.section r).

(** The identity an explicit column input of position [index] gets:
    [input.dataKey || input.key || index]. *)
Definition explicitKey (input : ColumnInput) (index : nat) : DataKey :=
  match input with
  | ColScalar _ => KNum index
  | ColObj d => key_or (col_dataKey d) (key_or (col_key d) (KNum index))
  end.

(** What identifies a column: its [dataKey], its input and its index. *)
Definition columnIdentity (column : Column) : DataKey * ColumnInput * nat :=
  (Column.dataKey column, Column.raw column, Column.index column).

(** The [didParseCell] hook of an options object, called on a cell; an
    object without the hook leaves the cell as it is. *)
Definition hookOf (options : UserOptions) : CellHook :=
  fun cell row column =>
    match didParseCell options with
    | Some hook => hook cell row column
    | None => cell
    end.

(** [htmlContent[sectionName]] *)
Definition html_section (content : HtmlContent) (sectionName : Section)
    : list RowInput :=
  match sectionName with
  | head => html_head content
  | body => html_body content
  | foot => html_foot content
  end.

(** Lines 89 to 94 on the settings in force: the content parsed from
    [settings.html] when that is truthy and the parser gives a result. *)
Definition htmlInForce (host : Host) (globalOptions documentOptions : UserOptions)
    (args : Args) : option HtmlContent :=
  match inForce html host globalOptions documentOptions args with
  | Some input =>
      if String.eqb input EmptyString then None
      else parseHtml host input
             (inForce includeHiddenHtml host globalOptions documentOptions args)
             (inForce useCss host globalOptions documentOptions args)
  | None => None
  end.

(** Lines 95 to 97: [htmlContent[sectionName] || settings[sectionName] || []]
    on the settings in force. *)
Definition sectionInForce (host : Host) (globalOptions documentOptions : UserOptions)
    (args : Args) (sectionName : Section) : list RowInput :=
  default []
    (orElse
       ((fun content => html_section content sectionName) <$>
          htmlInForce host globalOptions documentOptions args)
       (inForce (fun options => section_opt options sectionName)
          host globalOptions documentOptions args)).

(** The names under which [row.cells] holds cells, and the cell objects of
    the row, all belong to columns of [columns]. *)
Definition namedBy (columns : list Column) (r : Row) : Prop :=
  (∀ key a, Row.cells r !! key = Some a →
     ∃ column, column ∈ columns ∧ Column.index column = a ∧
       (key = propKey (Column.dataKey column) ∨
        key = pretty (Column.index column))) ∧
  (∀ a, is_Some (Row.heap r !! a) →
     ∃ column, column ∈ columns ∧ Column.index column = a).

(** The entry of the column in [columnStyles] fixes no width: its
    [cellWidth] is not a number other than zero. *)
Definition noFixedWidth (styles : StylesProps) (column : Column) : Prop :=
  ∀ w, typeof_number (columnStylesOf styles column !! "cellWidth") = Some w →
       Qzero w = true.

(** The minimum width of a column is at most its wrapped width, and the two
    are zero together. *)
Definition widthsOrdered (column : Column) : Prop :=
  (Column.minWidth column <= Column.wrappedWidth column)%Q ∧
  Qzero (Column.minWidth column) = Qzero (Column.wrappedWidth column).

(** The number of columns before the one of index [j] for which row [r] has
    a cell of its own. *)
Definition createdBefore (r : Row) (j : nat) : nat :=
  length (filter (fun k => is_Some (created r k)) (seq 0 j)).

(** The value a row provides for the cell it creates at a column: as an
    array the element whose position is the number of cells created before
    in the row, as an object the property named by the [dataKey] of the
    column. *)
Definition rawValueAt (r : Row) (column : Column) : option CellInput :=
  match Row.raw r with
  | Positional cells => cells !! createdBefore r (Column.index column)
  | Keyed props => obj_get props (propKey (Column.dataKey column))
  end.

(** No column has for [dataKey] the decimal numeral of the index of another
    column. *)
Definition ownNames (columns : list Column) : Prop :=
  ∀ column column', column ∈ columns → column' ∈ columns →
    propKey (Column.dataKey column) = pretty (Column.index column') →
    Column.index column = Column.index column'.

(** No two columns have the same [dataKey], as a property name. *)
Definition distinctKeys (columns : list Column) : Prop :=
  ∀ column column', column ∈ columns → column' ∈ columns →
    propKey (Column.dataKey column) = propKey (Column.dataKey column') →
    Column.index column = Column.index column'.

(** Every name of [row.cells] is a name of the column whose cell it holds,
    and the cell of a column is held under the index of the column. *)
Definition wellNamed (columns : list Column) (r : Row) : Prop :=
  (∀ key a, Row.cells r !! key = Some a →
     is_Some (Row.heap r !! a) ∧
     ∃ column, column ∈ columns ∧ Column.index column = a ∧
       (key = propKey (Column.dataKey column) ∨
        key = pretty (Column.index column))) ∧
  (∀ column, column ∈ columns →
     is_Some (Row.heap r !! Column.index column) →
     Row.cells r !! pretty (Column.index column) = Some (Column.index column)).

(** The cell of a column is held under the [dataKey] of the column too. *)
Definition wellKeyed (columns : list Column) (r : Row) : Prop :=
  ∀ column, column ∈ columns →
    is_Some (Row.heap r !! Column.index column) →
    Row.cells r !! propKey (Column.dataKey column) = Some (Column.index column).

(** Column [j] lies under the column span of the cell [cell] of column [j']:
    to its right and, for a span of one or more, within the span. A span of
    zero or less is never used up. *)
Definition underSpanOf (j' : nat) (cell : Cell) (j : nat) : Prop :=
  (j' < j)%nat ∧
  (Cell.colSpan cell ≤ 0 ∨ Z.of_nat j < Z.of_nat j' + Cell.colSpan cell).

(** ** More hosts

    The host of the examples after a previous table, and with a parser of
    HTML tables that finds [content]. *)
Definition hostAfter (previous : PreviousTable) : Host :=
  Build_Host (scaleFactor Fixture.host0) (pageWidth Fixture.host0)
    (pageNumber Fixture.host0) (Some previous)
    (getStringWidth Fixture.host0) (padding_horizontal Fixture.host0)
    (marginOrPadding Fixture.host0) (getTheme Fixture.host0)
    (defaultStyles Fixture.host0) (defaultConfig Fixture.host0)
    (parseHtml Fixture.host0) (doc_userStyles Fixture.host0).

Definition hostParsing (content : HtmlContent) : Host :=
  Build_Host (scaleFactor Fixture.host0) (pageWidth Fixture.host0)
    (pageNumber Fixture.host0) (previousAutoTable Fixture.host0)
    (getStringWidth Fixture.host0) (padding_horizontal Fixture.host0)
    (marginOrPadding Fixture.host0) (getTheme Fixture.host0)
    (defaultStyles Fixture.host0) (defaultConfig Fixture.host0)
    (fun _ _ _ => Some content) (doc_userStyles Fixture.host0).

(** Options with a [startY], an [html] source and a [didParseCell] hook
    beside the content. *)
Definition optionsWith (startY : option StartY) (html : option string)
    (hook : option CellHook) (b : option (list RowInput)) : UserOptions :=
  mkOptions None None None startY None None html None None None b None
    None None None None None None hook.

(** A hook that replaces the text of the cell by a string. *)
Definition retitle (s : string) : CellHook :=
  fun cell _ _ =>
    Cell.mk (Cell.raw cell) (Cell.styles cell) (Cell.Str s) (Cell.section cell)
      (Cell.colSpan cell) (Cell.rowSpan cell) (Cell.contentWidth cell)
      (Cell.wrappedWidth cell) (Cell.minReadableWidth cell) (Cell.minWidth cell).

(** A hook that sets a style property of the cell. *)
Definition restyle (key : string) (v : StyleVal) : CellHook :=
  fun cell _ _ =>
    Cell.mk (Cell.raw cell) (<[key := v]> (Cell.styles cell)) (Cell.text cell)
      (Cell.section cell) (Cell.colSpan cell) (Cell.rowSpan cell)
      (Cell.contentWidth cell) (Cell.wrappedWidth cell)
      (Cell.minReadableWidth cell) (Cell.minWidth cell).

(** Options with a [didParseCell] hook and nothing else. *)
Definition hookOnly (hook : CellHook) : UserOptions :=
  optionsWith None None (Some hook) None.

(** A cell definition with styles of its own. *)
Definition styled (s : string) (own : Styles) : CellInput :=
  Rich (Build_CellDef (Some (SStr s)) None None (Some own)).

(** * Properties *)

(** ** Decimal names *)

Lemma pretty_N_go_ne_underscore (x : N) (s s' : string) :
  s ≠ String "_" s' → pretty_N_go x s ≠ String "_" s'.
Proof.
  revert s. induction (N.lt_wf_0 x) as [x _ IH]; intros s Hs.
  assert (x = 0 ∨ 0 < x)%N as [->|Hx] by lia.
  - by rewrite pretty_N_go_0.
  - rewrite pretty_N_go_step by done. apply IH.
    + by apply N.div_lt.
    + unfold pretty_N_char. by repeat case_match.
Qed.

Lemma pretty_nat_ne_element (i : nat) : pretty i ≠ "_element".
Proof.
  unfold pretty, pretty_nat, pretty, pretty_N.
  case_decide; [done|]. by apply pretty_N_go_ne_underscore.
Qed.

(** ** Column resolution *)

Lemma numberedFrom_app n ids ids' :
  numberedFrom n (ids ++ ids') =
  numberedFrom n ids ++ numberedFrom (n + length ids) ids'.
Proof.
  revert n. induction ids as [|id ids IH]; intros n; simpl.
  - by rewrite Nat.add_0_r.
  - rewrite IH. do 3 f_equal. lia.
Qed.

Lemma numberedFrom_length n ids : length (numberedFrom n ids) = length ids.
Proof. revert n. induction ids; intros; simpl; auto. Qed.

Lemma numberedFrom_lookup n ids i :
  numberedFrom n ids !! i =
  (fun id => Column.new id (ColScalar id) (n + i)) <$> ids !! i.
Proof.
  revert n i. induction ids as [|id ids IH]; intros n [|i]; simpl; try done.
  - by rewrite Nat.add_0_r.
  - rewrite IH. by replace (S n + i)%nat with (n + S i)%nat by lia.
Qed.

Lemma firstRow_colSpan_columnsFor c :
  Z.to_nat (firstRow_colSpan c) = columnsFor c.
Proof.
  unfold firstRow_colSpan, columnsFor.
  destruct c as [v|d]; simpl; [by destruct (scalar_truthy v)|].
  destruct (def_colSpan d) as [n|]; [|done]. by destruct (n =? 0).
Qed.

Lemma append_empty_r (s : string) : s +:+ EmptyString = s.
Proof.
  induction s as [|c s IH]; [done|].
  change (String c (s +:+ EmptyString) = String c s). by rewrite IH.
Qed.

Lemma pushColumn_keyed_eq key acc i :
  pushColumn false key acc i =
  acc ++ numberedFrom (length acc) [siblingKey key i].
Proof.
  unfold pushColumn, siblingKey. simpl. destruct i as [|i].
  - case_decide; [lia|]. by rewrite append_empty_r.
  - case_decide; [done|lia].
Qed.

Lemma pushColumn_array_eq key acc i :
  pushColumn true key acc i =
  acc ++ numberedFrom (length acc) [KNum (length acc)].
Proof. done. Qed.

Lemma pushColumn_keyed key a m acc :
  fold_left (pushColumn false key) (seq a m) acc =
  acc ++ numberedFrom (length acc) (siblingKey key <$> seq a m).
Proof.
  revert a acc. induction m as [|m IH]; intros a acc.
  - simpl. by rewrite app_nil_r.
  - cbn [seq fold_left]. rewrite IH, pushColumn_keyed_eq.
    rewrite length_app, <- app_assoc. simpl. by rewrite Nat.add_1_r.
Qed.

Lemma pushColumn_array key a m acc :
  fold_left (pushColumn true key) (seq a m) acc =
  acc ++ numberedFrom (length acc) (KNum <$> seq (length acc) m).
Proof.
  revert a acc. induction m as [|m IH]; intros a acc.
  - simpl. by rewrite app_nil_r.
  - cbn [seq fold_left]. rewrite IH, pushColumn_array_eq.
    rewrite length_app, <- app_assoc. simpl. by rewrite Nat.add_1_r.
Qed.

Lemma pushColumnsFor_keyed_eq acc e :
  pushColumnsFor false acc e =
  acc ++ numberedFrom (length acc) (siblingKey e.1 <$> seq 0 (columnsFor e.2)).
Proof.
  unfold pushColumnsFor.
  by rewrite firstRow_colSpan_columnsFor, pushColumn_keyed.
Qed.

Lemma pushColumnsFor_array_eq acc e :
  pushColumnsFor true acc e =
  acc ++ numberedFrom (length acc) (KNum <$> seq (length acc) (columnsFor e.2)).
Proof.
  unfold pushColumnsFor.
  by rewrite firstRow_colSpan_columnsFor, pushColumn_array.
Qed.

Lemma pushColumnsFor_keyed entries acc :
  fold_left (pushColumnsFor false) entries acc =
  acc ++ numberedFrom (length acc)
           (flat_map (fun e => siblingKey e.1 <$> seq 0 (columnsFor e.2)) entries).
Proof.
  revert acc. induction entries as [|e entries IH]; intros acc.
  - simpl. by rewrite app_nil_r.
  - cbn [fold_left flat_map]. rewrite IH, pushColumnsFor_keyed_eq.
    rewrite numberedFrom_app, length_app, numberedFrom_length, <- app_assoc.
    done.
Qed.

Lemma pushColumnsFor_array entries acc :
  fold_left (pushColumnsFor true) entries acc =
  acc ++ numberedFrom (length acc)
           (KNum <$> seq (length acc) (sum_list (columnsFor <$> entries.*2))).
Proof.
  revert acc. induction entries as [|e entries IH]; intros acc.
  - simpl. by rewrite app_nil_r.
  - cbn [fold_left]. rewrite IH, pushColumnsFor_array_eq.
    rewrite length_app, numberedFrom_length, length_fmap, length_seq.
    rewrite <- app_assoc. f_equal.
    rewrite !fmap_cons. cbn [sum_list sum_list_with].
    rewrite seq_app, fmap_app, numberedFrom_app.
    by rewrite length_fmap, length_seq.
Qed.

Lemma obj_get_is_Some {A : Type} (o : list (string * A)) (key : string) :
  key ∈ o.*1 → is_Some (obj_get o key).
Proof.
  induction o as [|[k v] o IH]; simpl; [by intros ?%elem_of_nil|].
  intros Hin. destruct (String.eqb_spec k key) as [->|Hne]; [by eexists|].
  apply IH. apply elem_of_cons in Hin as [Heq|Hin]; [by subst|done].
Qed.

Lemma keyed_entries props (keys : list string) :
  (∀ key, key ∈ keys → is_Some (obj_get props key)) →
  flat_map (fun e => siblingKey e.1 <$> seq 0 (columnsFor e.2))
    (filter (fun e => e.1 ≠ "_element")
       (omap (fun key => (fun c => (key, c)) <$> obj_get props key) keys)) =
  flat_map
    (fun key =>
       siblingKey key <$> seq 0 (from_option columnsFor 1%nat (obj_get props key)))
    (filter (fun key => key ≠ "_element") keys).
Proof.
  induction keys as [|key keys IH]; intros Hkeys; [done|].
  destruct (Hkeys key) as [c Hc]; [by left|].
  cbn [omap list_omap]. rewrite Hc. cbn [fmap option_fmap option_map].
  rewrite !filter_cons. cbn [fst].
  destruct (decide _) as [Hne|Hne]; cbn [flat_map]; rewrite IH; try done.
  - by rewrite Hc.
  - intros k Hk. apply Hkeys. by right.
  - intros k Hk. apply Hkeys. by right.
Qed.

Lemma positional_entries (cells : list CellInput) :
  filter (fun e : string * CellInput => e.1 ≠ "_element")
    (imap (fun i c => (pretty i, c)) cells) =
  imap (fun i c => (pretty i, c)) cells.
Proof.
  assert (∀ n, filter (fun e : string * CellInput => e.1 ≠ "_element")
                 (imap (fun i c => (pretty (n + i)%nat, c)) cells) =
               imap (fun i c => (pretty (n + i)%nat, c)) cells) as H.
  { induction cells as [|c cells IH]; intros n; [done|].
    cbn [imap]. rewrite filter_cons. cbn [fst].
    destruct (decide _) as [Hne|Hne];
      [|by destruct Hne; apply pretty_nat_ne_element].
    f_equal. specialize (IH (S n)).
    erewrite (imap_ext _ (fun i c => (pretty (S n + i)%nat, c))).
    - exact IH.
    - intros i x _. simpl. by rewrite Nat.add_succ_r. }
  apply (H 0%nat).
Qed.

Lemma positional_entries_snd (cells : list CellInput) :
  (imap (fun i c => (pretty i, c)) cells).*2 = cells.
Proof.
  rewrite fmap_imap. rewrite (imap_ext _ (const id)); [|done].
  rewrite imap_const. apply list_fmap_id.
Qed.

Lemma firstRow_first (s : Content) :
  firstRow s =
  default (Positional []) ((c_head s ++ c_body s ++ c_foot s) !! 0%nat).
Proof.
  unfold firstRow. by destruct (c_head s), (c_body s), (c_foot s).
Qed.

(** The inferred columns, by the shape of the first row. *)
Lemma inferred_columns (s : Content) :
  columns s = None →
  getTableColumns s =
    match default (Positional []) ((c_head s ++ c_body s ++ c_foot s) !! 0%nat) with
    | Keyed props =>
        numberedFrom 0
          (flat_map
             (fun key =>
                siblingKey key <$>
                  seq 0 (from_option columnsFor 1%nat (obj_get props key)))
             (filter (fun key => key ≠ "_element") (obj_keys props)))
    | Positional cells =>
        numberedFrom 0 (KNum <$> seq 0 (sum_list (columnsFor <$> cells)))
    end.
Proof.
  intros Hcols. unfold getTableColumns. rewrite Hcols, <- firstRow_first.
  destruct (firstRow s) as [cells|props]; cbn [isArray Object_entries].
  - rewrite positional_entries, pushColumnsFor_array.
    by rewrite positional_entries_snd.
  - rewrite pushColumnsFor_keyed. cbn [app length]. f_equal.
    apply keyed_entries. intros key Hkey. apply obj_get_is_Some.
    unfold obj_keys in Hkey. by rewrite elem_of_remove_dups in Hkey.
Qed.

Lemma oneColumn_columnsFor (c : CellInput) :
  oneColumn c → columnsFor c = 1%nat.
Proof. unfold oneColumn, columnsFor. by intros [->|[->| ->]]. Qed.

Lemma sum_list_ones (cells : list CellInput) :
  Forall oneColumn cells → sum_list (columnsFor <$> cells) = length cells.
Proof.
  induction 1 as [|c cells Hc _ IH]; [done|].
  rewrite fmap_cons. cbn [sum_list sum_list_with length].
  by rewrite IH, (oneColumn_columnsFor c Hc).
Qed.

(** C8 (as amended). Without explicit columns, the columns come from the
    first row of the first non-empty section, head before body before foot.
    An object-shaped row gives, per key other than [_element] and in the
    order of the keys, as many columns as the cell under the key declares in
    [colSpan] (one when it declares none or zero, none when it declares a
    negative one), with identities [key], [key_1], [key_2], ...; an
    array-shaped row gives, per position, as many columns as the cell there
    declares in [colSpan], and the identity of an inferred column is its own
    index in the column list. In both shapes the columns are numbered from
    zero in the order of creation. For an array-shaped row this is one column
    per position, with the position for identity, exactly when these numbers
    of columns add up to the number of positions; they do when every cell
    declares no [colSpan], or a [colSpan] of zero or one. *)
Theorem getTableColumns_inferred (s : Content) :
  columns s = None →
  getTableColumns s =
    match default (Positional []) ((c_head s ++ c_body s ++ c_foot s) !! 0%nat) with
    | Keyed props =>
        numberedFrom 0
          (flat_map
             (fun key =>
                siblingKey key <$>
                  seq 0 (from_option columnsFor 1%nat (obj_get props key)))
             (filter (fun key => key ≠ "_element") (obj_keys props)))
    | Positional cells =>
        numberedFrom 0 (KNum <$> seq 0 (sum_list (columnsFor <$> cells)))
    end ∧
  ∀ cells,
    (c_head s ++ c_body s ++ c_foot s) !! 0%nat = Some (Positional cells) →
    (getTableColumns s = onePerPosition cells ↔
     sum_list (columnsFor <$> cells) = length cells) ∧
    (Forall oneColumn cells → getTableColumns s = onePerPosition cells).
Proof.
  intros Hcols. pose proof (inferred_columns s Hcols) as Hinferred.
  split; [done|]. intros cells Hfirst. rewrite Hfirst in Hinferred.
  cbn [default from_option id] in Hinferred.
  assert (getTableColumns s = onePerPosition cells ↔
          sum_list (columnsFor <$> cells) = length cells) as Hiff.
  { rewrite Hinferred. unfold onePerPosition. split; [|by intros ->].
    intros Heq. apply (f_equal length) in Heq.
    by rewrite !numberedFrom_length, !length_fmap, !length_seq in Heq. }
  split; [done|]. intros Hones. by apply Hiff, sum_list_ones.
Qed.

Lemma getTableColumns_inferred_witness :
  let spanning := [Fixture.spanning "Q" (Some 2) None; Fixture.str "b"] in
  let plain := [Fixture.spanning "Q" (Some 1) None; Fixture.str "b"] in
  let s := Build_Content None [] [Positional spanning] [] in
  let s' := Build_Content None [] [Positional plain] [] in
  columns s = None ∧ columns s' = None ∧
  getTableColumns s = numberedFrom 0 [KNum 0; KNum 1; KNum 2] ∧
  (getTableColumns s = onePerPosition spanning ↔
   sum_list (columnsFor <$> spanning) = length spanning) ∧
  getTableColumns s' = onePerPosition plain.
Proof.
  split; [reflexivity|]. split; [reflexivity|]. split; [|split].
  - exact (proj1 (getTableColumns_inferred
                    (Build_Content None []
                       [Positional [Fixture.spanning "Q" (Some 2) None;
                                    Fixture.str "b"]] [])
                    eq_refl)).
  - exact (proj1 (proj2 (getTableColumns_inferred
                           (Build_Content None []
                              [Positional [Fixture.spanning "Q" (Some 2) None;
                                           Fixture.str "b"]] [])
                           eq_refl) _ eq_refl)).
  - apply (proj2 (proj2 (getTableColumns_inferred
                           (Build_Content None []
                              [Positional [Fixture.spanning "Q" (Some 1) None;
                                           Fixture.str "b"]] [])
                           eq_refl) _ eq_refl)).
    constructor; [by right; right|]. constructor; [by left|]. constructor.
Defined.

(** C8 as stated fails on an array-shaped first row with a spanning cell: two
    positions give three columns. *)
Lemma getTableColumns_array_counterexample :
  let cells := [Fixture.spanning "Q" (Some 2) None; Fixture.str "b"] in
  let s := Build_Content None [] [Positional cells] [] in
  columns s = None ∧ firstRow s = Positional cells ∧
  getTableColumns s ≠ onePerPosition cells.
Proof. repeat split. vm_compute. discriminate. Qed.

(** ** Style cascade *)

Lemma orElse_assoc {A : Type} (a b c : option A) :
  orElse (orElse a b) c = orElse a (orElse b c).
Proof. by destruct a. Qed.

Lemma orElse_None_r {A : Type} (a : option A) : orElse a None = a.
Proof. by destruct a. Qed.

Lemma lookup_union_orElse {A : Type} (m1 m2 : gmap string A) (key : string) :
  (m1 ∪ m2) !! key = orElse (m1 !! key) (m2 !! key).
Proof.
  rewrite lookup_union. by destruct (m1 !! key), (m2 !! key).
Qed.

Lemma assign_lookup (target : Styles) (sources : list Styles) (key : string) :
  assign target sources !! key = mergedValue (target :: sources) key.
Proof.
  unfold assign. revert target.
  induction sources as [|s sources IH]; intros target; [done|].
  cbn [fold_left]. rewrite IH. cbn [mergedValue].
  by rewrite lookup_union_orElse, orElse_assoc.
Qed.

Lemma mergedValue_app (l1 l2 : list Styles) (key : string) :
  mergedValue (l1 ++ l2) key = orElse (mergedValue l2 key) (mergedValue l1 key).
Proof.
  induction l1 as [|l l1 IH]; simpl; [by rewrite orElse_None_r|].
  by rewrite IH, orElse_assoc.
Qed.

Lemma even_mod2 (n : nat) : Nat.even n = true ↔ (n mod 2 = 0)%nat.
Proof.
  rewrite Nat.even_spec. split.
  - intros [k ->]. by rewrite Nat.mul_comm, Nat.Div0.mod_mul.
  - intros H. exists (n / 2)%nat. pose proof (Nat.div_mod_eq n 2). lia.
Qed.

(** The style [cellStyles] computes is, property by property, the value set
    by the last layer of the cascade that sets the property. *)
Lemma cellStyles_layers (defaultStyles : Styles) (theme : Theme)
    (styles : StylesProps) (sectionName : Section) (column : Column)
    (rowIndex : nat) (key : string) :
  cellStyles defaultStyles theme styles sectionName column rowIndex !! key =
  mergedValue
    (cascadeLayers defaultStyles theme styles sectionName column rowIndex) key.
Proof.
  unfold cellStyles, cascadeLayers, columnStylesOf, orElse at 1.
  rewrite assign_lookup.
  change (defaultStyles :: ?l ++ ?r) with ((defaultStyles :: l) ++ r).
  rewrite !mergedValue_app. f_equal.
  assert (default ∅
            match StylesProps.columnStyles styles !! propKey (Column.dataKey column) with
            | Some _ => StylesProps.columnStyles styles !! propKey (Column.dataKey column)
            | None => StylesProps.columnStyles styles !! pretty (Column.index column)
            end =
          match StylesProps.columnStyles styles !! propKey (Column.dataKey column) with
          | Some byDataKey => byDataKey
          | None =>
              match StylesProps.columnStyles styles !! pretty (Column.index column) with
              | Some byIndex => byIndex
              | None => ∅
              end
          end) as ->.
  { destruct (StylesProps.columnStyles styles !! propKey _); [done|].
    by destruct (StylesProps.columnStyles styles !! pretty _). }
  destruct (decide (sectionName = body)) as [->|Hs].
  - destruct (decide (rowIndex mod 2 = 0)%nat) as [He|He].
    + rewrite !decide_True by (by rewrite ?even_mod2).
      cbn [mergedValue]. rewrite assign_lookup. cbn [mergedValue].
      by rewrite lookup_empty, !orElse_None_r.
    + rewrite !decide_False by (rewrite ?even_mod2; tauto).
      cbn [mergedValue]. by rewrite lookup_empty.
  - rewrite !decide_False by tauto. cbn [mergedValue].
    by rewrite !lookup_empty.
Qed.

(** ** Width resolution of a cell *)

Lemma fold_left_invariant {A B : Type} (P : A → Prop) (f : A → B → A)
    (l : list B) (a : A) :
  (∀ a b, P a → P (f a b)) → P a → P (fold_left f l a).
Proof.
  intros Hstep. revert a. induction l as [|b l IH]; intros a Ha; [done|].
  apply IH, Hstep, Ha.
Qed.

Lemma typeof_number_Some (v : option StyleVal) (q : Q) :
  typeof_number v = Some q ↔ v = Some (VNum q).
Proof. destruct v as [[]|]; simpl; naive_solver. Qed.

Lemma is_string_true (v : option StyleVal) (s : string) :
  is_string v s = true ↔ v = Some (VStr s).
Proof.
  destruct v as [[q|s'|b|l]|]; simpl; try naive_solver.
  rewrite String.eqb_eq. naive_solver.
Qed.

Lemma minCellWidth_or_autoFloor (host : Host) (st : Styles) :
  minCellWidth_or st (10 / scaleFactor host)%Q = autoFloor (scaleFactor host) st.
Proof.
  unfold minCellWidth_or, autoFloor, Qzero.
  by destruct (st !! "minCellWidth") as [[]|].
Qed.

Lemma resolveCellWidths_modes (host : Host) (cell : Cell) :
  widthModes (autoFloor (scaleFactor host)) (resolveCellWidths host cell).
Proof.
  unfold widthModes, resolveCellWidths.
  cbn [Cell.styles Cell.minWidth Cell.wrappedWidth Cell.contentWidth].
  rewrite minCellWidth_or_autoFloor.
  set (floor := autoFloor _ _). set (cw := Cell.styles cell !! "cellWidth").
  cbv zeta. destruct (typeof_number cw) as [w|] eqn:Hnum; cbn [fst snd].
  - apply typeof_number_Some in Hnum. split; [|split].
    + intros w' Hw'. split; congruence.
    + congruence.
    + intros Hno. by destruct (Hno w).
  - destruct (is_string cw "wrap") eqn:Hwrap; cbn [fst snd].
    + apply is_string_true in Hwrap. split; [|split].
      * congruence.
      * done.
      * congruence.
    + split; [|split].
      * intros w Hw. apply typeof_number_Some in Hw. congruence.
      * intros Hw. apply is_string_true in Hw. congruence.
      * intros _ _. by destruct (Qle_bool floor _).
Qed.

Lemma resolveCellWidths_ordered (host : Host) (cell : Cell) :
  (Cell.minWidth (resolveCellWidths host cell) <=
   Cell.wrappedWidth (resolveCellWidths host cell))%Q.
Proof.
  unfold resolveCellWidths. cbn [Cell.minWidth Cell.wrappedWidth].
  destruct (typeof_number _); [apply Qle_refl|].
  destruct (is_string _ _); [apply Qle_refl|].
  destruct (Qle_bool _ _) eqn:Hle; cbn [negb fst snd].
  - by apply Qle_bool_iff.
  - apply Qle_refl.
Qed.

(** ** The cell pass over a row *)

Lemma cellPassStep_cells host hooks row column :
  Row.cells (cellPassStep host hooks row column) = Row.cells row.
Proof.
  unfold cellPassStep. destruct (Row.cells row !! _) as [a|]; [|done].
  by destruct (Row.heap row !! a).
Qed.

Lemma cellPassStep_heap host hooks row column a c :
  Row.heap (cellPassStep host hooks row column) !! a = Some c →
  (∃ c0, c = resolveCellWidths host c0 ∧
         Row.cells row !! pretty (Column.index column) = Some a) ∨
  (Row.heap row !! a = Some c ∧
   Row.cells row !! pretty (Column.index column) ≠ Some a).
Proof.
  unfold cellPassStep.
  destruct (Row.cells row !! _) as [a'|] eqn:Hkey; [|by right].
  destruct (Row.heap row !! a') as [c'|] eqn:Hheap.
  - cbn [Row.alloc Row.heap]. destruct (decide (a' = a)) as [->|Hne].
    + rewrite lookup_insert_eq. intros [= <-]. left. eauto.
    + rewrite lookup_insert_ne by done. intros Hc. right. split; [done|congruence].
  - intros Hc. right. split; [done|]. congruence.
Qed.

Lemma cellPassStep_cell host hooks row column key c :
  Row.cell (cellPassStep host hooks row column) key = Some c →
  (∃ c0, c = resolveCellWidths host c0) ∨
  (Row.cell row key = Some c ∧ key ≠ pretty (Column.index column)).
Proof.
  unfold Row.cell. rewrite cellPassStep_cells.
  destruct (Row.cells row !! key) as [a|] eqn:Hkey; [|done]. cbn [mbind option_bind].
  intros [(c0 & -> & _)|[Hc Hne]]%cellPassStep_heap; [left; eauto|].
  right. split; [done|]. congruence.
Qed.

Lemma cellPass_snoc host hooks columns column row :
  cellPass host hooks (columns ++ [column]) row =
  cellPassStep host hooks (cellPass host hooks columns row) column.
Proof. unfold cellPass. by rewrite fold_left_app. Qed.

Lemma cellPass_resolved host hooks columns row column c :
  column ∈ columns →
  Row.cell (cellPass host hooks columns row) (pretty (Column.index column)) = Some c →
  ∃ c0, c = resolveCellWidths host c0.
Proof.
  induction columns as [|x columns IH] using rev_ind; [by intros ?%elem_of_nil|].
  rewrite cellPass_snoc.
  intros Hin [Hres|[Hc Hne]]%cellPassStep_cell; [done|].
  apply IH; [|done].
  apply elem_of_app in Hin as [Hin|Hin%list_elem_of_singleton]; [done|].
  by subst.
Qed.

(** ** The rows and columns of a parsed table *)

Lemma aggregateStep_index styles row column :
  Column.index (aggregateStep styles row column) = Column.index column.
Proof.
  unfold aggregateStep, respectColumnStyles.
  repeat (case_match; cbn [Column.index Column.set_wrappedWidth
    Column.set_minWidth Column.set_minReadableWidth]); done.
Qed.

Lemma aggregateStep_dataKey styles row column :
  Column.dataKey (aggregateStep styles row column) = Column.dataKey column.
Proof.
  unfold aggregateStep, respectColumnStyles.
  repeat (case_match; cbn [Column.dataKey Column.set_wrappedWidth
    Column.set_minWidth Column.set_minReadableWidth]); done.
Qed.

Lemma aggregate_index styles rows columns :
  Column.index <$> aggregate styles rows columns = Column.index <$> columns.
Proof.
  unfold aggregate.
  apply (fold_left_invariant
           (fun cols => Column.index <$> cols = Column.index <$> columns));
    [|done].
  intros cols row <-. rewrite <- list_fmap_compose.
  apply list_fmap_ext. intros _ col _. apply aggregateStep_index.
Qed.

Lemma elem_of_parseRows defaultStyles theme styles columns sectionName
    ledger rowIndex sectionRows r :
  r ∈ parseRows defaultStyles theme styles columns sectionName ledger rowIndex
        sectionRows →
  ∃ ledger' rowIndex' rawRow,
    r = row (parseRow defaultStyles theme styles columns sectionName ledger'
               rowIndex' rawRow).
Proof.
  revert ledger rowIndex.
  induction sectionRows as [|rawRow rest IH]; intros ledger rowIndex;
    cbn [parseRows]; [by intros ?%elem_of_nil|].
  intros [->|Hin]%elem_of_cons; [eauto|]. by eapply IH.
Qed.

Lemma parseContent_rows host table :
  Table.allRows (parseContent host table) =
  cellPass host (Table.hooks table) (columnsOf table) <$>
    (gridOf host table head ++ gridOf host table body ++ gridOf host table foot).
Proof. unfold Table.allRows, parseContent. cbn. by rewrite !fmap_app. Qed.

Lemma parseContent_columns host table :
  Table.columns (parseContent host table) =
  aggregate (Table.styles table) (Table.allRows (parseContent host table))
    (columnsOf table).
Proof. done. Qed.

Lemma elem_of_parseContent_rows host table r :
  r ∈ Table.allRows (parseContent host table) →
  ∃ sectionName r0,
    r0 ∈ gridOf host table sectionName ∧
    r = cellPass host (Table.hooks table) (columnsOf table) r0.
Proof.
  rewrite parseContent_rows. intros (r0 & -> & Hin)%list_elem_of_fmap.
  rewrite !elem_of_app in Hin. destruct Hin as [?|[?|?]]; eauto.
Qed.

Lemma elem_of_parseContent_columns host table column :
  column ∈ Table.columns (parseContent host table) →
  ∃ column0, column0 ∈ columnsOf table ∧
             Column.index column0 = Column.index column.
Proof.
  rewrite parseContent_columns. intros Hin.
  assert (Column.index column ∈ Column.index <$> columnsOf table) as Hidx.
  { rewrite <- (aggregate_index (Table.styles table)
                  (Table.allRows (parseContent host table))).
    by apply list_elem_of_fmap_2. }
  apply list_elem_of_fmap in Hidx as (column0 & Heq & Hin0). eauto.
Qed.

(** C5 (as amended). After the cell width pass, every cell a row holds under
    the index of a column has: with a numeric [cellWidth] in its style, that
    number as [minWidth] and [wrappedWidth]; with [cellWidth] 'wrap', its
    [contentWidth] as both; otherwise as [minWidth] the [minCellWidth] of its
    style when that is a number other than zero and else 10 divided by the
    scale factor, and as [wrappedWidth] its [contentWidth], raised to
    [minWidth] when smaller. *)
Theorem cell_width_modes (host : Host) (table : Table) (r : Row)
    (column : Column) (c : Cell) :
  r ∈ Table.allRows (parseContent host table) →
  column ∈ Table.columns (parseContent host table) →
  Row.cell r (pretty (Column.index column)) = Some c →
  widthModes (autoFloor (scaleFactor host)) c.
Proof.
  intros (sectionName & r0 & _ & ->)%elem_of_parseContent_rows
         (column0 & Hin0 & <-)%elem_of_parseContent_columns Hc.
  destruct (cellPass_resolved _ _ _ _ _ _ Hin0 Hc) as [c0 ->].
  apply resolveCellWidths_modes.
Qed.

Lemma cell_width_modes_witness :
  let table :=
    newTable Fixture.host0 noOptions noOptions
      (Args1 (Fixture.options None None
                (Some [Positional [Fixture.str "a"; Fixture.str "b"]]) None None)) in
  ∃ r column c,
    r ∈ Table.allRows (parseContent Fixture.host0 table) ∧
    column ∈ Table.columns (parseContent Fixture.host0 table) ∧
    Row.cell r (pretty (Column.index column)) = Some c ∧
    widthModes (autoFloor (scaleFactor Fixture.host0)) c.
Proof.
  intros table.
  assert (∃ r, Table.allRows (parseContent Fixture.host0 table) !! 0%nat = Some r)
    as [r Hr] by (vm_compute; eauto).
  assert (∃ column, Table.columns (parseContent Fixture.host0 table) !! 1%nat
                    = Some column ∧ Column.index column = 1%nat)
    as (column & Hcolumn & Hindex) by (vm_compute; eauto).
  assert (∃ c, Row.cell r (pretty 1%nat) = Some c) as [c Hc].
  { revert Hr. vm_compute. intros [= <-]. eauto. }
  exists r, column, c. rewrite Hindex.
  assert (r ∈ Table.allRows (parseContent Fixture.host0 table)) as Hin
    by (by eapply list_elem_of_lookup_2).
  assert (column ∈ Table.columns (parseContent Fixture.host0 table)) as Hin'
    by (by eapply list_elem_of_lookup_2).
  rewrite <- Hindex in Hc.
  split; [done|]. split; [done|]. split; [by rewrite <- Hindex|].
  exact (cell_width_modes Fixture.host0 table r column c Hin Hin' Hc).
Defined.

(** C5 as stated fails on a style with [minCellWidth: 0]: zero is given, and
    the cell gets the default floor of 10 over the scale factor. *)
Lemma cell_width_given_counterexample :
  let table :=
    Fixture.table
      (mkOptions None None None None None None None None None None
         (Some [Positional [Fixture.str "a"]]) None
         (Some {[ "minCellWidth" := VNum 0 ]}) None None None None None None) in
  ∃ c, Fixture.cellAt (Table.body table) 0 "0" = Some c ∧
       Cell.styles c !! "cellWidth" = Some (VStr "auto") ∧
       Cell.styles c !! "minCellWidth" = Some (VNum 0) ∧
       Cell.minWidth c = 10%Q ∧
       ¬ widthModes (autoFloor_given (scaleFactor Fixture.host0)) c.
Proof.
  intros table.
  assert (∃ c, Fixture.cellAt (Table.body table) 0 "0" = Some c ∧
               Cell.styles c !! "cellWidth" = Some (VStr "auto") ∧
               Cell.styles c !! "minCellWidth" = Some (VNum 0) ∧
               Cell.minWidth c = 10%Q) as (c & Hc & Hauto & Hmin & Hwidth)
    by (vm_compute; eauto 10).
  exists c. repeat split; try done.
  intros (_ & _ & Hmode). destruct Hmode as [Hfloor _]; try congruence.
  unfold autoFloor_given in Hfloor. rewrite Hmin, Hwidth in Hfloor.
  discriminate.
Qed.

(** ** Ordered widths *)

Lemma heap_setCell r key a : Row.heap (Row.setCell r key a) = Row.heap r.
Proof. done. Qed.

Lemma heap_alloc r a c : Row.heap (Row.alloc r a c) = <[a := c]> (Row.heap r).
Proof. done. Qed.

Lemma cells_setCell r key a :
  Row.cells (Row.setCell r key a) = <[key := a]> (Row.cells r).
Proof. done. Qed.

Lemma cells_alloc r a c : Row.cells (Row.alloc r a c) = Row.cells r.
Proof. done. Qed.

Lemma Cell_new_minWidth raw st sectionName :
  Cell.minWidth (Cell.new raw st sectionName) = 0%Q.
Proof. done. Qed.

Lemma Cell_new_wrappedWidth raw st sectionName :
  Cell.wrappedWidth (Cell.new raw st sectionName) = 0%Q.
Proof. done. Qed.

Lemma columnStep_heapOrdered defaultStyles theme styles sectionName rawRow
    rowIndex st column :
  heapOrdered (row st) →
  heapOrdered (row (columnStep defaultStyles theme styles sectionName rawRow
                      rowIndex st column)).
Proof.
  intros Hst. unfold columnStep.
  destruct (noRowSpanLeft _ _).
  - destruct (columnSpansLeft st =? 0); [|done].
    cbn [row]. intros a c. rewrite !heap_setCell, heap_alloc.
    destruct (decide (Column.index column = a)) as [->|Hne].
    + rewrite lookup_insert_eq. intros [= <-].
      rewrite Cell_new_minWidth, Cell_new_wrappedWidth. apply Qle_refl.
    + rewrite lookup_insert_ne by done. apply Hst.
  - by destruct (_ !! _).
Qed.

Lemma parseRow_heapOrdered defaultStyles theme styles columns sectionName
    ledger rowIndex rawRow :
  heapOrdered (row (parseRow defaultStyles theme styles columns sectionName
                      ledger rowIndex rawRow)).
Proof.
  unfold parseRow.
  apply (fold_left_invariant (fun st => heapOrdered (row st))).
  - intros st column. apply columnStep_heapOrdered.
  - intros a c. cbn [row Row.new Row.heap]. by rewrite lookup_empty.
Qed.

Lemma cellPass_heapOrdered host hooks columns r :
  heapOrdered r → heapOrdered (cellPass host hooks columns r).
Proof.
  unfold cellPass. apply fold_left_invariant.
  intros r' column Hr' a c [(c0 & -> & _)|[Hc _]]%cellPassStep_heap.
  - apply resolveCellWidths_ordered.
  - by eapply Hr'.
Qed.

(** C6. After the width resolution every cell of every row of the table has
    [minWidth ≤ wrappedWidth], under whichever property of the row it is
    read and whichever width mode applied. *)
Theorem cell_widths_ordered (host : Host) (table : Table) (r : Row)
    (key : string) (c : Cell) :
  r ∈ Table.allRows (parseContent host table) →
  Row.cell r key = Some c →
  (Cell.minWidth c <= Cell.wrappedWidth c)%Q.
Proof.
  intros (sectionName & r0 & Hr0 & ->)%elem_of_parseContent_rows Hc.
  unfold gridOf, parseSection in Hr0.
  apply elem_of_parseRows in Hr0 as (ledger & rowIndex & rawRow & ->).
  unfold Row.cell in Hc.
  destruct (Row.cells _ !! key) as [a|]; [|done]. cbn [mbind option_bind] in Hc.
  pose proof (parseRow_heapOrdered (defaultStyles host)
                (getTheme host (theme (Table.settings table)))
                (Table.styles table) (columnsOf table) sectionName ledger
                rowIndex rawRow) as Hfresh.
  exact (cellPass_heapOrdered host (Table.hooks table) (columnsOf table) _
           Hfresh a c Hc).
Qed.

Lemma cell_widths_ordered_witness :
  let table :=
    newTable Fixture.host0 noOptions noOptions
      (Args1 (Fixture.options None None
                (Some [Positional [Fixture.str "a"; Fixture.str "b"]]) None None)) in
  ∃ r c,
    r ∈ Table.allRows (parseContent Fixture.host0 table) ∧
    Row.cell r "1" = Some c ∧
    (Cell.minWidth c <= Cell.wrappedWidth c)%Q.
Proof.
  intros table.
  assert (∃ r, Table.allRows (parseContent Fixture.host0 table) !! 0%nat = Some r)
    as [r Hr] by (vm_compute; eauto).
  assert (∃ c, Row.cell r "1" = Some c) as [c Hc].
  { revert Hr. vm_compute. intros [= <-]. eauto. }
  assert (r ∈ Table.allRows (parseContent Fixture.host0 table)) as Hin
    by (by eapply list_elem_of_lookup_2).
  exists r, c. split; [done|]. split; [done|].
  exact (cell_widths_ordered Fixture.host0 table r "1" c Hin Hc).
Defined.

(** ** The span ledger *)

Section Spans.

Variable defaultStyles : Styles.
Variable theme : Theme.
Variable styles : StylesProps.
Variable sectionName : Section.

Section OneRow.

Variable rawRow : RowInput.
Variable rowIndex : nat.

Let step := columnStep defaultStyles theme styles sectionName rawRow rowIndex.

(** A column leaves the cells and the ledger entries of the others alone. *)
Lemma columnStep_other st column k :
  Column.index column ≠ k →
  created (row (step st column)) k = created (row st) k ∧
  rowSpansLeftForColumn (step st column) !! k = rowSpansLeftForColumn st !! k.
Proof.
  intros Hne. unfold step, columnStep, created.
  destruct (noRowSpanLeft _ _).
  - destruct (columnSpansLeft st =? 0); [|done].
    cbn [row rowSpansLeftForColumn].
    rewrite !heap_setCell, heap_alloc. by rewrite !lookup_insert_ne.
  - destruct (_ !! Column.index column); [|done].
    cbn [row rowSpansLeftForColumn]. by rewrite lookup_insert_ne.
Qed.

Lemma columns_other st columns k :
  (∀ column, column ∈ columns → Column.index column ≠ k) →
  created (row (fold_left step columns st)) k = created (row st) k ∧
  rowSpansLeftForColumn (fold_left step columns st) !! k =
    rowSpansLeftForColumn st !! k.
Proof.
  revert st. induction columns as [|column columns IH]; intros st Hne; [done|].
  cbn [fold_left].
  destruct (IH (step st column)) as [-> ->].
  { intros c Hc. apply Hne. by right. }
  apply columnStep_other, Hne. by left.
Qed.

(** The three branches of the loop body. *)
Lemma columnStep_covered st column span :
  rowSpansLeftForColumn st !! Column.index column = Some span →
  Span.left span ≠ 0 →
  created (row (step st column)) (Column.index column) =
    created (row st) (Column.index column) ∧
  rowSpansLeftForColumn (step st column) !! Column.index column =
    Some (Span.mk (Span.left span - 1) (Span.times span)) ∧
  columnSpansLeft (step st column) = Span.times span.
Proof.
  intros Hspan Hleft. unfold step, columnStep, noRowSpanLeft. rewrite Hspan.
  destruct (Z.eqb_spec (Span.left span) 0) as [|_]; [done|].
  cbn [row rowSpansLeftForColumn columnSpansLeft].
  by rewrite lookup_insert_eq.
Qed.

Lemma columnStep_consumed st column :
  noRowSpanLeft (rowSpansLeftForColumn st) (Column.index column) = true →
  columnSpansLeft st ≠ 0 →
  row (step st column) = row st ∧
  rowSpansLeftForColumn (step st column) = rowSpansLeftForColumn st ∧
  columnSpansLeft (step st column) = columnSpansLeft st - 1.
Proof.
  intros Hfree Hleft. unfold step, columnStep. rewrite Hfree.
  by destruct (Z.eqb_spec (columnSpansLeft st) 0).
Qed.

Lemma columnStep_anchor st column :
  noRowSpanLeft (rowSpansLeftForColumn st) (Column.index column) = true →
  columnSpansLeft st = 0 →
  ∃ cell,
    created (row (step st column)) (Column.index column) = Some cell ∧
    rowSpansLeftForColumn (step st column) !! Column.index column =
      Some (Span.mk (Cell.rowSpan cell - 1) (Cell.colSpan cell - 1)) ∧
    columnSpansLeft (step st column) = Cell.colSpan cell - 1.
Proof.
  intros Hfree Hleft. unfold step, columnStep, created. rewrite Hfree, Hleft.
  cbn [Z.eqb row rowSpansLeftForColumn columnSpansLeft].
  eexists. rewrite !heap_setCell, heap_alloc, !lookup_insert_eq. done.
Qed.

(** A cell appears at a column only through the third branch. *)
Lemma columnStep_created st column cell :
  created (row st) (Column.index column) = None →
  created (row (step st column)) (Column.index column) = Some cell →
  noRowSpanLeft (rowSpansLeftForColumn st) (Column.index column) = true ∧
  columnSpansLeft st = 0 ∧
  rowSpansLeftForColumn (step st column) !! Column.index column =
    Some (Span.mk (Cell.rowSpan cell - 1) (Cell.colSpan cell - 1)) ∧
  columnSpansLeft (step st column) = Cell.colSpan cell - 1.
Proof.
  intros Hnone Hcell.
  destruct (noRowSpanLeft (rowSpansLeftForColumn st) (Column.index column))
    eqn:Hfree.
  - destruct (Z.eq_dec (columnSpansLeft st) 0) as [Hleft|Hleft].
    + destruct (columnStep_anchor st column Hfree Hleft)
        as (cell' & Hcell' & Hledger & Hspans).
      rewrite Hcell in Hcell'. by injection Hcell' as <-.
    + destruct (columnStep_consumed st column Hfree Hleft) as (Hrow & _ & _).
      rewrite Hrow in Hcell. congruence.
  - unfold noRowSpanLeft in Hfree.
    destruct (rowSpansLeftForColumn st !! Column.index column) as [span|]
      eqn:Hspan; [|done].
    destruct (columnStep_covered st column span Hspan) as (Hrow & _ & _).
    { intros H0. rewrite H0 in Hfree. done. }
    congruence.
Qed.

Lemma indexedFrom_cons n column columns :
  indexedFrom n (column :: columns) →
  Column.index column = n ∧ indexedFrom (S n) columns.
Proof.
  intros H. split.
  - rewrite (H 0%nat column); [lia|done].
  - intros i c Hc. rewrite (H (S i) c); [lia|done].
Qed.

Lemma indexedFrom_ge n columns column :
  indexedFrom n columns → column ∈ columns → (n ≤ Column.index column)%nat.
Proof.
  intros H (i & Hi)%list_elem_of_lookup. rewrite (H i column Hi). lia.
Qed.

(** After an anchor, or under a row span, the columns that [columnSpansLeft]
    counts get no cell, provided no row span is left on them; the column
    after them gets one. *)
Lemma columns_consumed columns : ∀ st n m,
  indexedFrom n columns →
  columnSpansLeft st = m → 0 ≤ m →
  (∀ k : nat, (n ≤ k)%nat → Z.of_nat k < Z.of_nat n + m →
     (k < n + length columns)%nat →
     noRowSpanLeft (rowSpansLeftForColumn st) k = true) →
  (∀ k : nat, (n ≤ k)%nat → Z.of_nat k < Z.of_nat n + m →
     created (row (fold_left step columns st)) k = created (row st) k ∧
     rowSpansLeftForColumn (fold_left step columns st) !! k =
       rowSpansLeftForColumn st !! k) ∧
  (∀ k : nat, Z.of_nat k = Z.of_nat n + m → (k < n + length columns)%nat →
     noRowSpanLeft (rowSpansLeftForColumn st) k = true →
     is_Some (created (row (fold_left step columns st)) k)).
Proof.
  induction columns as [|column columns IH]; intros st n m Hidx Hm Hpos Hfree.
  { split; [done|]. cbn [length]. intros k Hk Hlt. lia. }
  apply indexedFrom_cons in Hidx as [Hn Hidx].
  assert (∀ c, c ∈ columns → Column.index c ≠ n) as Hrest.
  { intros c Hc. pose proof (indexedFrom_ge _ _ _ Hidx Hc). lia. }
  cbn [fold_left length] in *.
  destruct (Z.eq_dec m 0) as [->|Hm0].
  - split; [intros k Hk Hlt; lia|].
    intros k Hk Hlt Hfree0. assert (k = n) as -> by lia.
    destruct (columns_other (step st column) columns n Hrest) as [-> _].
    rewrite <- Hn in Hfree0 |- *.
    destruct (columnStep_anchor st column Hfree0 Hm) as (cell & -> & _).
    by eexists.
  - assert (noRowSpanLeft (rowSpansLeftForColumn st) (Column.index column) = true)
      as Hfree0.
    { rewrite Hn. apply Hfree; lia. }
    destruct (columnStep_consumed st column Hfree0) as (Hrow & Hledger & Hleft).
    { by rewrite Hm. }
    destruct (IH (step st column) (S n) (m - 1) Hidx) as [IH1 IH2].
    { by rewrite Hleft, Hm. } { lia. }
    { intros k Hk Hlt Hlen. rewrite Hledger. apply Hfree; lia. }
    split.
    + intros k Hk Hlt. destruct (decide (k = n)) as [->|Hne].
      * destruct (columns_other (step st column) columns n Hrest) as [-> ->].
        by rewrite Hrow, Hledger.
      * destruct (IH1 k) as [-> ->]; [lia..|]. by rewrite Hrow, Hledger.
    + intros k Hk Hlt Hfreek. apply IH2; [lia..|]. by rewrite Hledger.
Qed.

Lemma noRowSpanLeft_ext (ledger ledger' : Ledger) k :
  ledger !! k = ledger' !! k → noRowSpanLeft ledger k = noRowSpanLeft ledger' k.
Proof. unfold noRowSpanLeft. by intros ->. Qed.

Variable columns : list Column.
Hypothesis columns_indexed : indexedFrom 0 columns.

Variable ledger : Ledger.

Let st0 := mkRowState ledger (Row.new rawRow rowIndex sectionName) 0 0 0.
Let final :=
  parseRow defaultStyles theme styles columns sectionName ledger rowIndex rawRow.

(** The columns before [j] leave the columns from [j] on alone. *)
Lemma prefix_untouched j k :
  (j ≤ k)%nat →
  created (row (fold_left step (take j columns) st0)) k = None ∧
  rowSpansLeftForColumn (fold_left step (take j columns) st0) !! k = ledger !! k.
Proof.
  intros Hk.
  destruct (columns_other st0 (take j columns) k) as [-> ->]; [|done].
  intros c (i & Hi)%list_elem_of_lookup.
  apply lookup_take_Some in Hi as [Hi Hlt].
  rewrite (columns_indexed i c Hi). lia.
Qed.

Lemma suffix_indexed j : indexedFrom (S j) (drop (S j) columns).
Proof.
  intros i c Hc. rewrite lookup_drop in Hc.
  rewrite (columns_indexed _ c Hc). lia.
Qed.

Lemma suffix_untouched j st :
  created (row (fold_left step (drop (S j) columns) st)) j = created (row st) j ∧
  rowSpansLeftForColumn (fold_left step (drop (S j) columns) st) !! j =
    rowSpansLeftForColumn st !! j.
Proof.
  apply columns_other. intros c Hc.
  pose proof (indexedFrom_ge _ _ _ (suffix_indexed j) Hc). lia.
Qed.

Lemma final_split j column :
  columns !! j = Some column →
  final =
  fold_left step (drop (S j) columns)
    (step (fold_left step (take j columns) st0) column).
Proof.
  intros Hj. change final with (fold_left step columns st0).
  rewrite <- (take_drop_middle columns j column Hj) at 1.
  by rewrite fold_left_app.
Qed.

(** No cell without a column. *)
Lemma created_column j cell :
  created (row final) j = Some cell → is_Some (columns !! j).
Proof.
  intros Hcell. destruct (columns !! j) as [column|] eqn:Hj; [by eexists|].
  exfalso.
  change (created (row (fold_left step columns st0)) j = Some cell) in Hcell.
  destruct (columns_other st0 columns j) as [Hnone _].
  - intros c (i & Hi)%list_elem_of_lookup.
    intros Heq. rewrite (columns_indexed i c Hi) in Heq.
    cbn in Heq. subst i. congruence.
  - rewrite Hnone in Hcell.
    unfold created, st0 in Hcell. cbn in Hcell. by rewrite lookup_empty in Hcell.
Qed.

(** The row of an anchor: the cell at column [j] claims the [colSpan - 1]
    columns after it, and the column after those gets its own cell. *)
Lemma row_anchor j cell :
  created (row final) j = Some cell →
  1 ≤ Cell.colSpan cell →
  (∀ k : nat, (j < k)%nat → Z.of_nat k < Z.of_nat j + Cell.colSpan cell →
     (k < length columns)%nat → noRowSpanLeft ledger k = true) →
  (∀ k : nat, (j < k)%nat → Z.of_nat k < Z.of_nat j + Cell.colSpan cell →
     created (row final) k = None ∧
     rowSpansLeftForColumn final !! k = ledger !! k) ∧
  (∀ k : nat, Z.of_nat k = Z.of_nat j + Cell.colSpan cell →
     (k < length columns)%nat → noRowSpanLeft ledger k = true →
     is_Some (created (row final) k)) ∧
  rowSpansLeftForColumn final !! j =
    Some (Span.mk (Cell.rowSpan cell - 1) (Cell.colSpan cell - 1)).
Proof.
  intros Hcell Hspan Hfree.
  destruct (created_column j cell Hcell) as [column Hj].
  pose proof (columns_indexed j column Hj) as Hindex. cbn in Hindex.
  rewrite (final_split j column Hj) in *.
  set (stj := fold_left step (take j columns) st0) in *.
  destruct (suffix_untouched j (step stj column)) as [Hcj Hlj].
  rewrite Hcj in Hcell. rewrite Hlj. clear Hcj Hlj.
  rewrite <- Hindex in Hcell.
  destruct (columnStep_created stj column cell) as (_ & _ & Hledger & Hleft);
    [by rewrite Hindex; apply prefix_untouched|done|].
  rewrite Hindex in Hledger.
  assert (∀ k, (j < k)%nat →
            created (row (step stj column)) k = None ∧
            rowSpansLeftForColumn (step stj column) !! k = ledger !! k) as Hafter.
  { intros k Hk.
    destruct (columnStep_other stj column k) as [-> ->]; [lia|].
    apply prefix_untouched. lia. }
  destruct (columns_consumed (drop (S j) columns) (step stj column) (S j)
              (Cell.colSpan cell - 1) (suffix_indexed j) Hleft) as [H1 H2].
  { lia. }
  { intros k Hk Hlt Hlen. rewrite length_drop in Hlen.
    rewrite (noRowSpanLeft_ext _ ledger); [apply Hfree; lia|].
    apply Hafter. lia. }
  split; [|split; [|done]].
  - intros k Hk Hlt. destruct (H1 k) as [-> ->]; [lia..|]. apply Hafter. lia.
  - intros k Hk Hlen Hfreek. apply H2; [lia| |].
    + rewrite length_drop. lia.
    + rewrite (noRowSpanLeft_ext _ ledger); [done|]. apply Hafter. lia.
Qed.

(** A row under a row span: the column of the anchor and the columns the
    anchor claims get no cell. *)
Lemma row_covered j span :
  is_Some (columns !! j) →
  ledger !! j = Some span →
  Span.left span ≠ 0 → 0 ≤ Span.times span →
  (∀ k : nat, (j < k)%nat → Z.of_nat k ≤ Z.of_nat j + Span.times span →
     (k < length columns)%nat → noRowSpanLeft ledger k = true) →
  (∀ k : nat, (j ≤ k)%nat → Z.of_nat k ≤ Z.of_nat j + Span.times span →
     created (row final) k = None) ∧
  (∀ k : nat, (j < k)%nat → Z.of_nat k ≤ Z.of_nat j + Span.times span →
     rowSpansLeftForColumn final !! k = ledger !! k) ∧
  rowSpansLeftForColumn final !! j =
    Some (Span.mk (Span.left span - 1) (Span.times span)).
Proof.
  intros [column Hj] Hledger Hleft Htimes Hfree.
  pose proof (columns_indexed j column Hj) as Hindex. cbn in Hindex.
  rewrite (final_split j column Hj) in *.
  set (stj := fold_left step (take j columns) st0) in *.
  destruct (suffix_untouched j (step stj column)) as [Hcj Hlj].
  destruct (prefix_untouched j j) as [Hnone Hsame]; [lia|]. fold stj in Hnone, Hsame.
  destruct (columnStep_covered stj column span) as (Hcell & Hledger' & Hspans);
    [by rewrite Hindex, Hsame|done|].
  rewrite Hindex in Hcell, Hledger'.
  assert (∀ k, (j < k)%nat →
            created (row (step stj column)) k = None ∧
            rowSpansLeftForColumn (step stj column) !! k = ledger !! k) as Hafter.
  { intros k Hk.
    destruct (columnStep_other stj column k) as [-> ->]; [lia|].
    apply prefix_untouched. lia. }
  destruct (columns_consumed (drop (S j) columns) (step stj column) (S j)
              (Span.times span) (suffix_indexed j) Hspans) as [H1 _].
  { lia. }
  { intros k Hk Hlt Hlen. rewrite length_drop in Hlen.
    rewrite (noRowSpanLeft_ext _ ledger); [apply Hfree; lia|].
    apply Hafter. lia. }
  split; [|split].
  - intros k Hk Hle. destruct (decide (k = j)) as [->|Hne].
    + by rewrite Hcj, Hcell, Hnone.
    + destruct (H1 k) as [-> _]; [lia..|]. apply Hafter. lia.
  - intros k Hk Hle. destruct (H1 k) as [_ ->]; [lia..|]. apply Hafter. lia.
  - by rewrite Hlj.
Qed.

End OneRow.

(** ** Span conservation over the rows of a section *)

Variable columns : list Column.
Hypothesis columns_indexed : indexedFrom 0 columns.

Let parseRow' := parseRow defaultStyles theme styles columns sectionName.
Let parseRows' := parseRows defaultStyles theme styles columns sectionName.
Let ledgerAfter' := ledgerAfter defaultStyles theme styles columns sectionName.

Lemma ledgerAfter_app ledger rowIndex rows1 rows2 :
  ledgerAfter' ledger rowIndex (rows1 ++ rows2) =
  ledgerAfter' (ledgerAfter' ledger rowIndex rows1)
    (rowIndex + length rows1) rows2.
Proof.
  revert ledger rowIndex. induction rows1 as [|rawRow rows1 IH];
    intros ledger rowIndex; cbn [app length].
  - by rewrite Nat.add_0_r.
  - unfold ledgerAfter'. cbn [ledgerAfter]. fold ledgerAfter'.
    rewrite IH. f_equal. lia.
Qed.

Lemma ledgerAfter_next ledger rowIndex sectionRows i rawRow :
  sectionRows !! i = Some rawRow →
  ledgerAfter' ledger rowIndex (take (S i) sectionRows) =
  rowSpansLeftForColumn
    (parseRow' (ledgerAfter' ledger rowIndex (take i sectionRows))
       (rowIndex + i) rawRow).
Proof.
  intros Hi. rewrite (take_S_r _ _ _ Hi), ledgerAfter_app.
  rewrite length_take_le; [done|].
  apply lookup_lt_Some in Hi. lia.
Qed.

Lemma parseRows_lookup ledger rowIndex sectionRows i rawRow :
  sectionRows !! i = Some rawRow →
  parseRows' ledger rowIndex sectionRows !! i =
  Some (row (parseRow' (ledgerAfter' ledger rowIndex (take i sectionRows))
               (rowIndex + i) rawRow)).
Proof.
  revert ledger rowIndex i.
  induction sectionRows as [|r sectionRows IH]; intros ledger rowIndex i;
    [done|].
  destruct i as [|i]; cbn [lookup list_lookup take].
  - intros [= ->]. unfold parseRows'. cbn [parseRows].
    by rewrite Nat.add_0_r.
  - intros Hi. unfold parseRows'. cbn [parseRows]. fold parseRows'.
    cbn [lookup list_lookup]. rewrite (IH _ _ _ Hi).
    unfold ledgerAfter'. cbn [ledgerAfter].
    by replace (S rowIndex + i)%nat with (rowIndex + S i)%nat by lia.
Qed.

Lemma parseRows_lookup_inv ledger rowIndex sectionRows i r :
  parseRows' ledger rowIndex sectionRows !! i = Some r →
  ∃ rawRow, sectionRows !! i = Some rawRow ∧
    r = row (parseRow' (ledgerAfter' ledger rowIndex (take i sectionRows))
               (rowIndex + i) rawRow).
Proof.
  intros Hr. destruct (sectionRows !! i) as [rawRow|] eqn:Hi.
  - rewrite (parseRows_lookup _ _ _ _ _ Hi) in Hr. injection Hr as <-. eauto.
  - exfalso. apply lookup_ge_None in Hi.
    assert (length (parseRows' ledger rowIndex sectionRows) = length sectionRows)
      as Hlen.
    { clear. revert ledger rowIndex.
      induction sectionRows as [|x l IH]; intros ledger rowIndex; [done|].
      unfold parseRows'. cbn [parseRows length]. fold parseRows'.
      by rewrite IH. }
    apply lookup_lt_Some in Hr. lia.
Qed.

(** Below an anchor at row [i], column [j]: the ledger keeps the claim of
    the anchor for [rowSpan - 1] rows, and leaves the claimed columns as they
    were. *)
Lemma ledger_under_anchor ledger rowIndex sectionRows i rawRow j cell :
  sectionRows !! i = Some rawRow →
  created (row (parseRow' (ledgerAfter' ledger rowIndex (take i sectionRows))
                  (rowIndex + i) rawRow)) j = Some cell →
  1 ≤ Cell.colSpan cell →
  (∀ k : nat, (j < k)%nat → Z.of_nat k < Z.of_nat j + Cell.colSpan cell →
     (k < length columns)%nat →
     noRowSpanLeft (ledgerAfter' ledger rowIndex (take i sectionRows)) k = true) →
  ∀ d : nat,
    Z.of_nat d ≤ Cell.rowSpan cell - 1 →
    (i + d < length sectionRows)%nat →
    ledgerAfter' ledger rowIndex (take (S (i + d)) sectionRows) !! j =
      Some (Span.mk (Cell.rowSpan cell - 1 - Z.of_nat d) (Cell.colSpan cell - 1)) ∧
    ∀ k : nat, (j < k)%nat → Z.of_nat k < Z.of_nat j + Cell.colSpan cell →
      ledgerAfter' ledger rowIndex (take (S (i + d)) sectionRows) !! k =
      ledgerAfter' ledger rowIndex (take i sectionRows) !! k.
Proof.
  intros Hi Hcell Hspan Hfree.
  destruct (row_anchor rawRow (rowIndex + i) columns columns_indexed _ j cell
              Hcell Hspan Hfree) as (Hrow & _ & Hledger).
  induction d as [|d IH]; intros Hd Hlen.
  - rewrite Nat.add_0_r, (ledgerAfter_next _ _ _ _ _ Hi), Z.sub_0_r.
    split; [done|]. intros k Hk Hlt. by apply Hrow.
  - destruct IH as [IHj IHk]; [lia..|].
    destruct (lookup_lt_is_Some_2 sectionRows (S (i + d))) as [r Hr]; [lia|].
    replace (i + S d)%nat with (S (i + d)) by lia.
    rewrite (ledgerAfter_next _ _ _ _ _ Hr).
    destruct (row_covered r (rowIndex + S (i + d)) columns columns_indexed
                (ledgerAfter' ledger rowIndex (take (S (i + d)) sectionRows)) j
                _ (created_column _ _ _ columns_indexed _ _ _ Hcell) IHj)
      as (_ & Hk' & Hj').
    { cbn [Span.left]. lia. }
    { cbn [Span.times]. lia. }
    { cbn [Span.times]. intros k Hk Hle Hlen'.
      rewrite (noRowSpanLeft_ext _ (ledgerAfter' ledger rowIndex (take i sectionRows)));
        [apply Hfree; lia|].
      apply IHk; lia. }
    cbn [Span.left Span.times] in *. unfold parseRow'. split.
    + rewrite Hj'. do 2 f_equal. lia.
    + intros k Hk Hlt. rewrite Hk' by lia. apply IHk; lia.
Qed.

(** C3 (as amended). In a section, let a cell with [rowSpan ≥ 1] and
    [colSpan = c ≥ 1] be created at row [i] for column [j], and let no row
    span from the rows above be left, when row [i] is built, on the columns
    [j+1 .. j+c-1]. Then row [i] gets no cell of its own for the columns
    [j+1 .. j+c-1]; the column [j+c], if it exists and no row span from above
    is left on it, gets its own cell in row [i]; and the rows
    [i+1 .. i+rowSpan-1] get no cell for the columns [j .. j+c-1]. *)
Theorem span_conservation (sectionRows : list RowInput) (i j : nat) (r : Row)
    (cell : Cell) :
  parseSection defaultStyles theme styles columns sectionName sectionRows !! i
    = Some r →
  created r j = Some cell →
  1 ≤ Cell.rowSpan cell →
  1 ≤ Cell.colSpan cell →
  (∀ k : nat, (j < k)%nat → Z.of_nat k < Z.of_nat j + Cell.colSpan cell →
     (k < length columns)%nat →
     noRowSpanLeft
       (ledgerAfter defaultStyles theme styles columns sectionName ∅ 0
          (take i sectionRows)) k = true) →
  (∀ k : nat, (j < k)%nat → Z.of_nat k < Z.of_nat j + Cell.colSpan cell →
     created r k = None) ∧
  (∀ k : nat, Z.of_nat k = Z.of_nat j + Cell.colSpan cell →
     (k < length columns)%nat →
     noRowSpanLeft
       (ledgerAfter defaultStyles theme styles columns sectionName ∅ 0
          (take i sectionRows)) k = true →
     is_Some (created r k)) ∧
  (∀ (i' : nat) (r' : Row),
     (i < i')%nat → Z.of_nat i' < Z.of_nat i + Cell.rowSpan cell →
     parseSection defaultStyles theme styles columns sectionName sectionRows !! i'
       = Some r' →
     ∀ k : nat, (j ≤ k)%nat → Z.of_nat k < Z.of_nat j + Cell.colSpan cell →
       created r' k = None).
Proof.
  unfold parseSection. fold parseRows' ledgerAfter'.
  intros (rawRow & Hi & ->)%parseRows_lookup_inv Hcell Hrows Hcols Hfree.
  cbn [Nat.add] in Hcell.
  destruct (row_anchor rawRow i columns columns_indexed _ j cell
              Hcell Hcols Hfree) as (Hrow & Hnext & _).
  split; [|split].
  - intros k Hk Hlt. by apply Hrow.
  - done.
  - intros i' r' Hlt Hle (rawRow' & Hi' & ->)%parseRows_lookup_inv k Hk Hkc.
    cbn [Nat.add].
    destruct (ledger_under_anchor ∅ 0%nat sectionRows i rawRow j cell Hi Hcell
                Hcols Hfree (i' - i - 1)%nat) as [Hj Hfree'].
    { lia. }
    { apply lookup_lt_Some in Hi'. lia. }
    replace (S (i + (i' - i - 1)))%nat with i' in * by lia.
    destruct (row_covered rawRow' i' columns columns_indexed
                (ledgerAfter' ∅ 0%nat (take i' sectionRows)) j _
                (created_column _ _ _ columns_indexed _ _ _ Hcell) Hj)
      as (Hnone & _ & _).
    { cbn [Span.left]. lia. }
    { cbn [Span.times]. lia. }
    { cbn [Span.times]. intros k' Hk' Hle' Hlen.
      rewrite (noRowSpanLeft_ext _ (ledgerAfter' ∅ 0%nat (take i sectionRows)));
        [apply Hfree; lia|].
      apply Hfree'; lia. }
    apply Hnone; [done|]. cbn [Span.times]. lia.
Qed.

End Spans.

Lemma getTableColumns_indexed (settings : Content) :
  indexedFrom 0 (getTableColumns settings).
Proof.
  intros i column. destruct (columns settings) as [cols|] eqn:Hcols.
  - unfold getTableColumns. rewrite Hcols, list_lookup_imap.
    destruct (cols !! i); [|done]. by intros [= <-].
  - rewrite (inferred_columns settings Hcols).
    destruct (default _ _); rewrite numberedFrom_lookup;
      (destruct (_ !! i); [|done]); by intros [= <-].
Qed.

Lemma span_conservation_witness :
  let sectionRows :=
    [ Positional [Fixture.spanning "Q" (Some 2) (Some 2); Fixture.str "b"];
      Positional [Fixture.str "c"] ] in
  let columns := getTableColumns (Build_Content None [] sectionRows []) in
  let rows :=
    parseSection (defaultStyles Fixture.host0) Fixture.theme0
      (StylesProps.mk ∅ ∅ ∅ ∅ ∅ ∅) columns body sectionRows in
  ∃ r r' cell,
    rows !! 0%nat = Some r ∧ rows !! 1%nat = Some r' ∧
    created r 0 = Some cell ∧
    Cell.rowSpan cell = 2 ∧ Cell.colSpan cell = 2 ∧
    created r 1 = None ∧ is_Some (created r 2) ∧
    created r' 0 = None ∧ created r' 1 = None.
Proof.
  intros sectionRows columns rows.
  assert (∃ r r', rows !! 0%nat = Some r ∧ rows !! 1%nat = Some r')
    as (r & r' & Hr & Hr') by (vm_compute; eauto).
  assert (∃ cell, created r 0 = Some cell ∧
                  Cell.rowSpan cell = 2 ∧ Cell.colSpan cell = 2)
    as (cell & Hcell & Hrows & Hcols).
  { revert Hr. vm_compute. intros [= <-]. eauto. }
  assert (∀ k : nat, (0 < k)%nat → Z.of_nat k < Z.of_nat 0 + Cell.colSpan cell →
            (k < length columns)%nat →
            noRowSpanLeft
              (ledgerAfter (defaultStyles Fixture.host0) Fixture.theme0
                 (StylesProps.mk ∅ ∅ ∅ ∅ ∅ ∅) columns body ∅ 0
                 (take 0 sectionRows)) k = true) as Hfree.
  { intros k _ _ _. reflexivity. }
  destruct (span_conservation (defaultStyles Fixture.host0) Fixture.theme0
              (StylesProps.mk ∅ ∅ ∅ ∅ ∅ ∅) body columns
              (getTableColumns_indexed _) sectionRows 0 0 r cell Hr Hcell
              ltac:(lia) ltac:(lia) Hfree) as (Hrow & Hnext & Hbelow).
  exists r, r', cell. repeat split; try done.
  - apply Hrow; lia.
  - apply Hnext; [lia| |reflexivity]. vm_compute. lia.
  - apply (Hbelow 1%nat r'); [lia|lia|done|lia|lia].
  - apply (Hbelow 1%nat r'); [lia|lia|done|lia|lia].
Defined.

(** C3 as stated fails on a well-formed section: in
    [[a, {content: b, rowSpan: 2}], [c]] the cell [c] sits at row 1, column 0
    with [rowSpan = colSpan = 1]; the column after it exists and gets no cell
    in row 1, because the row span of [b] covers it. *)
Lemma span_next_column_counterexample :
  let sectionRows :=
    [ Positional [Fixture.str "a"; Fixture.spanning "b" None (Some 2)];
      Positional [Fixture.str "c"] ] in
  let columns := getTableColumns (Build_Content None [] sectionRows []) in
  let rows :=
    parseSection (defaultStyles Fixture.host0) Fixture.theme0
      (StylesProps.mk ∅ ∅ ∅ ∅ ∅ ∅) columns body sectionRows in
  ∃ r cell,
    rows !! 1%nat = Some r ∧ created r 0 = Some cell ∧
    Cell.rowSpan cell = 1 ∧ Cell.colSpan cell = 1 ∧
    (0 + 1 < length columns)%nat ∧
    created r (0 + 1) = None.
Proof. vm_compute. eexists _, _. repeat split. lia. Qed.

(** ** Rows without a value for a column *)

Lemma obj_get_None {A : Type} (o : list (string * A)) (key : string) :
  key ∉ o.*1 → obj_get o key = None.
Proof.
  induction o as [|[k v] o IH]; [done|]. cbn [fmap list_fmap fst obj_get].
  intros Hnot. apply not_elem_of_cons in Hnot as [Hne Hnot].
  destruct (String.eqb_spec k key) as [->|_]; [done|]. by apply IH.
Qed.

Lemma obj_get_elem {A : Type} (o : list (string * A)) (key : string) (v : A) :
  obj_get o key = Some v → v ∈ o.*2.
Proof.
  induction o as [|[k v'] o IH]; [done|]. cbn [fmap list_fmap snd obj_get].
  destruct (String.eqb k key).
  - intros [= ->]. by left.
  - intros H. right. by apply IH.
Qed.

Lemma missingIn_rawCellOf rawRow column :
  missingIn rawRow column → rawCellOf rawRow column = None.
Proof.
  destruct rawRow as [cells|props]; cbn [missingIn rawCellOf].
  - apply lookup_ge_None_2.
  - apply obj_get_None.
Qed.

Lemma spanFree_rawCellOf rawRow column c :
  spanFree rawRow → rawCellOf rawRow column = Some c → noSpans c.
Proof.
  destruct rawRow as [cells|props]; cbn [spanFree rawCellOf];
    rewrite Forall_forall; intros Hall Hc; apply Hall.
  - by eapply list_elem_of_lookup_2.
  - by eapply obj_get_elem.
Qed.

Lemma arr_get_nat {A : Type} (a : list A) (i : nat) :
  arr_get a (Z.of_nat i - 0 - 0) = a !! i.
Proof.
  unfold arr_get. rewrite !Z.sub_0_r.
  destruct (Z.ltb_spec (Z.of_nat i) 0); [lia|]. by rewrite Nat2Z.id.
Qed.

Lemma Cell_new_spans raw st sectionName :
  (∀ c, raw = Some c → noSpans c) →
  Cell.colSpan (Cell.new raw st sectionName) = 1 ∧
  Cell.rowSpan (Cell.new raw st sectionName) = 1.
Proof.
  intros Hraw. cbn [Cell.new Cell.colSpan Cell.rowSpan].
  destruct raw as [c|]; [|done]. by destruct (Hraw c eq_refl).
Qed.

Section NoSpans.

Variable defaultStyles : Styles.
Variable theme : Theme.
Variable styles : StylesProps.
Variable sectionName : Section.
Variable columns : list Column.
Hypothesis columns_indexed : indexedFrom 0 columns.

Lemma columnStep_noSpans rawRow rowIndex st column :
  spanFree rawRow → noSpanPending st →
  noSpanPending
    (columnStep defaultStyles theme styles sectionName rawRow rowIndex st column) ∧
  created
    (row (columnStep defaultStyles theme styles sectionName rawRow rowIndex st
            column)) (Column.index column) =
  Some (Cell.new (rawCellOf rawRow column)
          (cellStyles defaultStyles theme styles sectionName column rowIndex)
          sectionName).
Proof.
  intros Hfree (Hleft & Hadded & Hskipped & Hledger).
  unfold columnStep, created. rewrite Hledger, Hleft, Hadded, Hskipped.
  cbn [Z.eqb row rowSpansLeftForColumn columnSpansLeft colSpansAdded
       skippedRowForRowSpans].
  assert (match rawRow with
          | Positional cells => arr_get cells (Z.of_nat (Column.index column) - 0 - 0)
          | Keyed props => obj_get props (propKey (Column.dataKey column))
          end = rawCellOf rawRow column) as ->.
  { destruct rawRow; [apply arr_get_nat|done]. }
  destruct (Cell_new_spans (rawCellOf rawRow column)
              (cellStyles defaultStyles theme styles sectionName column rowIndex)
              sectionName) as [Hcol Hrow].
  { intros c Hc. by eapply spanFree_rawCellOf. }
  rewrite !heap_setCell, heap_alloc, lookup_insert_eq. split; [|done].
  rewrite Hcol, Hrow. repeat split; try done.
  intros k. cbn [rowSpansLeftForColumn]. unfold noRowSpanLeft.
  destruct (decide (Column.index column = k)) as [->|Hne].
  - by rewrite lookup_insert_eq.
  - rewrite lookup_insert_ne by done. apply Hledger.
Qed.

Lemma parseRow_noSpans ledger rowIndex rawRow :
  (∀ k, noRowSpanLeft ledger k = true) → spanFree rawRow →
  noSpanPending
    (parseRow defaultStyles theme styles columns sectionName ledger rowIndex rawRow) ∧
  ∀ j column, columns !! j = Some column →
    created
      (row (parseRow defaultStyles theme styles columns sectionName ledger
              rowIndex rawRow)) j =
    Some (Cell.new (rawCellOf rawRow column)
            (cellStyles defaultStyles theme styles sectionName column rowIndex)
            sectionName).
Proof.
  intros Hledger Hfree.
  assert (∀ cols, noSpanPending
            (fold_left
               (columnStep defaultStyles theme styles sectionName rawRow rowIndex)
               cols
               (mkRowState ledger (Row.new rawRow rowIndex sectionName) 0 0 0)))
    as Hpending.
  { intros cols. apply (fold_left_invariant noSpanPending).
    - intros st column Hst. by apply columnStep_noSpans.
    - by repeat split. }
  split; [apply Hpending|].
  intros j column Hj.
  rewrite (final_split defaultStyles theme styles sectionName rawRow rowIndex
             columns ledger j column Hj).
  destruct (suffix_untouched defaultStyles theme styles sectionName rawRow
              rowIndex columns columns_indexed j
              (columnStep defaultStyles theme styles sectionName rawRow rowIndex
                 (fold_left
                    (columnStep defaultStyles theme styles sectionName rawRow
                       rowIndex) (take j columns)
                    (mkRowState ledger (Row.new rawRow rowIndex sectionName) 0 0 0))
                 column)) as [-> _].
  pose proof (columns_indexed j column Hj) as Hindex. cbn in Hindex.
  subst j. by apply columnStep_noSpans.
Qed.

Lemma ledgerAfter_noSpans ledger rowIndex sectionRows :
  Forall spanFree sectionRows →
  (∀ k, noRowSpanLeft ledger k = true) →
  ∀ k, noRowSpanLeft
         (ledgerAfter defaultStyles theme styles columns sectionName ledger
            rowIndex sectionRows) k = true.
Proof.
  intros Hrows. revert ledger rowIndex.
  induction Hrows as [|rawRow rest Hfree _ IH]; intros ledger rowIndex Hledger;
    [done|].
  cbn [ledgerAfter]. apply IH.
  by destruct (parseRow_noSpans ledger rowIndex rawRow Hledger Hfree)
    as [(_ & _ & _ & H) _].
Qed.

(** Without spans, every row gets a cell for every column, made from the
    value the row has for the column, or from [undefined]. *)
Lemma parseSection_noSpans sectionRows i rawRow r j column :
  Forall spanFree sectionRows →
  sectionRows !! i = Some rawRow →
  parseSection defaultStyles theme styles columns sectionName sectionRows !! i
    = Some r →
  columns !! j = Some column →
  created r j =
  Some (Cell.new (rawCellOf rawRow column)
          (cellStyles defaultStyles theme styles sectionName column i)
          sectionName).
Proof.
  intros Hrows Hi Hr Hj. unfold parseSection in Hr.
  rewrite (parseRows_lookup defaultStyles theme styles sectionName columns
             ∅ 0%nat sectionRows i rawRow Hi) in Hr.
  injection Hr as <-. cbn [Nat.add].
  apply parseRow_noSpans; [|by eapply Forall_lookup_1|done].
  apply ledgerAfter_noSpans.
  - apply Forall_take, Hrows.
  - intros k. unfold noRowSpanLeft. by rewrite lookup_empty.
Qed.

End NoSpans.

Lemma aggregateStep_single styles r column c :
  Row.cell r (pretty (Column.index column)) = Some c →
  Cell.colSpan c = 1 →
  aggregateStep styles r column =
  Column.set_minReadableWidth
    (Math_max (Column.minReadableWidth column) (Cell.minReadableWidth c))
    (Column.set_minWidth
       (Math_max (Column.minWidth column) (Cell.minWidth c))
       (Column.set_wrappedWidth
          (Math_max (Column.wrappedWidth column) (Cell.wrappedWidth c)) column)).
Proof.
  intros Hc Hspan. unfold aggregateStep. rewrite Hc, Hspan. done.
Qed.

(** C2 (as amended). In a section whose cell values declare no spans, a row
    that is shorter than the column list at a column, or lacks the column's
    key, still gets a cell for that column: the cell has an undefined raw
    value, one empty line of text and spans of 1. The width aggregation does
    not skip a cell for its raw value: every cell with [colSpan] 1 that a row
    holds under the column's index raises the column's three widths to its
    own where they are larger. *)
Theorem missing_cell_created (defaultStyles : Styles) (theme : Theme)
    (styles : StylesProps) (sectionName : Section) (columns : list Column)
    (sectionRows : list RowInput) (i j : nat) (rawRow : RowInput) (r : Row)
    (column : Column) :
  indexedFrom 0 columns →
  Forall spanFree sectionRows →
  sectionRows !! i = Some rawRow →
  parseSection defaultStyles theme styles columns sectionName sectionRows !! i
    = Some r →
  columns !! j = Some column →
  missingIn rawRow column →
  (∃ cell, created r j = Some cell ∧
           Cell.raw cell = None ∧ Cell.text cell = Cell.Lines [EmptyString] ∧
           Cell.colSpan cell = 1 ∧ Cell.rowSpan cell = 1) ∧
  (∀ (r' : Row) (c : Cell),
     Row.cell r' (pretty (Column.index column)) = Some c →
     Cell.colSpan c = 1 →
     Column.wrappedWidth (aggregateStep styles r' column) =
       Math_max (Column.wrappedWidth column) (Cell.wrappedWidth c) ∧
     Column.minWidth (aggregateStep styles r' column) =
       Math_max (Column.minWidth column) (Cell.minWidth c) ∧
     Column.minReadableWidth (aggregateStep styles r' column) =
       Math_max (Column.minReadableWidth column) (Cell.minReadableWidth c)).
Proof.
  intros Hcolumns Hrows Hi Hr Hj Hmissing. split.
  - rewrite (parseSection_noSpans defaultStyles theme styles sectionName columns
               Hcolumns sectionRows i rawRow r j column Hrows Hi Hr Hj).
    rewrite (missingIn_rawCellOf rawRow column Hmissing).
    eexists. split; [done|]. repeat split.
  - intros r' c Hc Hspan.
    by rewrite (aggregateStep_single styles r' column c Hc Hspan).
Qed.

Lemma missing_cell_created_witness :
  let sectionRows :=
    [ Positional [Fixture.str "a"; Fixture.str "b"];
      Positional [Fixture.str "c"] ] in
  let columns := getTableColumns (Build_Content None [] sectionRows []) in
  ∃ r column cell,
    parseSection (defaultStyles Fixture.host0) Fixture.theme0
      (StylesProps.mk ∅ ∅ ∅ ∅ ∅ ∅) columns body sectionRows !! 1%nat = Some r ∧
    columns !! 1%nat = Some column ∧
    missingIn (Positional [Fixture.str "c"]) column ∧
    created r 1 = Some cell ∧ Cell.raw cell = None.
Proof.
  intros sectionRows columns.
  assert (∃ r, parseSection (defaultStyles Fixture.host0) Fixture.theme0
                 (StylesProps.mk ∅ ∅ ∅ ∅ ∅ ∅) columns body sectionRows !! 1%nat
               = Some r) as [r Hr] by (vm_compute; eauto).
  assert (∃ column, columns !! 1%nat = Some column ∧ Column.index column = 1%nat)
    as (column & Hcolumn & Hindex) by (vm_compute; eauto).
  assert (missingIn (Positional [Fixture.str "c"]) column) as Hmissing.
  { cbn [missingIn length]. rewrite Hindex. lia. }
  assert (Forall spanFree sectionRows) as Hrows.
  { repeat constructor. }
  destruct (missing_cell_created (defaultStyles Fixture.host0) Fixture.theme0
              (StylesProps.mk ∅ ∅ ∅ ∅ ∅ ∅) body columns sectionRows 1 1
              (Positional [Fixture.str "c"]) r column
              (getTableColumns_indexed _) Hrows eq_refl Hr Hcolumn Hmissing)
    as [(cell & Hcell & Hraw & _) _].
  exists r, column, cell. by repeat split.
Defined.

(** C2 as stated fails on [[a, b], [c]]: the second row is shorter than the
    column list, a cell is created for the second column all the same, and
    the aggregation step of that row raises the widths of a new column. *)
Lemma missing_cell_counterexample :
  let shortRow := Positional [Fixture.str "c"] in
  let table :=
    Fixture.table
      (Fixture.options None None
         (Some [Positional [Fixture.str "a"; Fixture.str "b"]; shortRow])
         None None) in
  let column := Column.new (KNum 1) (ColScalar (KNum 1)) 1 in
  Column.index <$> Table.columns table = [0; 1]%nat ∧
  Row.raw <$> Table.body table !! 1%nat = Some shortRow ∧
  missingIn shortRow column ∧
  Cell.raw <$> (Table.body table !! 1%nat ≫= fun r => created r 1) = Some None ∧
  (fun r => Column.minWidth (aggregateStep (Table.styles table) r column))
    <$> Table.body table !! 1%nat = Some 10%Q ∧
  Column.minWidth column = 0%Q.
Proof.
  intros shortRow table column.
  split; [vm_compute; reflexivity|].
  split; [vm_compute; reflexivity|].
  split; [cbn; lia|].
  split; [vm_compute; reflexivity|].
  split; [vm_compute; reflexivity|reflexivity].
Qed.

(** ** Generated head and foot rows *)

Lemma obj_get_obj_set {A : Type} (o : list (string * A)) (k k' : string) (v : A) :
  obj_get (obj_set o k v) k' = if decide (k = k') then Some v else obj_get o k'.
Proof.
  induction o as [|[k0 v0] o IH]; cbn [obj_set obj_get].
  - destruct (String.eqb_spec k k'); by case_decide.
  - destruct (String.eqb_spec k0 k) as [->|Hne]; cbn [obj_get].
    + destruct (String.eqb_spec k k'); by case_decide.
    + destruct (String.eqb_spec k0 k') as [->|Hne'].
      * by rewrite decide_False by done.
      * apply IH.
Qed.

Lemma generateSectionRow_object columns sectionName :
  generateSectionRowFromColumnData columns sectionName =
  if decide (0 < length (obj_keys (generatedObject sectionName columns [])))%nat
  then Some (Keyed (generatedObject sectionName columns []))
  else None.
Proof.
  unfold generateSectionRowFromColumnData, generatedObject.
  assert (∀ start,
    fold_left
      (fun sectionRow col =>
         let columnData := Column.raw col in
         match sectionName with
         | head =>
             let val :=
               match columnData_header columnData with
               | Some h => if cell_truthy h then h else columnData_asCell columnData
               | None => columnData_asCell columnData
               end in
             if cell_truthy val
             then obj_set sectionRow (propKey (Column.dataKey col)) val
             else sectionRow
         | foot =>
             match columnData_footer columnData with
             | Some f =>
                 if cell_truthy f
                 then obj_set sectionRow (propKey (Column.dataKey col)) f
                 else sectionRow
             | None => sectionRow
             end
         | body => sectionRow
         end) columns start =
    fold_left
      (fun sectionRow column =>
         match generatedValue sectionName column with
         | Some val => obj_set sectionRow (propKey (Column.dataKey column)) val
         | None => sectionRow
         end) columns start) as ->; [|done].
  induction columns as [|column columns IH]; intros start; [done|].
  cbn [fold_left]. rewrite IH. f_equal.
  unfold generatedValue, truthy. destruct sectionName; cbn zeta.
  - destruct (columnData_header (Column.raw column)) as [h|].
    + destruct (cell_truthy h) eqn:Hh; [by rewrite Hh|].
      by destruct (cell_truthy (columnData_asCell _)).
    + by destruct (cell_truthy (columnData_asCell _)).
  - done.
  - destruct (columnData_footer (Column.raw column)) as [f|]; [|done].
    by destruct (cell_truthy f).
Qed.

Lemma generatedObject_get sectionName columns start key :
  obj_get (generatedObject sectionName columns start) key =
  match lastProvided sectionName columns key with
  | Some v => Some v
  | None => obj_get start key
  end.
Proof.
  unfold generatedObject. revert start.
  induction columns as [|column columns IH]; intros start; [done|].
  cbn [fold_left foldr lastProvided]. rewrite IH.
  fold (lastProvided sectionName columns key).
  destruct (lastProvided sectionName columns key) as [v|]; [done|].
  destruct (generatedValue sectionName column) as [val|].
  - rewrite obj_get_obj_set. by case_decide.
  - by case_decide.
Qed.

Lemma obj_set_not_nil {A : Type} (o : list (string * A)) (k : string) (v : A) :
  obj_set o k v ≠ [].
Proof. destruct o as [|[k0 v0] o]; cbn [obj_set]; [done|]. by case_match. Qed.

Lemma generatedObject_not_nil sectionName columns start :
  generatedObject sectionName columns start ≠ [] ↔
  start ≠ [] ∨
  ∃ column, column ∈ columns ∧ is_Some (generatedValue sectionName column).
Proof.
  unfold generatedObject. revert start.
  induction columns as [|column columns IH]; intros start; cbn [fold_left].
  - split; [by left|]. intros [?|(c & Hc%elem_of_nil & _)]; done.
  - rewrite IH. destruct (generatedValue sectionName column) as [val|] eqn:Hval.
    + split; intros _.
      * right. exists column. rewrite Hval. split; [by left|by eexists].
      * left. apply obj_set_not_nil.
    + split; (intros [?|(c & Hc & Hsome)]; [by left|right]).
      * exists c. split; [by right|done].
      * apply elem_of_cons in Hc as [->|Hc]; [|by eauto].
        rewrite Hval in Hsome. by destruct Hsome.
Qed.

Lemma obj_keys_length {A : Type} (o : list (string * A)) :
  (0 < length (obj_keys o))%nat ↔ o ≠ [].
Proof.
  unfold obj_keys. destruct o as [|[k v] o]; [cbn; split; [lia|done]|].
  split; [done|]. intros _.
  assert (k ∈ remove_dups (((k, v) :: o).*1)) as Hin.
  { apply elem_of_remove_dups. by left. }
  destruct (remove_dups _); [by apply elem_of_nil in Hin|cbn; lia].
Qed.

Lemma generateSectionRow_Some columns sectionName :
  is_Some (generateSectionRowFromColumnData columns sectionName) ↔
  ∃ column, column ∈ columns ∧ is_Some (generatedValue sectionName column).
Proof.
  rewrite generateSectionRow_object.
  assert (generatedObject sectionName columns [] ≠ [] ↔
          ∃ column, column ∈ columns ∧ is_Some (generatedValue sectionName column))
    as <-.
  { rewrite generatedObject_not_nil. split; [|by right]. by intros [?|?]. }
  rewrite <- obj_keys_length. case_decide; split; done.
Qed.

Lemma sectionRowsOf_generated settings tableColumns sectionName :
  settings_section settings sectionName = [] →
  is_Some (columns settings) →
  sectionName ≠ body →
  sectionRowsOf settings tableColumns sectionName =
  match generateSectionRowFromColumnData tableColumns sectionName with
  | Some sectionRow => [sectionRow]
  | None => []
  end.
Proof.
  intros Hnil Hcols Hsec. unfold sectionRowsOf. rewrite Hnil.
  rewrite decide_True by done. by destruct (generateSectionRowFromColumnData _ _).
Qed.

Lemma sectionRowsOf_explicit settings tableColumns sectionName :
  ¬ (settings_section settings sectionName = [] ∧ is_Some (columns settings)
     ∧ sectionName ≠ body) →
  sectionRowsOf settings tableColumns sectionName =
  settings_section settings sectionName.
Proof.
  intros Hnot. unfold sectionRowsOf. rewrite decide_False; [done|].
  intros (Hlen & Hcols & Hsec). apply Hnot. split; [|done].
  by destruct (settings_section settings sectionName).
Qed.

(** C7 (as amended). A head or foot row is generated from the columns exactly
    when the section has no explicit row, a [columns] list is given and at
    least one column provides a value for the section: for the head its
    [header] when truthy and else its own input when truthy, which a
    descriptor object always is; for the foot its [footer] when truthy. The
    generated row maps the property name of each column's key to the value
    the last column of that name provides. Otherwise the rows of the section
    are the explicit ones, and those of the body always are. With columns
    [{dataKey: "x", header: "X"}] and no explicit head, the head has one row,
    whose cell under [x] has the text ["X"]. *)
Theorem generated_rows (settings : Content) (tableColumns : list Column)
    (sectionName : Section) :
  let explicit := settings_section settings sectionName in
  let generated :=
    explicit = [] ∧ is_Some (columns settings) ∧ sectionName ≠ body ∧
    ∃ column, column ∈ tableColumns ∧
              is_Some (generatedValue sectionName column) in
  (generated →
   ∃ o, sectionRowsOf settings tableColumns sectionName = [Keyed o] ∧
        ∀ key, obj_get o key = lastProvided sectionName tableColumns key) ∧
  (¬ generated → sectionRowsOf settings tableColumns sectionName = explicit) ∧
  sectionRowsOf settings tableColumns body = c_body settings ∧
  (∀ column d, Column.raw column = ColObj d →
               is_Some (generatedValue head column)) ∧
  (∀ (b f : list RowInput) (defaultStyles : Styles) (theme : Theme)
     (styles : StylesProps),
     let x := ColObj (Build_ColumnDef (Some (KStr "x")) None
                        (Some (Plain (SStr "X"))) None None None) in
     let scenario := Build_Content (Some [x]) [] b f in
     let cols := getTableColumns scenario in
     sectionRowsOf scenario cols head = [Keyed [("x", Plain (SStr "X"))]] ∧
     (fun r => Cell.text <$> Row.cell r "x") <$>
       parseSection defaultStyles theme styles cols head
         (sectionRowsOf scenario cols head) =
     [Some (Cell.Lines ["X"])]).
Proof.
  intros explicit generated. split; [|split; [|split; [|split]]].
  - intros (Hnil & Hcols & Hsec & Hprovided).
    rewrite (sectionRowsOf_generated _ _ _ Hnil Hcols Hsec).
    apply generateSectionRow_Some in Hprovided as [r Hr]. rewrite Hr.
    rewrite generateSectionRow_object in Hr. case_decide; [|done].
    injection Hr as <-. eexists. split; [done|]. intros key.
    rewrite generatedObject_get. by destruct (lastProvided _ _ _).
  - intros Hnot.
    destruct (decide (explicit = [] ∧ is_Some (columns settings)
                      ∧ sectionName ≠ body)) as [(Hnil & Hcols & Hsec)|Hcond].
    + rewrite (sectionRowsOf_generated _ _ _ Hnil Hcols Hsec).
      destruct (generateSectionRowFromColumnData _ _) as [r|] eqn:Hr;
        [|by rewrite Hnil].
      destruct Hnot. repeat split; try done.
      apply generateSectionRow_Some. by eexists.
    + by apply sectionRowsOf_explicit.
  - apply sectionRowsOf_explicit. by intros (_ & _ & ?).
  - intros column d Hraw. unfold generatedValue. rewrite Hraw.
    cbn [columnData_header columnData_asCell cell_truthy].
    destruct (truthy (col_header d)) eqn:Hh; [|by eexists].
    destruct (col_header d); [by eexists|done].
  - intros b f defaultStyles theme styles x scenario cols. split; reflexivity.
Qed.

(** C7 as stated fails for the foot of scenario B: the foot has no explicit
    row and column descriptors exist, but no column has a [footer], and no
    foot row is generated. *)
Lemma generated_foot_counterexample :
  let x := ColObj (Build_ColumnDef (Some (KStr "x")) None
                     (Some (Plain (SStr "X"))) None None None) in
  let rows := [Keyed [("x", Fixture.str "v1")]; Keyed [("x", Fixture.str "v2")]] in
  let settings := Build_Content (Some [x]) [] rows [] in
  settings_section settings foot = [] ∧
  columns settings = Some [x] ∧
  sectionRowsOf settings (getTableColumns settings) foot = [] ∧
  Table.foot (Fixture.table (Fixture.options (Some [x]) None (Some rows) None None))
    = [].
Proof. repeat split; vm_compute; reflexivity. Qed.

(** ** Column aggregation *)

Lemma aggregate_lookup styles rows columns j :
  aggregate styles rows columns !! j =
  aggregateColumn styles rows <$> columns !! j.
Proof.
  unfold aggregate, aggregateColumn. revert columns.
  induction rows as [|r rows IH]; intros columns; cbn [fold_left].
  - by destruct (columns !! j).
  - rewrite IH, list_lookup_fmap. by destruct (columns !! j).
Qed.

Lemma aggregateStep_columnStyles styles r column :
  columnStylesOf styles (aggregateStep styles r column) =
  columnStylesOf styles column.
Proof.
  unfold columnStylesOf.
  by rewrite aggregateStep_dataKey, aggregateStep_index.
Qed.

Lemma aggregateColumn_same styles rows column :
  Column.index (aggregateColumn styles rows column) = Column.index column ∧
  columnStylesOf styles (aggregateColumn styles rows column) =
    columnStylesOf styles column.
Proof.
  unfold aggregateColumn.
  apply (fold_left_invariant
           (fun c => Column.index c = Column.index column ∧
                     columnStylesOf styles c = columnStylesOf styles column));
    [|done].
  intros c r [Hi Hs]. by rewrite aggregateStep_index, aggregateStep_columnStyles.
Qed.

Lemma Math_max_le (a b w : Q) :
  (a <= w)%Q → (b <= w)%Q → (Math_max a b <= w)%Q.
Proof. intros. unfold Math_max. by destruct (Qle_bool a b). Qed.

Lemma Math_max_eq_l (a b w : Q) :
  (a == w)%Q → (b <= w)%Q → (Math_max a b == w)%Q.
Proof.
  intros Ha Hb. unfold Math_max. destruct (Qle_bool a b) eqn:Hab; [|done].
  apply Qle_bool_iff in Hab. apply Qle_antisym; [done|]. by rewrite <- Ha.
Qed.

Lemma Math_max_eq_r (a b w : Q) :
  (a <= w)%Q → (b == w)%Q → (Math_max a b == w)%Q.
Proof.
  intros Ha Hb. unfold Math_max. destruct (Qle_bool a b) eqn:Hab; [done|].
  apply Qle_antisym; [done|]. rewrite <- Hb.
  destruct (Qlt_le_dec b a) as [Hlt|Hle]; [by apply Qlt_le_weak|].
  apply Qle_bool_iff in Hle. congruence.
Qed.

Section FixedWidth.

Variable styles : StylesProps.
Variable w : Q.
Hypothesis w_positive : (0 < w)%Q.

(** The widths of the column are at most [w]; they are [w]. *)
Let below (column : Column) : Prop :=
  (Column.minWidth column <= w)%Q ∧ (Column.wrappedWidth column <= w)%Q.
Let reached (column : Column) : Prop :=
  (Column.minWidth column == w)%Q ∧ (Column.wrappedWidth column == w)%Q.

(** The cell of the row at the column is no wider than [w]; the row sets the
    column to [w]. *)
Let fits (r : Row) (column : Column) : Prop :=
  ∀ c, Row.cell r (pretty (Column.index column)) = Some c → Cell.colSpan c = 1 →
       (Cell.minWidth c <= w)%Q ∧ (Cell.wrappedWidth c <= w)%Q.
Let sets (r : Row) (column : Column) : Prop :=
  match Row.cell r (pretty (Column.index column)) with
  | Some c =>
      Cell.colSpan c = 1 →
      (Cell.minWidth c == w)%Q ∧ (Cell.wrappedWidth c == w)%Q
  | None => True
  end.

Lemma Qzero_positive : Qzero w = false.
Proof.
  unfold Qzero. destruct (Qeq_bool w 0) eqn:H; [|done].
  apply Qeq_bool_iff in H. rewrite H in w_positive.
  by apply Qlt_irrefl in w_positive.
Qed.

Lemma respectColumnStyles_fixed column :
  columnStylesOf styles column !! "cellWidth" = Some (VNum w) →
  Column.minWidth (respectColumnStyles styles column) = w ∧
  Column.wrappedWidth (respectColumnStyles styles column) = w.
Proof.
  intros Hw. unfold respectColumnStyles. rewrite Hw.
  cbn [typeof_number]. by rewrite Qzero_positive.
Qed.

Lemma aggregateStep_cases r column :
  columnStylesOf styles column !! "cellWidth" = Some (VNum w) →
  (∃ c, Row.cell r (pretty (Column.index column)) = Some c ∧
        Cell.colSpan c = 1 ∧
        Column.minWidth (aggregateStep styles r column) =
          Math_max (Column.minWidth column) (Cell.minWidth c) ∧
        Column.wrappedWidth (aggregateStep styles r column) =
          Math_max (Column.wrappedWidth column) (Cell.wrappedWidth c)) ∨
  ((∀ c, Row.cell r (pretty (Column.index column)) = Some c →
         Cell.colSpan c ≠ 1) ∧
   Column.minWidth (aggregateStep styles r column) = w ∧
   Column.wrappedWidth (aggregateStep styles r column) = w).
Proof.
  intros Hw. destruct (respectColumnStyles_fixed column Hw) as [Hmin Hwrapped].
  unfold aggregateStep.
  destruct (Row.cell r (pretty (Column.index column))) as [c|] eqn:Hc.
  - destruct (Z.eqb_spec (Cell.colSpan c) 1) as [Hspan|Hspan].
    + left. exists c. rewrite Hspan. by repeat split.
    + right. split; [by intros c' [= <-]|]. cbv zeta.
      rewrite Hmin, Qzero_positive, andb_false_r.
      rewrite Hwrapped, Qzero_positive, andb_false_r. done.
  - right. by split.
Qed.

Lemma aggregateStep_below r column :
  columnStylesOf styles column !! "cellWidth" = Some (VNum w) →
  fits r column → below column → below (aggregateStep styles r column).
Proof.
  intros Hw Hfits [Hmin Hwrapped]. unfold below, reached.
  destruct (aggregateStep_cases r column Hw)
    as [(c & Hc & Hspan & -> & ->)|(_ & -> & ->)].
  - destruct (Hfits c Hc Hspan). split; by apply Math_max_le.
  - split; apply Qle_refl.
Qed.

Lemma aggregateStep_reached r column :
  columnStylesOf styles column !! "cellWidth" = Some (VNum w) →
  fits r column → reached column → reached (aggregateStep styles r column).
Proof.
  intros Hw Hfits [Hmin Hwrapped]. unfold below, reached.
  destruct (aggregateStep_cases r column Hw)
    as [(c & Hc & Hspan & -> & ->)|(_ & -> & ->)].
  - destruct (Hfits c Hc Hspan). split; by apply Math_max_eq_l.
  - by split.
Qed.

Lemma aggregateStep_sets r column :
  columnStylesOf styles column !! "cellWidth" = Some (VNum w) →
  sets r column → below column → reached (aggregateStep styles r column).
Proof.
  intros Hw Hsets [Hmin Hwrapped]. unfold below, reached.
  destruct (aggregateStep_cases r column Hw)
    as [(c & Hc & Hspan & -> & ->)|(_ & -> & ->)].
  - unfold sets in Hsets. rewrite Hc in Hsets. destruct (Hsets Hspan).
    split; by apply Math_max_eq_r.
  - by split.
Qed.

Lemma aggregateColumn_reached rows column :
  columnStylesOf styles column !! "cellWidth" = Some (VNum w) →
  below column →
  (∀ r, r ∈ rows → fits r column) →
  (∃ r, r ∈ rows ∧ sets r column) →
  reached (aggregateColumn styles rows column).
Proof.
  intros Hw Hbelow Hfits (r & Hr & Hsets).
  apply list_elem_of_split in Hr as (before & after & ->).
  unfold aggregateColumn. rewrite fold_left_app. cbn [fold_left].
  fold (aggregateColumn styles before column).
  destruct (aggregateColumn_same styles before column) as [Hindex Hstyles].
  assert (below (aggregateColumn styles before column)) as Hbefore.
  { unfold aggregateColumn.
    assert (∀ l c, (∀ r', r' ∈ l → fits r' column) →
              Column.index c = Column.index column →
              columnStylesOf styles c = columnStylesOf styles column →
              below c →
              below (fold_left (fun column r => aggregateStep styles r column) l c))
      as Hfold.
    { induction l as [|r' l IH]; intros c Hl Hi Hs Hc; [done|].
      cbn [fold_left]. apply IH.
      - intros r'' Hr''. apply Hl. by right.
      - by rewrite aggregateStep_index.
      - by rewrite aggregateStep_columnStyles.
      - apply aggregateStep_below; [by rewrite Hs| |done].
        unfold fits. rewrite Hi. apply Hl. by left. }
    apply Hfold; try done. intros r' Hr'. apply Hfits.
    apply elem_of_app. by left. }
  assert (reached (aggregateStep styles r (aggregateColumn styles before column)))
    as Hhere.
  { apply aggregateStep_sets; [by rewrite Hstyles| |done].
    unfold sets. by rewrite Hindex. }
  assert (∀ l c, (∀ r', r' ∈ l → fits r' column) →
            Column.index c = Column.index column →
            columnStylesOf styles c = columnStylesOf styles column →
            reached c →
            reached (fold_left (fun column r => aggregateStep styles r column) l c))
    as Hfold.
  { induction l as [|r' l IH]; intros c Hl Hi Hs Hc; [done|].
    cbn [fold_left]. apply IH.
    - intros r'' Hr''. apply Hl. by right.
    - by rewrite aggregateStep_index.
    - by rewrite aggregateStep_columnStyles.
    - apply aggregateStep_reached; [by rewrite Hs| |done].
      unfold fits. rewrite Hi. apply Hl. by left. }
  apply Hfold; try done.
  - intros r' Hr'. apply Hfits. apply elem_of_app. right. by right.
  - by rewrite aggregateStep_index.
  - by rewrite aggregateStep_columnStyles.
Qed.

End FixedWidth.

Lemma getTableColumns_new (settings : Content) (column : Column) :
  column ∈ getTableColumns settings →
  Column.minWidth column = 0%Q ∧ Column.wrappedWidth column = 0%Q.
Proof.
  intros (i & Hi)%list_elem_of_lookup. revert Hi.
  destruct (columns settings) as [cols|] eqn:Hcols.
  - unfold getTableColumns. rewrite Hcols, list_lookup_imap.
    destruct (cols !! i); [|done]. by intros [= <-].
  - rewrite (inferred_columns settings Hcols).
    destruct (default _ _); rewrite numberedFrom_lookup;
      (destruct (_ !! i); [|done]); by intros [= <-].
Qed.

(** C1 (as amended). Let the entry of a column in [columnStyles] declare a
    positive number [w] as [cellWidth]. After the aggregation pass the
    column's [minWidth] and [wrappedWidth] are [w], provided that every cell
    with [colSpan] 1 that a row (of any section) holds under the column's
    index either resolves [cellWidth] to [w] in its own style or has
    [minWidth] and [wrappedWidth] at most [w], and that some row holds no
    cell with [colSpan] 1 there, or one that resolves [cellWidth] to [w] or
    has both widths equal to [w]. A cell that resolves [cellWidth] to [w], as
    a body cell inheriting the column style does, counts whatever the
    measured width of its content. *)
Theorem column_fixed_width (host : Host) (table : Table) (j : nat)
    (column : Column) (w : Q) :
  Table.columns (parseContent host table) !! j = Some column →
  columnStylesOf (Table.styles table) column !! "cellWidth" = Some (VNum w) →
  (0 < w)%Q →
  (∀ r c,
     r ∈ Table.allRows (parseContent host table) →
     Row.cell r (pretty (Column.index column)) = Some c →
     Cell.colSpan c = 1 →
     Cell.styles c !! "cellWidth" = Some (VNum w) ∨
     ((Cell.minWidth c <= w)%Q ∧ (Cell.wrappedWidth c <= w)%Q)) →
  (∃ r,
     r ∈ Table.allRows (parseContent host table) ∧
     match Row.cell r (pretty (Column.index column)) with
     | Some c =>
         Cell.colSpan c = 1 →
         Cell.styles c !! "cellWidth" = Some (VNum w) ∨
         ((Cell.minWidth c == w)%Q ∧ (Cell.wrappedWidth c == w)%Q)
     | None => True
     end) →
  (Column.minWidth column == w)%Q ∧ (Column.wrappedWidth column == w)%Q.
Proof.
  intros Hj Hw Hpos Hfits (r0 & Hr0 & Hsets).
  rewrite parseContent_columns, aggregate_lookup in Hj.
  destruct (columnsOf table !! j) as [column0|] eqn:Hj0; [|done].
  injection Hj as <-.
  set (rows := Table.allRows (parseContent host table)) in *.
  destruct (aggregateColumn_same (Table.styles table) rows column0)
    as [Hindex Hstyles].
  rewrite Hindex in Hfits, Hsets. rewrite Hstyles in Hw.
  assert (column0 ∈ columnsOf table) as Hin0 by by eapply list_elem_of_lookup_2.
  assert (∀ r c, r ∈ rows →
            Row.cell r (pretty (Column.index column0)) = Some c →
            Cell.styles c !! "cellWidth" = Some (VNum w) →
            Cell.minWidth c = w ∧ Cell.wrappedWidth c = w) as Hfixed.
  { intros r c (sectionName & r' & _ & ->)%elem_of_parseContent_rows Hc Hcw.
    destruct (cellPass_resolved _ _ _ _ _ _ Hin0 Hc) as [c0 ->].
    by apply (resolveCellWidths_modes host c0). }
  apply (aggregateColumn_reached (Table.styles table) w Hpos rows column0 Hw).
  - destruct (getTableColumns_new _ _ Hin0) as [-> ->].
    split; by apply Qlt_le_weak.
  - intros r Hr c Hc Hspan.
    destruct (Hfits r c Hr Hc Hspan) as [Hcw|?]; [|done].
    destruct (Hfixed r c Hr Hc Hcw) as [-> ->]. split; apply Qle_refl.
  - exists r0. split; [done|].
    destruct (Row.cell r0 (pretty (Column.index column0))) as [c|] eqn:Hc;
      [|done].
    intros Hspan. destruct (Hsets Hspan) as [Hcw|?]; [|done].
    by destruct (Hfixed r0 c Hr0 Hc Hcw) as [-> ->].
Qed.

Lemma column_fixed_width_witness :
  let table :=
    newTable Fixture.host0 noOptions noOptions
      (Args1 (Fixture.options None None
                (Some [Positional [Fixture.str "abcdefghijkl"]]) None
                (Some {[ "0" := {[ "cellWidth" := VNum 40 ]} ]}))) in
  Cell.contentWidth <$>
    Fixture.cellAt (Table.body (parseContent Fixture.host0 table)) 0 "0"
    = Some 70%Q ∧
  ∃ column,
    Table.columns (parseContent Fixture.host0 table) !! 0%nat = Some column ∧
    (Column.minWidth column == 40)%Q ∧ (Column.wrappedWidth column == 40)%Q.
Proof.
  intros table. split; [vm_compute; reflexivity|].
  assert (∃ column, Table.columns (parseContent Fixture.host0 table) !! 0%nat
                    = Some column ∧ Column.index column = 0%nat ∧
                      columnStylesOf (Table.styles table) column !! "cellWidth"
                      = Some (VNum 40))
    as (column & Hcolumn & Hindex & Hw) by (vm_compute; eauto).
  assert (∃ r, Table.allRows (parseContent Fixture.host0 table) = [r] ∧
               (Cell.styles <$> Row.cell r (pretty 0%nat)) ≫= (.!! "cellWidth")
               = Some (VNum 40))
    as (r & Hrows & Hr) by (vm_compute; eauto).
  assert (∀ c, Row.cell r (pretty (Column.index column)) = Some c →
               Cell.styles c !! "cellWidth" = Some (VNum 40)) as Hcell.
  { intros c Hc. rewrite Hindex in Hc. by rewrite Hc in Hr. }
  exists column. split; [done|].
  apply (column_fixed_width Fixture.host0 table 0 column 40 Hcolumn Hw).
  - reflexivity.
  - intros r' c Hr' Hc _. rewrite Hrows in Hr'.
    apply list_elem_of_singleton in Hr' as ->. left. by apply Hcell.
  - exists r. split; [rewrite Hrows; by left|].
    destruct (Row.cell r (pretty (Column.index column))) as [c|] eqn:Hc; [|done].
    intros _. left. by apply Hcell.
Defined.

(** C1 as stated fails when a head cell is wider than the declared width:
    the column keeps the width of the head cell. *)
Lemma column_fixed_width_counterexample :
  let table :=
    Fixture.table
      (Fixture.options None
         (Some [Positional [Fixture.str "a very wide header"]])
         (Some [Positional [Fixture.str "a"]]) None
         (Some {[ "0" := {[ "cellWidth" := VNum 40 ]} ]})) in
  (fun column => columnStylesOf (Table.styles table) column !! "cellWidth")
    <$> Table.columns table = [Some (VNum 40)] ∧
  Column.minWidth <$> Table.columns table = [40%Q] ∧
  Column.wrappedWidth <$> Table.columns table = [100%Q] ∧
  ¬ (100 == 40)%Q.
Proof. repeat split; try (vm_compute; reflexivity). vm_compute. discriminate. Qed.

(** ** The widths of the table *)

Lemma reduceWidths_sum (width : Column → Q) (columns : list Column) :
  (reduceWidths width columns == sumQ (width <$> columns))%Q.
Proof.
  unfold reduceWidths.
  assert (∀ total,
            (fold_left (fun total col => total + width col) columns total ==
             total + sumQ (width <$> columns))%Q) as H.
  { induction columns as [|col columns IH]; intros total; cbn [fold_left].
    - change (sumQ (width <$> [])) with 0%Q. ring.
    - rewrite IH.
      change (sumQ (width <$> col :: columns))
        with (width col + sumQ (width <$> columns))%Q.
      ring. }
  rewrite H. ring.
Qed.

(** C10. The table's [minWidth] is the sum of its columns' [minWidth]s and
    its [wrappedWidth] the sum of their [wrappedWidth]s. Its [width] is the
    [tableWidth] setting when that is a number, the table's [wrappedWidth]
    when the setting is 'wrap', and otherwise the page width minus the left
    and right margins. The setting is that of the last of the default
    configuration, the global options, the document options and the table's
    options that has one. *)
Theorem table_widths (host : Host) (globalOptions documentOptions : UserOptions)
    (args : Args) :
  let table := parseInput host globalOptions documentOptions args in
  (Table.minWidth table == sumQ (Column.minWidth <$> Table.columns table))%Q ∧
  (Table.wrappedWidth table ==
     sumQ (Column.wrappedWidth <$> Table.columns table))%Q ∧
  tableWidth (Table.settings table) =
    orElse (tableWidth (parseUserArguments args))
      (orElse (tableWidth documentOptions)
         (orElse (tableWidth globalOptions) (tableWidth (defaultConfig host)))) ∧
  match tableWidth (Table.settings table) with
  | Some (TableWidthNum w) => Table.width table = w
  | Some TableWidthWrap => Table.width table = Table.wrappedWidth table
  | _ =>
      Table.width table =
        (pageWidth host - Margin.left (Table.margin table)
         - Margin.right (Table.margin table))%Q
  end.
Proof.
  intros table. split; [apply reduceWidths_sum|].
  split; [apply reduceWidths_sum|]. split; [done|].
  unfold table, parseInput. cbn [Table.settings Table.width Table.wrappedWidth
    Table.margin].
  by destruct (tableWidth _) as [[]|].
Qed.

(** ** Two calls in a row *)

Lemma parseInput_tableFrom host globalOptions documentOptions args :
  parseInput host globalOptions documentOptions args =
  let allOptions :=
    [globalOptions; documentOptions; parseUserArguments args] in
  tableFrom host (tableId (parseUserArguments args))
    (fold_left assignOptions allOptions (defaultConfig host))
    (styleOptionsOf allOptions) (omap didParseCell allOptions).
Proof. reflexivity. Qed.

(** The rows of a section settle: a second pass over the rows the first pass
    has left changes nothing. *)
Lemma sectionRowsOf_settled settings settings' tableColumns sectionName :
  columns settings' = columns settings →
  settings_section settings' sectionName =
    sectionRowsOf settings tableColumns sectionName →
  sectionRowsOf settings' tableColumns sectionName =
  sectionRowsOf settings tableColumns sectionName.
Proof.
  intros Hcols Hrows. unfold sectionRowsOf at 1. rewrite Hrows, Hcols.
  unfold sectionRowsOf.
  destruct (decide (length (settings_section settings sectionName) = 0%nat
                    ∧ is_Some (columns settings) ∧ sectionName ≠ body))
    as [(Hlen & Hc & Hs)|Hnot].
  - destruct (generateSectionRowFromColumnData tableColumns sectionName)
      as [sectionRow|] eqn:Hgen.
    + rewrite decide_False; [done|]. rewrite length_app. cbn. lia.
    + by rewrite decide_True.
  - by rewrite decide_False.
Qed.

Lemma sectionRowsOf_same settings settings' tableColumns sectionName :
  columns settings' = columns settings →
  settings_section settings' sectionName = settings_section settings sectionName →
  sectionRowsOf settings' tableColumns sectionName =
  sectionRowsOf settings tableColumns sectionName.
Proof. intros Hcols Hrows. unfold sectionRowsOf. by rewrite Hrows, Hcols. Qed.

Lemma sectionRowsOf_inferred settings tableColumns sectionName :
  columns settings = None →
  sectionRowsOf settings tableColumns sectionName =
  settings_section settings sectionName.
Proof.
  intros Hcols. unfold sectionRowsOf. rewrite decide_False; [done|].
  rewrite Hcols. by intros (_ & [? ?] & _).
Qed.

Lemma getTableColumns_settled settings hx fx :
  let content := contentOf settings in
  let cols := getTableColumns content in
  (hx = c_head content ∨ hx = sectionRowsOf content cols head) →
  (fx = c_foot content ∨ fx = sectionRowsOf content cols foot) →
  getTableColumns (Build_Content (columns_opt settings) hx (c_body content) fx)
  = cols.
Proof.
  intros content cols Hh Hf.
  destruct (columns_opt settings) as [given|] eqn:Hcols.
  - unfold cols, content, contentOf, getTableColumns. cbn [columns]. by rewrite Hcols.
  - assert (columns content = None) as Hnone by done.
    rewrite !(sectionRowsOf_inferred content cols _ Hnone) in *.
    assert (hx = c_head content) as -> by (by destruct Hh).
    assert (fx = c_foot content) as -> by (by destruct Hf).
    unfold cols, content, contentOf. cbn [c_head c_body c_foot]. by rewrite Hcols.
Qed.

Lemma parseContent_settled host id startY settings styleOptions userStyles
    hooks margin hx fx :
  let content := contentOf settings in
  let cols := getTableColumns content in
  (hx = c_head content ∨ hx = sectionRowsOf content cols head) →
  (fx = c_foot content ∨ fx = sectionRowsOf content cols foot) →
  parseContent host
    (Table.new id startY (setSections settings hx (c_body content) fx)
       styleOptions userStyles hooks margin) =
  parseContent host
    (Table.new id startY settings styleOptions userStyles hooks margin).
Proof.
  intros content cols Hh Hf. unfold parseContent.
  cbn [Table.new Table.settings Table.styles Table.hooks Table.id Table.startY
       Table.userStyles Table.margin Table.minWidth Table.wrappedWidth
       Table.width].
  set (content' := contentOf (setSections settings hx (c_body content) fx)).
  assert (content' =
          Build_Content (columns_opt settings) hx (c_body content) fx) as Hcontent'
    by done.
  assert (getTableColumns content' = cols) as Hcols.
  { rewrite Hcontent'. by apply getTableColumns_settled. }
  rewrite Hcols. fold content. fold cols.
  assert (∀ sectionName,
            sectionRowsOf content' cols sectionName =
            sectionRowsOf content cols sectionName) as Hrows.
  { intros sectionName. rewrite Hcontent'. destruct sectionName.
    - destruct Hh as [->| ->];
        [by apply sectionRowsOf_same|by apply sectionRowsOf_settled].
    - by apply sectionRowsOf_same.
    - destruct Hf as [->| ->];
        [by apply sectionRowsOf_same|by apply sectionRowsOf_settled]. }
  rewrite !Hrows. done.
Qed.

Lemma tableFrom_sections host id s styleOptions hooks :
  htmlContentOf host s = None →
  tableFrom host id s styleOptions hooks =
  let settings := setTheme s (resolveTheme s) in
  let margin := marginOrPadding host (margin s) (margin (defaultConfig host)) in
  let startY := getStartY host settings (Margin.top margin) in
  let table :=
    parseContent host
      (Table.new id startY
         (setSections settings (default [] (head_opt s))
            (default [] (body_opt s)) (default [] (foot_opt s)))
         styleOptions (doc_userStyles host) hooks margin) in
  Table.mk (Table.id table) (Table.startY table) (Table.settings table)
    (Table.styles table) (Table.userStyles table) (Table.hooks table)
    (Table.margin table) (Table.columns table) (Table.head table)
    (Table.body table) (Table.foot table)
    (reduceWidths Column.minWidth (Table.columns table))
    (reduceWidths Column.wrappedWidth (Table.columns table))
    match tableWidth (Table.settings table) with
    | Some (TableWidthNum tableWidth) => tableWidth
    | Some TableWidthWrap => reduceWidths Column.wrappedWidth (Table.columns table)
    | _ =>
        (pageWidth host - Margin.left (Table.margin table)
         - Margin.right (Table.margin table))%Q
    end.
Proof.
  intros Hhtml. unfold tableFrom.
  assert (htmlContentOf host (setTheme s (resolveTheme s)) = None) as ->.
  { by rewrite <- Hhtml. }
  reflexivity.
Qed.

Lemma getStartY_ext host s1 s2 marginTop :
  startY s1 = startY s2 →
  getStartY host s1 marginTop = getStartY host s2 marginTop.
Proof. intros H. unfold getStartY. by rewrite H. Qed.

Lemma tableFrom_settled host id s styleOptions hooks hx fx :
  htmlContentOf host s = None →
  let content :=
    Build_Content (columns_opt s) (default [] (head_opt s))
      (default [] (body_opt s)) (default [] (foot_opt s)) in
  let cols := getTableColumns content in
  (default [] hx = c_head content ∨
   default [] hx = sectionRowsOf content cols head) →
  (default [] fx = c_foot content ∨
   default [] fx = sectionRowsOf content cols foot) →
  tableFrom host id (withSections s hx fx) styleOptions hooks =
  tableFrom host id s styleOptions hooks.
Proof.
  intros Hhtml content cols Hh Hf.
  rewrite (tableFrom_sections host id s styleOptions hooks Hhtml).
  rewrite (tableFrom_sections host id (withSections s hx fx) styleOptions hooks)
    by (by rewrite <- Hhtml).
  cbv zeta.
  set (settings := setTheme s (resolveTheme s)).
  set (m := marginOrPadding host (margin s) (margin (defaultConfig host))).
  pose proof (parseContent_settled host id
                (getStartY host settings (Margin.top m))
                (setSections settings (default [] (head_opt s))
                   (default [] (body_opt s)) (default [] (foot_opt s)))
                styleOptions (doc_userStyles host) hooks m
                (default [] hx) (default [] fx) Hh Hf) as Hsettled.
  change (parseContent host
            (Table.new id (getStartY host settings (Margin.top m))
               (setSections settings (default [] hx) (default [] (body_opt s))
                  (default [] fx))
               styleOptions (doc_userStyles host) hooks m) =
          parseContent host
            (Table.new id (getStartY host settings (Margin.top m))
               (setSections settings (default [] (head_opt s))
                  (default [] (body_opt s)) (default [] (foot_opt s)))
               styleOptions (doc_userStyles host) hooks m)) in Hsettled.
  change (margin (withSections s hx fx)) with (margin s).
  change (body_opt (withSections s hx fx)) with (body_opt s).
  change (head_opt (withSections s hx fx)) with hx.
  change (foot_opt (withSections s hx fx)) with fx.
  change (setSections
            (setTheme (withSections s hx fx) (resolveTheme (withSections s hx fx)))
            (default [] hx) (default [] (body_opt s)) (default [] fx))
    with (setSections settings (default [] hx) (default [] (body_opt s))
            (default [] fx)).
  fold m.
  rewrite (getStartY_ext host
             (setTheme (withSections s hx fx) (resolveTheme (withSections s hx fx)))
             settings (Margin.top m) eq_refl).
  by rewrite Hsettled.
Qed.

(** The three options objects after the rows [h] and [f] have been pushed to
    the owners of the head and of the foot. *)
Lemma pushed_options (g d t dc : UserOptions) (h f : list RowInput) :
  let allOptions := [g; d; t] in
  let pushed :=
    pushToOwner foot_opt set_foot f (pushToOwner head_opt set_head h allOptions) in
  ∃ g' d' t',
    pushed = [g'; d'; t'] ∧
    fold_left assignOptions pushed dc =
      withSections (fold_left assignOptions allOptions dc)
        (if owned head_opt allOptions then Some h
         else head_opt (fold_left assignOptions allOptions dc))
        (if owned foot_opt allOptions then Some f
         else foot_opt (fold_left assignOptions allOptions dc)) ∧
    styleOptionsOf pushed = styleOptionsOf allOptions ∧
    omap didParseCell pushed = omap didParseCell allOptions ∧
    t' = withSections t
           (if bool_decide (is_Some (head_opt t)) then Some h else None)
           (if bool_decide (is_Some (foot_opt t)) then Some f else None) ∧
    pushToOwner foot_opt set_foot f (pushToOwner head_opt set_head h pushed)
      = pushed.
Proof.
  destruct g as [? ? ? ? ? ? ? ? ? hg ? fg ? ? ? ? ? ? ?],
           d as [? ? ? ? ? ? ? ? ? hd ? fd ? ? ? ? ? ? ?],
           t as [? ? ? ? ? ? ? ? ? ht ? ft ? ? ? ? ? ? ?],
           dc as [? ? ? ? ? ? ? ? ? hc ? fc ? ? ? ? ? ? ?].
  destruct hg, hd, ht, fg, fd, ft; (do 3 eexists); repeat split.
Qed.

Lemma titleAsHeader_idem col :
  titleAsHeader (titleAsHeader col) = titleAsHeader col.
Proof.
  destruct col as [k|d]; [done|]. unfold titleAsHeader.
  destruct (isNullish (col_header d)) eqn:Hnull; cbn [col_header col_title
    col_dataKey col_key col_footer col_colSpan].
  - by destruct (isNullish (col_title d)).
  - by rewrite Hnull.
Qed.

Lemma titleAsHeader_twice (cols : list ColumnInput) :
  titleAsHeader <$> (titleAsHeader <$> cols) = titleAsHeader <$> cols.
Proof.
  rewrite <- list_fmap_compose. apply list_fmap_ext.
  intros _ col _. apply titleAsHeader_idem.
Qed.

Lemma withSections_id s : withSections s (head_opt s) (foot_opt s) = s.
Proof. by destruct s. Qed.

Lemma parseUserArguments_after args hx fx :
  let t := parseUserArguments args in
  (head_opt t = None → hx = None) →
  (foot_opt t = None → fx = None) →
  parseUserArguments (argsAfter args (withSections t hx fx)) =
  withSections t hx fx.
Proof.
  intros t Hh Hf. destruct args as [o|cols rows [o|]]; [done|..].
  - unfold t. cbn. by rewrite titleAsHeader_twice.
  - unfold t in *. cbn in Hh, Hf. rewrite Hh, Hf by done.
    cbn. by rewrite titleAsHeader_twice.
Qed.

Lemma argsAfter_idem args t :
  argsAfter (argsAfter args t) t = argsAfter args t.
Proof.
  destruct args as [o|cols rows [o|]]; cbn; by rewrite ?titleAsHeader_twice.
Qed.

Lemma htmlContentOf_withSections host s hx fx :
  htmlContentOf host (withSections s hx fx) = htmlContentOf host s.
Proof. done. Qed.

Lemma tableFrom_settings_sections host id s styleOptions hooks :
  htmlContentOf host s = None →
  let content :=
    Build_Content (columns_opt s) (default [] (head_opt s))
      (default [] (body_opt s)) (default [] (foot_opt s)) in
  let cols := getTableColumns content in
  head_opt (Table.settings (tableFrom host id s styleOptions hooks)) =
    Some (sectionRowsOf content cols head) ∧
  foot_opt (Table.settings (tableFrom host id s styleOptions hooks)) =
    Some (sectionRowsOf content cols foot).
Proof.
  intros Hhtml.
  by rewrite (tableFrom_sections host id s styleOptions hooks Hhtml).
Qed.

Lemma run_options host g d args g' d' t' :
  optionsAfter host g d args = [g'; d'; t'] →
  run host (g, d, args) = (parseInput host g d args, (g', d', argsAfter args t')).
Proof. intros H. unfold run. by rewrite H. Qed.

(** C9. A second call of [parseInput] on the same document, with the options
    and arguments as the first call has left them (generated head and foot
    rows pushed onto the arrays of the options, [header] set from [title]),
    returns a table equal to the first in every field, and leaves the options
    and arguments as it found them. The measurement function, the themes,
    the hooks and the document are those of the host in both calls. *)
Theorem parseInput_twice (host : Host) (globalOptions documentOptions : UserOptions)
    (args : Args) :
  let first := run host (globalOptions, documentOptions, args) in
  run host first.2 = first ∧
  first.1 = parseInput host globalOptions documentOptions args.
Proof.
  cbv zeta.
  set (t := parseUserArguments args).
  set (allOptions := [globalOptions; documentOptions; t]).
  set (s := fold_left assignOptions allOptions (defaultConfig host)).
  set (table := parseInput host globalOptions documentOptions args).
  assert (optionsAfter host globalOptions documentOptions args =
          match htmlContentOf host s with
          | Some _ => allOptions
          | None =>
              pushToOwner foot_opt set_foot
                (default [] (foot_opt (Table.settings table)))
                (pushToOwner head_opt set_head
                   (default [] (head_opt (Table.settings table))) allOptions)
          end) as Hafter by done.
  destruct (htmlContentOf host s) as [hc|] eqn:Hhtml.
  - (* HTML content: no array of the options is touched *)
    rewrite (run_options _ _ _ _ _ _ _ Hafter). cbn [fst snd].
    split; [|done].
    assert (parseUserArguments (argsAfter args t) = t) as Hargs.
    { pose proof (parseUserArguments_after args (head_opt t) (foot_opt t)) as H.
      cbv zeta in H. fold t in H. rewrite withSections_id in H. by apply H. }
    assert (parseInput host globalOptions documentOptions (argsAfter args t)
            = table) as Hsame.
    { unfold table. by rewrite !parseInput_tableFrom, Hargs. }
    rewrite (run_options host globalOptions documentOptions (argsAfter args t)
               globalOptions documentOptions t).
    + by rewrite Hsame, argsAfter_idem.
    + unfold optionsAfter. rewrite Hargs. fold allOptions s. by rewrite Hhtml.
  - (* the generated rows are pushed onto the arrays of the options *)
    set (h := default [] (head_opt (Table.settings table))) in *.
    set (f := default [] (foot_opt (Table.settings table))) in *.
    destruct (pushed_options globalOptions documentOptions t
                (defaultConfig host) h f)
      as (g' & d' & t' & Hpushed & Hmerged & Hstyles & Hhooks & Ht' & Hagain).
    fold allOptions in Hpushed, Hmerged, Hstyles, Hhooks, Hagain.
    fold s in Hmerged.
    rewrite Hpushed in Hafter.
    rewrite (run_options _ _ _ _ _ _ _ Hafter). cbn [fst snd].
    split; [|done].
    assert (parseUserArguments (argsAfter args t') = t') as Hargs.
    { rewrite Ht'. apply parseUserArguments_after; fold t; by intros ->. }
    assert (tableId t' = tableId t) as Hid by (by rewrite Ht').
    destruct (tableFrom_settings_sections host (tableId t) s
                (styleOptionsOf allOptions) (omap didParseCell allOptions) Hhtml)
      as [Hhead Hfoot].
    assert (table = tableFrom host (tableId t) s (styleOptionsOf allOptions)
                      (omap didParseCell allOptions)) as Htable
      by apply parseInput_tableFrom.
    assert (parseInput host g' d' (argsAfter args t') = table) as Hsame.
    { rewrite parseInput_tableFrom, Hargs. cbv zeta.
      rewrite <- Hpushed, Hmerged, Hstyles, Hhooks, Hid, Htable.
      apply tableFrom_settled; [done|..].
      - destruct (owned head_opt allOptions); [right|by left].
        unfold h. by rewrite Htable, Hhead.
      - destruct (owned foot_opt allOptions); [right|by left].
        unfold f. by rewrite Htable, Hfoot. }
    rewrite (run_options host g' d' (argsAfter args t') g' d' t').
    + by rewrite Hsame, argsAfter_idem.
    + unfold optionsAfter. rewrite Hargs, Hsame. rewrite <- Hpushed at 1.
      rewrite Hmerged, htmlContentOf_withSections, Hhtml.
      fold h f. rewrite <- Hpushed at 1. by rewrite Hagain.
Qed.

(** * Further properties

    What the code shows beyond the claims of the specification. *)

(** ** The merged settings *)

Lemma mergeStyles_lookup {A : Type} (prop : UserOptions → option (gmap string A))
    (g d t : UserOptions) (key : string) :
  mergeStyles prop [g; d; t] !! key = fromLevels prop g d t key.
Proof.
  unfold mergeStyles, assign, fromLevels. cbn [fmap list_fmap fold_left].
  rewrite !lookup_union_orElse, lookup_empty.
  by rewrite !orElse_None_r.
Qed.

Lemma tableFrom_theme host id s styleOptions hooks :
  theme (Table.settings (tableFrom host id s styleOptions hooks)) = resolveTheme s.
Proof. reflexivity. Qed.

Lemma tableFrom_startY host id s styleOptions hooks :
  Table.startY (tableFrom host id s styleOptions hooks) =
  getStartY host s (Margin.top (Table.margin (tableFrom host id s styleOptions hooks))).
Proof. reflexivity. Qed.

Lemma tableFrom_styles host id s styleOptions hooks :
  Table.styles (tableFrom host id s styleOptions hooks) = styleOptions.
Proof. reflexivity. Qed.

Lemma resolveTheme_not_auto s : resolveTheme s ≠ Some "auto".
Proof.
  unfold resolveTheme. destruct (theme s) as [name|]; [|done].
  destruct (String.eqb_spec name "auto") as [->|Hne].
  - by destruct (default false (useCss s)).
  - congruence.
Qed.

(** X1. The theme of the parsed table is the theme in force, except that
    'auto' becomes 'plain' when [useCss] is in force and truthy, and 'striped'
    otherwise. It is never 'auto'. *)
Theorem theme_resolved (host : Host) (globalOptions documentOptions : UserOptions)
    (args : Args) :
  let table := parseInput host globalOptions documentOptions args in
  theme (Table.settings table) =
    (fun name =>
       if String.eqb name "auto"
       then if default false (inForce useCss host globalOptions documentOptions args)
            then "plain" else "striped"
       else name) <$> inForce theme host globalOptions documentOptions args ∧
  theme (Table.settings table) ≠ Some "auto".
Proof.
  cbn zeta. rewrite parseInput_tableFrom. cbn zeta. rewrite tableFrom_theme.
  split; [|apply resolveTheme_not_auto].
  unfold resolveTheme, inForce. cbn [fold_left assignOptions theme useCss].
  destruct (orElse (theme (parseUserArguments args)) _) as [name|]; [|done].
  cbn [fmap option_fmap option_map]. by destruct (String.eqb name "auto").
Qed.

(** X2. A number in force as [startY] is where the table starts, whatever
    table came before. Zero counts as not given: the table then starts at the
    top margin, and the previous table is not looked at either. *)
Theorem startY_given (host : Host) (globalOptions documentOptions : UserOptions)
    (args : Args) (q : Q) :
  inForce startY host globalOptions documentOptions args = Some (StartYNum q) →
  let table := parseInput host globalOptions documentOptions args in
  Table.startY table = if Qzero q then Margin.top (Table.margin table) else q.
Proof.
  intros Hq. cbn zeta. rewrite parseInput_tableFrom. cbn zeta.
  rewrite tableFrom_startY. unfold getStartY.
  change (startY (fold_left assignOptions _ _))
    with (inForce startY host globalOptions documentOptions args).
  by rewrite Hq.
Qed.

Lemma startY_given_witness :
  let args := Args1 (optionsWith (Some (StartYNum 50)) None None None) in
  inForce startY Fixture.host0 noOptions noOptions args = Some (StartYNum 50) ∧
  Table.startY (parseInput Fixture.host0 noOptions noOptions args) = 50%Q.
Proof.
  intros args. split; [reflexivity|].
  exact (startY_given Fixture.host0 noOptions noOptions args 50 eq_refl).
Defined.

(** X3. With no [startY] in force, or with [false], the table starts
    20 units over the scale factor below the end of the previous table when
    that table ended on the current page (its first page plus its number of
    pages minus one), and at the top margin when there is no such table, when
    it ended on another page, or when that position is zero. The scale factor
    is taken to be other than zero, where the division of the embedding is
    that of JavaScript. *)
Theorem startY_below_previous (host : Host)
    (globalOptions documentOptions : UserOptions) (args : Args) :
  ¬ (scaleFactor host == 0)%Q →
  inForce startY host globalOptions documentOptions args = None ∨
  inForce startY host globalOptions documentOptions args = Some StartYFalse →
  let table := parseInput host globalOptions documentOptions args in
  let marginTop := Margin.top (Table.margin table) in
  Table.startY table =
    match previousAutoTable host with
    | Some previous =>
        if startPageNumber previous + prev_pageNumber previous - 1
           =? pageNumber host
        then
          let y := (finalY previous + 20 / scaleFactor host)%Q in
          if Qzero y then marginTop else y
        else marginTop
    | None => marginTop
    end.
Proof.
  intros _ Hq. cbn zeta. rewrite parseInput_tableFrom. cbn zeta.
  rewrite tableFrom_startY. unfold getStartY, isSamePageAsPreviousTable.
  change (startY (fold_left assignOptions _ _))
    with (inForce startY host globalOptions documentOptions args).
  destruct (previousAutoTable host) as [previous|].
  - destruct (_ =? pageNumber host).
    + by destruct Hq as [->| ->].
    + by destruct Hq as [->| ->].
  - by destruct Hq as [->| ->].
Qed.

Lemma startY_below_previous_witness :
  let host := hostAfter (Build_PreviousTable 100 1 1) in
  let args := Args1 (optionsWith (Some StartYFalse) None None None) in
  ¬ (scaleFactor host == 0)%Q ∧
  inForce startY host noOptions noOptions args = Some StartYFalse ∧
  Table.startY (parseInput host noOptions noOptions args) = 120%Q.
Proof.
  intros host args.
  assert (¬ (scaleFactor host == 0)%Q) as Hscale by (by vm_compute).
  split; [done|]. split; [reflexivity|].
  exact (startY_below_previous host noOptions noOptions args Hscale
           (or_intror eq_refl)).
Defined.

(** X4. The six style options are merged one level deep. The value of
    a key of [styles], [headStyles], [bodyStyles], [footStyles] or
    [alternateRowStyles] is that of the table options when their object has
    the key, else that of the document options, else that of the global ones;
    the default configuration takes no part. The keys of [columnStyles] are
    column names: the styles of a column are taken whole from the last level
    that has an entry for it. *)
Theorem style_options_merged (host : Host)
    (globalOptions documentOptions : UserOptions) (args : Args) (key : string) :
  let tableOptions := parseUserArguments args in
  let styles := Table.styles (parseInput host globalOptions documentOptions args) in
  StylesProps.styles styles !! key =
    fromLevels styles_opt globalOptions documentOptions tableOptions key ∧
  StylesProps.headStyles styles !! key =
    fromLevels headStyles_opt globalOptions documentOptions tableOptions key ∧
  StylesProps.bodyStyles styles !! key =
    fromLevels bodyStyles_opt globalOptions documentOptions tableOptions key ∧
  StylesProps.footStyles styles !! key =
    fromLevels footStyles_opt globalOptions documentOptions tableOptions key ∧
  StylesProps.alternateRowStyles styles !! key =
    fromLevels alternateRowStyles_opt globalOptions documentOptions
      tableOptions key ∧
  StylesProps.columnStyles styles !! key =
    fromLevels columnStyles_opt globalOptions documentOptions tableOptions key.
Proof.
  cbn zeta. rewrite parseInput_tableFrom. cbn zeta. rewrite tableFrom_styles.
  unfold styleOptionsOf.
  cbn [StylesProps.styles StylesProps.headStyles StylesProps.bodyStyles
       StylesProps.footStyles StylesProps.alternateRowStyles
       StylesProps.columnStyles].
  by rewrite !mergeStyles_lookup.
Qed.

(** ** The rows of the table *)

Lemma columnStep_identity defaultStyles theme styles sectionName rawRow rowIndex
    st column :
  rowIdentity (row (columnStep defaultStyles theme styles sectionName rawRow
                      rowIndex st column)) = rowIdentity (row st).
Proof.
  unfold columnStep.
  destruct (noRowSpanLeft _ _).
  - by destruct (columnSpansLeft st =? 0).
  - by destruct (_ !! Column.index column).
Qed.

Lemma parseRow_identity defaultStyles theme styles columns sectionName ledger
    rowIndex rawRow :
  rowIdentity (row (parseRow defaultStyles theme styles columns sectionName
                      ledger rowIndex rawRow)) = (rawRow, rowIndex, sectionName).
Proof.
  unfold parseRow.
  apply (fold_left_invariant
           (fun st => rowIdentity (row st) = (rawRow, rowIndex, sectionName)));
    [|done].
  intros st column Hst. by rewrite columnStep_identity.
Qed.

Lemma parseRows_identity defaultStyles theme styles columns sectionName ledger
    rowIndex sectionRows :
  rowIdentity <$> parseRows defaultStyles theme styles columns sectionName
                    ledger rowIndex sectionRows =
  imap (fun i rawRow => (rawRow, (rowIndex + i)%nat, sectionName)) sectionRows.
Proof.
  revert ledger rowIndex.
  induction sectionRows as [|rawRow rest IH]; intros ledger rowIndex; [done|].
  cbn [parseRows fmap list_fmap imap]. rewrite parseRow_identity.
  f_equal; [by rewrite Nat.add_0_r|].
  change (list_fmap _ _ rowIdentity ?l) with (rowIdentity <$> l).
  rewrite IH. apply imap_ext. intros i x _. cbn. by rewrite Nat.add_succ_r.
Qed.

Lemma cellPassStep_identity host hooks r column :
  rowIdentity (cellPassStep host hooks r column) = rowIdentity r.
Proof.
  unfold cellPassStep.
  destruct (_ !! pretty _) as [a|]; [|done]. by destruct (_ !! a).
Qed.

Lemma cellPass_identity host hooks columns r :
  rowIdentity (cellPass host hooks columns r) = rowIdentity r.
Proof.
  unfold cellPass.
  apply (fold_left_invariant (fun r' => rowIdentity r' = rowIdentity r)); [|done].
  intros r' column Hr'. by rewrite cellPassStep_identity.
Qed.

Lemma parseContent_section host table sectionName :
  table_section (parseContent host table) sectionName =
  cellPass host (Table.hooks table) (columnsOf table) <$>
    gridOf host table sectionName.
Proof. by destruct sectionName. Qed.

Lemma parseContent_section_opt host table sectionName :
  section_opt (Table.settings (parseContent host table)) sectionName =
  Some (sectionRowsOf (contentOf (Table.settings table)) (columnsOf table)
          sectionName).
Proof. by destruct sectionName. Qed.

(** X5. Every section of the parsed table has one row object per row of
    that section of the settings as [parseContent] leaves them (with the
    generated head or foot row, if any), in the same order; the row object has
    the input row as [raw], its position as [index] and the section as
    [section]. A row covered by row spans is no exception. *)
Theorem section_rows (host : Host) (table : Table) (sectionName : Section) :
  let parsed := parseContent host table in
  rowIdentity <$> table_section parsed sectionName =
  imap (fun i rawRow => (rawRow, i, sectionName))
    (default [] (section_opt (Table.settings parsed) sectionName)).
Proof.
  cbn zeta. rewrite parseContent_section, parseContent_section_opt.
  cbn [default]. rewrite <- list_fmap_compose.
  erewrite list_fmap_ext;
    [|intros i r _; apply (cellPass_identity host (Table.hooks table)
                             (columnsOf table) r)].
  unfold gridOf, parseSection. by rewrite parseRows_identity.
Qed.

Lemma cellPass_raw host hooks columns r :
  Row.raw (cellPass host hooks columns r) = Row.raw r.
Proof.
  pose proof (cellPass_identity host hooks columns r) as H.
  unfold rowIdentity in H. congruence.
Qed.

Lemma parseRows_raw defaultStyles theme styles columns sectionName ledger
    rowIndex sectionRows :
  Row.raw <$> parseRows defaultStyles theme styles columns sectionName
                ledger rowIndex sectionRows = sectionRows.
Proof.
  revert ledger rowIndex.
  induction sectionRows as [|rawRow rest IH]; intros ledger rowIndex; [done|].
  cbn [parseRows fmap list_fmap].
  change (list_fmap _ _ Row.raw ?l) with (Row.raw <$> l). rewrite IH.
  pose proof (parseRow_identity defaultStyles theme styles columns sectionName
                ledger rowIndex rawRow) as H.
  unfold rowIdentity in H. congruence.
Qed.

Lemma parseContent_raws host table sectionName :
  Row.raw <$> table_section (parseContent host table) sectionName =
  sectionRowsOf (contentOf (Table.settings table)) (columnsOf table) sectionName.
Proof.
  rewrite parseContent_section, <- list_fmap_compose.
  erewrite list_fmap_ext;
    [|intros i r _; apply (cellPass_raw host (Table.hooks table)
                             (columnsOf table) r)].
  unfold gridOf, parseSection. by rewrite parseRows_raw.
Qed.

(** ** The columns of the table *)

Lemma aggregateStep_raw styles r column :
  Column.raw (aggregateStep styles r column) = Column.raw column.
Proof.
  unfold aggregateStep, respectColumnStyles.
  destruct (Row.cell _ _) as [c|].
  - destruct (Cell.colSpan c =? 1); cbn [Column.raw];
      repeat match goal with
             | |- context [if ?b then _ else _] => destruct b
             | |- context [match ?x with Some _ => _ | None => _ end] => destruct x
             end; done.
  - repeat match goal with
           | |- context [if ?b then _ else _] => destruct b
           | |- context [match ?x with Some _ => _ | None => _ end] => destruct x
           end; done.
Qed.

Lemma aggregateColumn_identity styles rows column :
  columnIdentity (aggregateColumn styles rows column) = columnIdentity column.
Proof.
  unfold aggregateColumn.
  apply (fold_left_invariant (fun c => columnIdentity c = columnIdentity column));
    [|done].
  intros c r <-. unfold columnIdentity.
  by rewrite aggregateStep_dataKey, aggregateStep_raw, aggregateStep_index.
Qed.

Lemma aggregate_identity styles rows columns :
  columnIdentity <$> aggregate styles rows columns = columnIdentity <$> columns.
Proof.
  apply list_eq. intros j. rewrite !list_lookup_fmap, aggregate_lookup.
  destruct (columns !! j) as [column|]; [|done].
  cbn. by rewrite aggregateColumn_identity.
Qed.

Lemma getTableColumns_explicit settings cols :
  columns settings = Some cols →
  getTableColumns settings =
  imap (fun index input => Column.new (explicitKey input index) input index) cols.
Proof.
  intros Hcols. unfold getTableColumns. rewrite Hcols.
  apply imap_ext. by intros i [k|d] _.
Qed.

Lemma parseContent_explicit host table cols :
  columns_opt (Table.settings table) = Some cols →
  columnIdentity <$> Table.columns (parseContent host table) =
  imap (fun index input => (explicitKey input index, input, index)) cols.
Proof.
  intros Hcols. rewrite parseContent_columns, aggregate_identity.
  unfold columnsOf. rewrite (getTableColumns_explicit _ cols) by done.
  by rewrite fmap_imap.
Qed.

(** X6. With [columns] in the settings the table has one column per
    entry, in order: the index of the column is its position, its raw input
    is the entry, and its [dataKey] is [entry.dataKey || entry.key || index].
    An entry that is a string or a number has no [dataKey] or [key] and gets
    its position; a [dataKey] or [key] that is the empty string or zero is
    passed over. *)
Theorem explicit_columns (host : Host) (table : Table) (cols : list ColumnInput) :
  columns_opt (Table.settings table) = Some cols →
  columnIdentity <$> Table.columns (parseContent host table) =
  imap (fun index input => (explicitKey input index, input, index)) cols.
Proof. apply parseContent_explicit. Qed.

Lemma explicit_columns_witness :
  let byId :=
    ColObj (Build_ColumnDef (Some (KStr "id")) None None None None None) in
  let byKey :=
    ColObj (Build_ColumnDef (Some (KStr EmptyString)) (Some (KStr "k"))
              None None None None) in
  let cols := [byId; ColScalar (KStr "x"); byKey] in
  let table :=
    newTable Fixture.host0 noOptions noOptions
      (Args1 (Fixture.options (Some cols) None None None None)) in
  columns_opt (Table.settings table) = Some cols ∧
  columnIdentity <$> Table.columns (parseContent Fixture.host0 table) =
    [(KStr "id", byId, 0%nat); (KNum 1, ColScalar (KStr "x"), 1%nat);
     (KStr "k", byKey, 2%nat)].
Proof.
  intros byId byKey cols table. split; [reflexivity|].
  exact (explicit_columns Fixture.host0 table cols eq_refl).
Defined.

(** ** The content of the table *)

Lemma parseInput_section host g d args sectionName :
  table_section (parseInput host g d args) sectionName =
  table_section (parseContent host (newTable host g d args)) sectionName.
Proof.
  destruct sectionName;
    lazy beta iota zeta
      delta [parseInput table_section Table.head Table.body Table.foot];
    reflexivity.
Qed.

Lemma parseInput_columns host g d args :
  Table.columns (parseInput host g d args) =
  Table.columns (parseContent host (newTable host g d args)).
Proof. lazy beta iota zeta delta [parseInput Table.columns]. reflexivity. Qed.

Lemma table_section_body (table : Table) :
  Table.body table = table_section table body.
Proof. reflexivity. Qed.

Lemma newTable_columns_opt host g d args :
  columns_opt (Table.settings (newTable host g d args)) =
  inForce columns_opt host g d args.
Proof. reflexivity. Qed.

Lemma newTable_section host g d args sectionName :
  settings_section (contentOf (Table.settings (newTable host g d args))) sectionName =
  sectionInForce host g d args sectionName.
Proof. by destruct sectionName. Qed.

Lemma parseInput_raws host g d args sectionName :
  Row.raw <$> table_section (parseInput host g d args) sectionName =
  sectionRowsOf (contentOf (Table.settings (newTable host g d args)))
    (columnsOf (newTable host g d args)) sectionName.
Proof. by rewrite parseInput_section, parseContent_raws. Qed.

(** X7. The rows of a section are those of the parsed HTML table when
    [html] is in force, is not the empty string and the parser gives a
    result; else those of the option in force; else none. This is so for the
    body, and for the head and the foot when that list of rows is not empty or
    when no [columns] are in force (otherwise a row may be generated from the
    columns). *)
Theorem content_source (host : Host) (globalOptions documentOptions : UserOptions)
    (args : Args) (sectionName : Section) :
  sectionName = body ∨
  sectionInForce host globalOptions documentOptions args sectionName ≠ [] ∨
  inForce columns_opt host globalOptions documentOptions args = None →
  Row.raw <$>
    table_section (parseInput host globalOptions documentOptions args) sectionName
  = sectionInForce host globalOptions documentOptions args sectionName.
Proof.
  intros H. rewrite parseInput_raws, sectionRowsOf_explicit.
  - apply newTable_section.
  - rewrite newTable_section. cbn [columns contentOf].
    rewrite newTable_columns_opt.
    intros (Hempty & Hcols & Hbody).
    destruct H as [->|[H|H]]; [done..|].
    rewrite H in Hcols. by destruct Hcols.
Qed.

Lemma content_source_witness :
  let parsed :=
    Build_HtmlContent [] [Positional [Fixture.str "a"]; Positional [Fixture.str "b"]]
      [] in
  let host := hostParsing parsed in
  let args :=
    Args1 (optionsWith None (Some "#table") None
             (Some [Positional [Fixture.str "x"]])) in
  sectionInForce host noOptions noOptions args body =
    [Positional [Fixture.str "a"]; Positional [Fixture.str "b"]] ∧
  Row.raw <$> Table.body (parseInput host noOptions noOptions args) =
    [Positional [Fixture.str "a"]; Positional [Fixture.str "b"]].
Proof.
  intros parsed host args. split; [reflexivity|].
  exact (content_source host noOptions noOptions args body (or_introl eq_refl)).
Defined.

(** X8. In the deprecated form [autoTable(columns, body, options)],
    when no HTML content is in force, the columns of the table are the entries
    of the first argument, with the [title] of an entry as its [header] where
    it has none, and the body rows are those of the second argument, whatever
    [columns] and [body] the options object has. *)
Theorem deprecated_arguments (host : Host)
    (globalOptions documentOptions : UserOptions)
    (cols : list ColumnInput) (rows : list RowInput) (options : option UserOptions) :
  let args := Args3 cols rows options in
  htmlInForce host globalOptions documentOptions args = None →
  let table := parseInput host globalOptions documentOptions args in
  columnIdentity <$> Table.columns table =
    imap (fun index input => (explicitKey input index, input, index))
      (titleAsHeader <$> cols) ∧
  Row.raw <$> Table.body table = rows.
Proof.
  intros args Hhtml table. split.
  - unfold table. rewrite parseInput_columns. by apply parseContent_explicit.
  - unfold table. rewrite table_section_body, parseInput_raws.
    rewrite sectionRowsOf_explicit.
    + rewrite newTable_section. unfold sectionInForce. by rewrite Hhtml.
    + by intros (_ & _ & ?).
Qed.

Lemma deprecated_arguments_witness :
  let named :=
    ColObj (Build_ColumnDef (Some (KStr "id")) None None
              (Some (Fixture.str "ID")) None None) in
  let headed :=
    ColObj (Build_ColumnDef (Some (KStr "id")) None (Some (Fixture.str "ID"))
              (Some (Fixture.str "ID")) None None) in
  let rows := [Keyed [("id", Fixture.str "1")]] in
  let options :=
    Fixture.options (Some []) None (Some [Positional [Fixture.str "dropped"]])
      None None in
  let args := Args3 [named] rows (Some options) in
  htmlInForce Fixture.host0 noOptions noOptions args = None ∧
  columnIdentity <$>
    Table.columns (parseInput Fixture.host0 noOptions noOptions args) =
    [(KStr "id", headed, 0%nat)] ∧
  Row.raw <$> Table.body (parseInput Fixture.host0 noOptions noOptions args) =
    rows.
Proof.
  intros named headed rows options args. split; [reflexivity|].
  exact (deprecated_arguments Fixture.host0 noOptions noOptions [named] rows
           (Some options) eq_refl).
Defined.

(** X9. When the table has no column (an empty [columns] array, or no
    [columns] and a first row without cells), every row object is still there
    but has no cell. *)
Theorem no_columns_no_cells (host : Host) (table : Table) (r : Row) :
  Table.columns (parseContent host table) = [] →
  r ∈ Table.allRows (parseContent host table) →
  Row.cells r = ∅ ∧ Row.heap r = ∅.
Proof.
  intros Hcols Hr.
  assert (columnsOf table = []) as Hnil.
  { apply (f_equal (fmap columnIdentity)) in Hcols.
    rewrite parseContent_columns, aggregate_identity in Hcols.
    by apply fmap_nil_inv in Hcols. }
  apply elem_of_parseContent_rows in Hr as (sectionName & r0 & Hr0 & ->).
  rewrite Hnil. cbn [cellPass fold_left].
  unfold gridOf, parseSection in Hr0. rewrite Hnil in Hr0.
  apply elem_of_parseRows in Hr0 as (ledger & rowIndex & rawRow & ->).
  done.
Qed.

Lemma no_columns_no_cells_witness :
  let table :=
    newTable Fixture.host0 noOptions noOptions
      (Args1 (Fixture.options (Some []) None
                (Some [Positional [Fixture.str "a"]]) None None)) in
  Table.columns (parseContent Fixture.host0 table) = [] ∧
  ∃ r, Table.allRows (parseContent Fixture.host0 table) = [r] ∧
       Row.cells r = ∅ ∧ Row.heap r = ∅.
Proof.
  intros table.
  assert (Table.columns (parseContent Fixture.host0 table) = []) as Hcols
    by (vm_compute; reflexivity).
  assert (∃ r, Table.allRows (parseContent Fixture.host0 table) = [r])
    as [r Hr] by (vm_compute; eauto).
  split; [done|]. exists r. split; [done|].
  apply (no_columns_no_cells Fixture.host0 table r Hcols).
  rewrite Hr. by left.
Defined.

(** ** The cells of a row *)

Lemma fold_left_invariant_elem {A B : Type} (P : A → Prop) (f : A → B → A)
    (l : list B) (a : A) :
  (∀ a b, b ∈ l → P a → P (f a b)) → P a → P (fold_left f l a).
Proof.
  revert a. induction l as [|b l IH]; intros a Hstep Ha; [done|].
  cbn [fold_left]. apply IH.
  - intros a' b' Hb'. apply Hstep. by right.
  - apply Hstep; [by left|done].
Qed.

Lemma columnStep_namedBy defaultStyles theme styles columns sectionName rawRow
    rowIndex st column :
  column ∈ columns →
  namedBy columns (row st) →
  namedBy columns (row (columnStep defaultStyles theme styles sectionName rawRow
                          rowIndex st column)).
Proof.
  intros Hin [Hcells Hheap]. unfold columnStep.
  destruct (noRowSpanLeft _ _).
  - destruct (columnSpansLeft st =? 0); [|done].
    cbn [row]. split.
    + intros key a. rewrite !cells_setCell, cells_alloc.
      destruct (decide (key = pretty (Column.index column))) as [->|Hne1].
      { rewrite lookup_insert_eq. intros [= <-]. exists column. auto. }
      rewrite lookup_insert_ne by done.
      destruct (decide (key = propKey (Column.dataKey column))) as [->|Hne2].
      { rewrite lookup_insert_eq. intros [= <-]. exists column. auto. }
      rewrite lookup_insert_ne by done. apply Hcells.
    + intros a. rewrite !heap_setCell, heap_alloc.
      destruct (decide (a = Column.index column)) as [->|Hne].
      { intros _. by exists column. }
      rewrite lookup_insert_ne by done. apply Hheap.
  - by destruct (_ !! Column.index column).
Qed.

Lemma parseRow_namedBy defaultStyles theme styles columns sectionName ledger
    rowIndex rawRow :
  namedBy columns (row (parseRow defaultStyles theme styles columns sectionName
                          ledger rowIndex rawRow)).
Proof.
  unfold parseRow.
  apply (fold_left_invariant_elem (fun st => namedBy columns (row st))).
  - intros st column Hin Hst. by apply columnStep_namedBy.
  - split.
    + intros key a. cbn. by rewrite lookup_empty.
    + intros a. cbn. rewrite lookup_empty. by intros [? ?].
Qed.

Lemma cellPassStep_namedBy host hooks columns r column :
  namedBy columns r → namedBy columns (cellPassStep host hooks r column).
Proof.
  intros [Hcells Hheap]. unfold cellPassStep.
  destruct (_ !! pretty _) as [a|]; [|done].
  destruct (Row.heap r !! a) as [c|] eqn:Ha; [|done].
  split.
  - intros key a'. rewrite cells_alloc. apply Hcells.
  - intros a'. rewrite heap_alloc.
    destruct (decide (a' = a)) as [->|Hne].
    + intros _. apply Hheap. by rewrite Ha.
    + rewrite lookup_insert_ne by done. apply Hheap.
Qed.

Lemma cellPass_namedBy host hooks columns columns' r :
  namedBy columns r → namedBy columns (cellPass host hooks columns' r).
Proof.
  unfold cellPass. apply fold_left_invariant.
  intros r' column. apply cellPassStep_namedBy.
Qed.

Lemma parsed_rows_namedBy host table r :
  r ∈ Table.allRows (parseContent host table) → namedBy (columnsOf table) r.
Proof.
  intros (sectionName & r0 & Hr0 & ->)%elem_of_parseContent_rows.
  unfold gridOf, parseSection in Hr0.
  apply elem_of_parseRows in Hr0 as (ledger & rowIndex & rawRow & ->).
  apply cellPass_namedBy, parseRow_namedBy.
Qed.

Lemma parsed_column host table column0 :
  column0 ∈ columnsOf table →
  aggregateColumn (Table.styles table) (Table.allRows (parseContent host table))
    column0 ∈ Table.columns (parseContent host table).
Proof.
  intros (j & Hj)%list_elem_of_lookup.
  apply list_elem_of_lookup. exists j.
  by rewrite parseContent_columns, aggregate_lookup, Hj.
Qed.

Lemma parsed_column_inv host table column :
  column ∈ Table.columns (parseContent host table) →
  ∃ column0, column0 ∈ columnsOf table ∧
    column = aggregateColumn (Table.styles table)
               (Table.allRows (parseContent host table)) column0.
Proof.
  intros (j & Hj)%list_elem_of_lookup.
  rewrite parseContent_columns, aggregate_lookup in Hj.
  destruct (columnsOf table !! j) as [column0|] eqn:Hj0; [|done].
  injection Hj as <-. exists column0. split; [|done].
  by eapply list_elem_of_lookup_2.
Qed.

(** X10. A row of the parsed table holds cells only under names of
    columns of the table: whenever [row.cells[key]] is a cell, [key] is the
    [dataKey] or the index of some column. *)
Theorem row_cells_named (host : Host) (table : Table) (r : Row) (key : string)
    (c : Cell) :
  r ∈ Table.allRows (parseContent host table) →
  Row.cell r key = Some c →
  ∃ column, column ∈ Table.columns (parseContent host table) ∧
    (key = propKey (Column.dataKey column) ∨ key = pretty (Column.index column)).
Proof.
  intros Hr Hc. destruct (parsed_rows_namedBy host table r Hr) as [Hcells _].
  unfold Row.cell in Hc.
  destruct (Row.cells r !! key) as [a|] eqn:Ha; [|done].
  destruct (Hcells key a Ha) as (column0 & Hin & _ & Hkey).
  exists (aggregateColumn (Table.styles table)
            (Table.allRows (parseContent host table)) column0).
  split; [by apply parsed_column|].
  pose proof (aggregateColumn_identity (Table.styles table)
                (Table.allRows (parseContent host table)) column0) as Hid.
  unfold columnIdentity in Hid. injection Hid as -> _ ->. done.
Qed.

Lemma row_cells_named_witness :
  let table :=
    newTable Fixture.host0 noOptions noOptions
      (Args1 (Fixture.options None None
                (Some [Keyed [("name", Fixture.str "a")]]) None None)) in
  ∃ r c,
    r ∈ Table.allRows (parseContent Fixture.host0 table) ∧
    Row.cell r "name" = Some c ∧
    ∃ column, column ∈ Table.columns (parseContent Fixture.host0 table) ∧
      ("name" = propKey (Column.dataKey column) ∨
       "name" = pretty (Column.index column)).
Proof.
  intros table.
  assert (∃ r, Table.allRows (parseContent Fixture.host0 table) !! 0%nat = Some r)
    as [r Hr] by (vm_compute; eauto).
  assert (∃ c, Row.cell r "name" = Some c) as [c Hc].
  { revert Hr. vm_compute. intros [= <-]. eauto. }
  assert (r ∈ Table.allRows (parseContent Fixture.host0 table)) as Hin
    by (by eapply list_elem_of_lookup_2).
  exists r, c. split; [done|]. split; [done|].
  exact (row_cells_named Fixture.host0 table r "name" c Hin Hc).
Defined.

(** White space is that of [\s]: runs of spaces split once, a no-break space
    (U+00A0) and an em space (U+2003) split, a zero-width space (U+200B) and
    the bytes of a letter outside Basic Latin do not. *)
Lemma splitWhitespace_examples :
  splitWhitespace " one  two" = [""; "one"; "two"] ∧
  splitWhitespace ("a" +:+ String "194" (String "160" "bcd")) = ["a"; "bcd"] ∧
  splitWhitespace
    ("a" +:+ String "226" (String "128" (String "131" "b "))) = ["a"; "b"; ""] ∧
  splitWhitespace ("a" +:+ String "226" (String "128" (String "139" "b")))
    = ["a" +:+ String "226" (String "128" (String "139" "b"))] ∧
  splitWhitespace ("caf" +:+ String "195" (String "169" " au lait"))
    = ["caf" +:+ String "195" (String "169" ""); "au"; "lait"].
Proof. repeat split. Qed.

(** X11. After parsing, the text of a cell found under the index of a
    column is an array of lines, even when a hook has replaced it by a string;
    the content width of the cell is the width of these lines in the style of
    the cell plus its horizontal padding, and its minimum readable width is
    the width of the words of the lines (joined by a space and split at white
    space, that of [\s]: a no-break space splits too) in that style plus the
    same padding. *)
Theorem cell_text_lines (host : Host) (table : Table) (r : Row)
    (column : Column) (c : Cell) :
  r ∈ Table.allRows (parseContent host table) →
  column ∈ Table.columns (parseContent host table) →
  Row.cell r (pretty (Column.index column)) = Some c →
  ∃ lines,
    Cell.text c = Cell.Lines lines ∧
    Cell.contentWidth c =
      (getStringWidth host lines (Cell.styles c)
       + padding_horizontal host (Cell.styles c))%Q ∧
    Cell.minReadableWidth c =
      (getStringWidth host (splitWhitespace (join " " lines)) (Cell.styles c)
       + padding_horizontal host (Cell.styles c))%Q.
Proof.
  intros (sectionName & r0 & _ & ->)%elem_of_parseContent_rows
         (column0 & Hin0 & <-)%elem_of_parseContent_columns Hc.
  destruct (cellPass_resolved _ _ _ _ _ _ Hin0 Hc) as [c0 ->].
  by exists (textLines (Cell.text c0)).
Qed.

Lemma cell_text_lines_witness :
  let text := "one" +:+ String "194" (String "160" "three") in
  let table :=
    newTable Fixture.host0 noOptions noOptions
      (Args1 (optionsWith None None (Some (retitle text))
                (Some [Positional [Fixture.str "a"]]))) in
  ∃ r column c,
    r ∈ Table.allRows (parseContent Fixture.host0 table) ∧
    column ∈ Table.columns (parseContent Fixture.host0 table) ∧
    Row.cell r (pretty (Column.index column)) = Some c ∧
    Cell.text c = Cell.Lines [text] ∧
    splitWhitespace text = ["one"; "three"] ∧
    Cell.minReadableWidth c = 35%Q ∧
    ∃ lines,
      Cell.text c = Cell.Lines lines ∧
      Cell.contentWidth c =
        (getStringWidth Fixture.host0 lines (Cell.styles c)
         + padding_horizontal Fixture.host0 (Cell.styles c))%Q ∧
      Cell.minReadableWidth c =
        (getStringWidth Fixture.host0
           (splitWhitespace (join " " lines)) (Cell.styles c)
         + padding_horizontal Fixture.host0 (Cell.styles c))%Q.
Proof.
  intros text table.
  assert (∃ r, Table.allRows (parseContent Fixture.host0 table) !! 0%nat = Some r)
    as [r Hr] by (vm_compute; eauto).
  assert (∃ column, Table.columns (parseContent Fixture.host0 table) !! 0%nat
                    = Some column ∧ Column.index column = 0%nat)
    as (column & Hcolumn & Hindex) by (vm_compute; eauto).
  assert (∃ c, Row.cell r (pretty 0%nat) = Some c ∧
               Cell.text c = Cell.Lines [text] ∧
               Cell.minReadableWidth c = 35%Q) as (c & Hc & Htext & Hwidth).
  { revert Hr. vm_compute. intros [= <-]. eauto. }
  assert (r ∈ Table.allRows (parseContent Fixture.host0 table)) as Hin
    by (by eapply list_elem_of_lookup_2).
  assert (column ∈ Table.columns (parseContent Fixture.host0 table)) as Hin'
    by (by eapply list_elem_of_lookup_2).
  rewrite <- Hindex in Hc.
  exists r, column, c. split; [done|]. split; [done|]. split; [done|].
  split; [done|]. split; [reflexivity|]. split; [done|].
  exact (cell_text_lines Fixture.host0 table r column c Hin Hin' Hc).
Defined.

(** ** The widths of a column *)

Lemma Math_max_l (a b : Q) : (a <= Math_max a b)%Q.
Proof.
  unfold Math_max. destruct (Qle_bool a b) eqn:Hab.
  - by apply Qle_bool_iff.
  - apply Qle_refl.
Qed.

Lemma Math_max_r (a b : Q) : (b <= Math_max a b)%Q.
Proof.
  unfold Math_max. destruct (Qle_bool a b) eqn:Hab.
  - apply Qle_refl.
  - destruct (Qlt_le_dec b a) as [Hlt|Hle]; [by apply Qlt_le_weak|].
    apply Qle_bool_iff in Hle. congruence.
Qed.

Lemma Math_max_cases (a b : Q) : Math_max a b = a ∨ Math_max a b = b.
Proof. unfold Math_max. destruct (Qle_bool a b); auto. Qed.

Lemma Math_max_mono (a b a' b' : Q) :
  (a <= a')%Q → (b <= b')%Q → (Math_max a b <= Math_max a' b')%Q.
Proof.
  intros Ha Hb. apply Math_max_le.
  - eapply Qle_trans; [exact Ha|apply Math_max_l].
  - eapply Qle_trans; [exact Hb|apply Math_max_r].
Qed.

Lemma Qzero_true (q : Q) : Qzero q = true ↔ (q == 0)%Q.
Proof. unfold Qzero. apply Qeq_bool_iff. Qed.

Lemma Qzero_false (q : Q) : Qzero q = false ↔ ¬ (q == 0)%Q.
Proof.
  unfold Qzero. split.
  - intros H H0. apply Qeq_bool_iff in H0. congruence.
  - intros H. destruct (Qeq_bool q 0) eqn:Hq; [|done].
    by apply Qeq_bool_iff in Hq.
Qed.

Lemma aggregateColumn_snoc styles rows r column :
  aggregateColumn styles (rows ++ [r]) column =
  aggregateStep styles r (aggregateColumn styles rows column).
Proof. unfold aggregateColumn. by rewrite fold_left_app. Qed.

Lemma getTableColumns_fresh (settings : Content) (column : Column) :
  column ∈ getTableColumns settings →
  Column.minReadableWidth column = 0%Q.
Proof.
  intros (i & Hi)%list_elem_of_lookup. revert Hi.
  destruct (columns settings) as [cols|] eqn:Hcols.
  - unfold getTableColumns. rewrite Hcols, list_lookup_imap.
    destruct (cols !! i); [|done]. by intros [= <-].
  - rewrite (inferred_columns settings Hcols).
    destruct (default _ _); rewrite numberedFrom_lookup;
      (destruct (_ !! i); [|done]); by intros [= <-].
Qed.

Lemma respectColumnStyles_id styles column :
  noFixedWidth styles column → respectColumnStyles styles column = column.
Proof.
  intros Hfree. unfold respectColumnStyles.
  destruct (typeof_number _) as [w|] eqn:Hw; [|done].
  by rewrite (Hfree w).
Qed.

(** The three cases of the loop body: a cell with [colSpan] 1, another cell,
    no cell. *)
Lemma aggregateStep_minReadableWidth styles r column :
  Column.minReadableWidth (aggregateStep styles r column) =
  match Row.cell r (pretty (Column.index column)) with
  | Some c =>
      if Cell.colSpan c =? 1
      then Math_max (Column.minReadableWidth column) (Cell.minReadableWidth c)
      else Column.minReadableWidth column
  | None => Column.minReadableWidth column
  end.
Proof.
  unfold aggregateStep, respectColumnStyles.
  destruct (Row.cell _ _) as [c|].
  - destruct (Cell.colSpan c =? 1); cbn [Column.minReadableWidth];
      repeat match goal with
             | |- context [if ?b then _ else _] => destruct b
             | |- context [match ?x with Some _ => _ | None => _ end] => destruct x
             end; done.
  - repeat match goal with
           | |- context [if ?b then _ else _] => destruct b
           | |- context [match ?x with Some _ => _ | None => _ end] => destruct x
           end; done.
Qed.

Lemma aggregateColumn_minReadableWidth styles rows column0 :
  let column := aggregateColumn styles rows column0 in
  (Column.minReadableWidth column0 <= Column.minReadableWidth column)%Q ∧
  (∀ r c, r ∈ rows →
     Row.cell r (pretty (Column.index column0)) = Some c → Cell.colSpan c = 1 →
     (Cell.minReadableWidth c <= Column.minReadableWidth column)%Q) ∧
  (Column.minReadableWidth column = Column.minReadableWidth column0 ∨
   ∃ r c, r ∈ rows ∧
     Row.cell r (pretty (Column.index column0)) = Some c ∧ Cell.colSpan c = 1 ∧
     Column.minReadableWidth column = Cell.minReadableWidth c).
Proof.
  cbn zeta. induction rows as [|r rows IH] using rev_ind.
  - split; [apply Qle_refl|]. split; [by intros r c ?%elem_of_nil|by left].
  - destruct IH as (Hge & Hall & Hsome).
    rewrite aggregateColumn_snoc, aggregateStep_minReadableWidth.
    destruct (aggregateColumn_same styles rows column0) as [-> _].
    set (column := aggregateColumn styles rows column0) in *.
    assert (∀ q, (Column.minReadableWidth column <= q)%Q →
              (Column.minReadableWidth column0 <= q)%Q ∧
              (∀ r' c, r' ∈ rows →
                 Row.cell r' (pretty (Column.index column0)) = Some c →
                 Cell.colSpan c = 1 → (Cell.minReadableWidth c <= q)%Q)) as Hup.
    { intros q Hq. split; [by eapply Qle_trans|].
      intros r' c Hr' Hc Hspan. eapply Qle_trans; [|exact Hq]. by eapply Hall. }
    assert ((Column.minReadableWidth column = Column.minReadableWidth column0 ∨
             ∃ r' c, r' ∈ rows ++ [r] ∧
               Row.cell r' (pretty (Column.index column0)) = Some c ∧
               Cell.colSpan c = 1 ∧
               Column.minReadableWidth column = Cell.minReadableWidth c)) as Hsome'.
    { destruct Hsome as [?|(r' & c & Hr' & ?)]; [by left|right].
      exists r', c. split; [|done]. apply elem_of_app. by left. }
    destruct (Row.cell r (pretty (Column.index column0))) as [c|] eqn:Hc.
    + destruct (Z.eqb_spec (Cell.colSpan c) 1) as [Hspan|Hspan].
      * destruct (Hup (Math_max (Column.minReadableWidth column)
                         (Cell.minReadableWidth c)) (Math_max_l _ _))
          as [Hge' Hall'].
        split; [done|]. split.
        -- intros r' c' [Hr'|Hr']%elem_of_app Hc' Hspan';
          [|apply list_elem_of_singleton in Hr' as ->].
           ++ by eapply Hall'.
           ++ rewrite Hc in Hc'. injection Hc' as <-. apply Math_max_r.
        -- destruct (Math_max_cases (Column.minReadableWidth column)
                       (Cell.minReadableWidth c)) as [->| ->]; [done|].
           right. exists r, c. split; [|done].
           apply elem_of_app. right. by apply list_elem_of_singleton.
      * destruct (Hup _ (Qle_refl _)) as [Hge' Hall'].
        split; [done|]. split; [|done].
        intros r' c' [Hr'|Hr']%elem_of_app Hc' Hspan';
          [|apply list_elem_of_singleton in Hr' as ->].
        -- by eapply Hall'.
        -- rewrite Hc in Hc'. by injection Hc' as <-.
    + destruct (Hup _ (Qle_refl _)) as [Hge' Hall'].
      split; [done|]. split; [|done].
      intros r' c' [Hr'|Hr']%elem_of_app Hc' Hspan';
          [|apply list_elem_of_singleton in Hr' as ->].
      * by eapply Hall'.
      * by rewrite Hc in Hc'.
Qed.

(** X12. The minimum readable width of a column of the parsed
    table is the greatest of zero and the minimum readable widths of the cells
    with [colSpan] 1 that the rows hold under the index of the column: it is
    not negative, no such cell exceeds it, and it is zero or the width of such
    a cell. Neither a spanning cell nor [columnStyles] changes it. *)
Theorem column_minReadableWidth (host : Host) (table : Table) (column : Column) :
  column ∈ Table.columns (parseContent host table) →
  let rows := Table.allRows (parseContent host table) in
  (0 <= Column.minReadableWidth column)%Q ∧
  (∀ r c, r ∈ rows →
     Row.cell r (pretty (Column.index column)) = Some c → Cell.colSpan c = 1 →
     (Cell.minReadableWidth c <= Column.minReadableWidth column)%Q) ∧
  (Column.minReadableWidth column = 0%Q ∨
   ∃ r c, r ∈ rows ∧
     Row.cell r (pretty (Column.index column)) = Some c ∧ Cell.colSpan c = 1 ∧
     Column.minReadableWidth column = Cell.minReadableWidth c).
Proof.
  intros (column0 & Hin0 & ->)%parsed_column_inv. cbn zeta.
  destruct (aggregateColumn_same (Table.styles table)
              (Table.allRows (parseContent host table)) column0) as [-> _].
  pose proof (aggregateColumn_minReadableWidth (Table.styles table)
                (Table.allRows (parseContent host table)) column0) as H.
  cbn zeta in H. rewrite (getTableColumns_fresh _ column0 Hin0) in H.
  exact H.
Qed.

Lemma column_minReadableWidth_witness :
  let table :=
    newTable Fixture.host0 noOptions noOptions
      (Args1 (Fixture.options None None
                (Some [Positional [Fixture.str "one three"];
                       Positional [Fixture.str "a"]]) None None)) in
  ∃ column,
    Table.columns (parseContent Fixture.host0 table) = [column] ∧
    Column.minReadableWidth column = 35%Q ∧
    let rows := Table.allRows (parseContent Fixture.host0 table) in
    (0 <= Column.minReadableWidth column)%Q ∧
    (∀ r c, r ∈ rows →
       Row.cell r (pretty (Column.index column)) = Some c → Cell.colSpan c = 1 →
       (Cell.minReadableWidth c <= Column.minReadableWidth column)%Q) ∧
    (Column.minReadableWidth column = 0%Q ∨
     ∃ r c, r ∈ rows ∧
       Row.cell r (pretty (Column.index column)) = Some c ∧ Cell.colSpan c = 1 ∧
       Column.minReadableWidth column = Cell.minReadableWidth c).
Proof.
  intros table.
  assert (∃ column, Table.columns (parseContent Fixture.host0 table) = [column] ∧
                    Column.minReadableWidth column = 35%Q)
    as (column & Hcolumns & Hwidth) by (vm_compute; eauto).
  exists column. split; [done|]. split; [done|].
  apply (column_minReadableWidth Fixture.host0 table column).
  rewrite Hcolumns. by left.
Defined.

Lemma aggregateStep_minWidth styles r column :
  Column.minWidth (aggregateStep styles r column) =
  match Row.cell r (pretty (Column.index column)) with
  | Some c =>
      if Cell.colSpan c =? 1
      then Math_max (Column.minWidth column) (Cell.minWidth c)
      else if (1 <? Cell.colSpan c)
              && Qzero (Column.minWidth (respectColumnStyles styles column))
           then Cell.minWidth c
           else Column.minWidth (respectColumnStyles styles column)
  | None => Column.minWidth (respectColumnStyles styles column)
  end.
Proof.
  unfold aggregateStep.
  destruct (Row.cell _ _) as [c|]; [|done].
  destruct (Z.eqb_spec (Cell.colSpan c) 1) as [Hspan|Hspan].
  - rewrite Hspan. change (1 <? 1) with false. by cbn [andb].
  - destruct (1 <? Cell.colSpan c); cbn [andb]; [|done].
    repeat match goal with
           | |- context [if ?b then _ else _] => destruct b
           end; done.
Qed.

Lemma aggregateStep_wrappedWidth styles r column :
  Column.wrappedWidth (aggregateStep styles r column) =
  match Row.cell r (pretty (Column.index column)) with
  | Some c =>
      if Cell.colSpan c =? 1
      then Math_max (Column.wrappedWidth column) (Cell.wrappedWidth c)
      else if (1 <? Cell.colSpan c)
              && Qzero (Column.wrappedWidth (respectColumnStyles styles column))
           then Cell.minWidth c
           else Column.wrappedWidth (respectColumnStyles styles column)
  | None => Column.wrappedWidth (respectColumnStyles styles column)
  end.
Proof.
  unfold aggregateStep.
  destruct (Row.cell _ _) as [c|]; [|done].
  destruct (Z.eqb_spec (Cell.colSpan c) 1) as [Hspan|Hspan].
  - rewrite Hspan. change (1 <? 1) with false. by cbn [andb].
  - destruct (1 <? Cell.colSpan c); cbn [andb]; [|done].
    destruct (Qzero (Column.minWidth (respectColumnStyles styles column)));
      cbn [Column.wrappedWidth Column.set_minWidth];
      by destruct (Qzero (Column.wrappedWidth (respectColumnStyles styles column))).
Qed.

(** The widths [respectColumnStyles] leaves are those of the column, or both
    the fixed width. *)
Lemma respectColumnStyles_cases styles column :
  respectColumnStyles styles column = column ∨
  ∃ w, Qzero w = false ∧
    Column.minWidth (respectColumnStyles styles column) = w ∧
    Column.wrappedWidth (respectColumnStyles styles column) = w.
Proof.
  unfold respectColumnStyles.
  destruct (typeof_number _) as [w|]; [|by left].
  destruct (Qzero w) eqn:Hw; [by left|].
  right. by exists w.
Qed.

Lemma respectColumnStyles_ordered styles column :
  widthsOrdered column → widthsOrdered (respectColumnStyles styles column).
Proof.
  intros H. destruct (respectColumnStyles_cases styles column)
    as [->|(w & _ & Hmin & Hwrapped)]; [done|].
  unfold widthsOrdered. rewrite Hmin, Hwrapped. split; [apply Qle_refl|done].
Qed.

Lemma Qzero_positive_false (q : Q) : (0 < q)%Q → Qzero q = false.
Proof.
  intros Hq. apply Qzero_false. intros H0. rewrite H0 in Hq.
  by apply Qlt_irrefl in Hq.
Qed.

Lemma aggregateStep_ordered styles r column :
  (∀ c, Row.cell r (pretty (Column.index column)) = Some c →
        Cell.colSpan c = 1 →
        (0 < Cell.minWidth c)%Q ∧ (Cell.minWidth c <= Cell.wrappedWidth c)%Q) →
  widthsOrdered column → widthsOrdered (aggregateStep styles r column).
Proof.
  intros Hcell Hcol.
  pose proof (respectColumnStyles_ordered styles column Hcol) as [Hle Hzero].
  unfold widthsOrdered.
  rewrite aggregateStep_minWidth, aggregateStep_wrappedWidth.
  destruct (Row.cell r (pretty (Column.index column))) as [c|]; [|done].
  destruct (Z.eqb_spec (Cell.colSpan c) 1) as [Hspan|Hspan].
  - destruct (Hcell c eq_refl Hspan) as [Hpos Hcle].
    destruct Hcol as [Hcolle _].
    assert (0 < Math_max (Column.minWidth column) (Cell.minWidth c))%Q as Hmin.
    { eapply Qlt_le_trans; [exact Hpos|apply Math_max_r]. }
    assert (Math_max (Column.minWidth column) (Cell.minWidth c)
            <= Math_max (Column.wrappedWidth column) (Cell.wrappedWidth c))%Q
      as Hmono by by apply Math_max_mono.
    split; [done|].
    rewrite !Qzero_positive_false; [done| |done].
    by eapply Qlt_le_trans.
  - rewrite <- Hzero.
    destruct ((1 <? Cell.colSpan c) && Qzero _); [|done].
    split; [apply Qle_refl|done].
Qed.

Lemma aggregateColumn_ordered styles rows column0 :
  (∀ r c, r ∈ rows →
     Row.cell r (pretty (Column.index column0)) = Some c → Cell.colSpan c = 1 →
     (0 < Cell.minWidth c)%Q ∧ (Cell.minWidth c <= Cell.wrappedWidth c)%Q) →
  widthsOrdered column0 →
  widthsOrdered (aggregateColumn styles rows column0).
Proof.
  intros Hcells H0. induction rows as [|r rows IH] using rev_ind; [done|].
  rewrite aggregateColumn_snoc. apply aggregateStep_ordered.
  - destruct (aggregateColumn_same styles rows column0) as [-> _].
    intros c. apply Hcells. apply elem_of_app. right.
    by apply list_elem_of_singleton.
  - apply IH. intros r' c Hr'. apply Hcells. apply elem_of_app. by left.
Qed.

Lemma parsed_cell_ordered host table r key c :
  r ∈ Table.allRows (parseContent host table) →
  Row.cell r key = Some c →
  (Cell.minWidth c <= Cell.wrappedWidth c)%Q.
Proof.
  intros (sectionName & r0 & Hr0 & ->)%elem_of_parseContent_rows Hc.
  unfold gridOf, parseSection in Hr0.
  apply elem_of_parseRows in Hr0 as (ledger & rowIndex & rawRow & ->).
  unfold Row.cell in Hc.
  destruct (Row.cells _ !! key) as [a|]; [|done]. cbn [mbind option_bind] in Hc.
  pose proof (parseRow_heapOrdered (defaultStyles host)
                (getTheme host (theme (Table.settings table)))
                (Table.styles table) (columnsOf table) sectionName ledger
                rowIndex rawRow) as Hfresh.
  exact (cellPass_heapOrdered host (Table.hooks table) (columnsOf table) _
           Hfresh a c Hc).
Qed.

Lemma parsed_column_ordered host table column :
  column ∈ Table.columns (parseContent host table) →
  (∀ r c, r ∈ Table.allRows (parseContent host table) →
     Row.cell r (pretty (Column.index column)) = Some c → Cell.colSpan c = 1 →
     (0 < Cell.minWidth c)%Q) →
  (Column.minWidth column <= Column.wrappedWidth column)%Q.
Proof.
  intros (column0 & Hin0 & ->)%parsed_column_inv.
  destruct (aggregateColumn_same (Table.styles table)
              (Table.allRows (parseContent host table)) column0) as [-> _].
  intros Hpos.
  apply aggregateColumn_ordered.
  - intros r c Hr Hc Hspan. split; [by eapply Hpos|].
    by eapply parsed_cell_ordered.
  - destruct (getTableColumns_new _ column0 Hin0) as [Hmin Hwrapped].
    unfold widthsOrdered. rewrite Hmin, Hwrapped. done.
Qed.

(** X13. The minimum width of a column of the parsed table is at most
    its wrapped width, provided that every cell with [colSpan] 1 that a row
    holds under the index of the column has a positive minimum width. *)
Theorem column_widths_ordered (host : Host) (table : Table) (column : Column) :
  column ∈ Table.columns (parseContent host table) →
  (∀ r c, r ∈ Table.allRows (parseContent host table) →
     Row.cell r (pretty (Column.index column)) = Some c → Cell.colSpan c = 1 →
     (0 < Cell.minWidth c)%Q) →
  (Column.minWidth column <= Column.wrappedWidth column)%Q.
Proof. apply parsed_column_ordered. Qed.

Lemma column_widths_ordered_witness :
  let table :=
    newTable Fixture.host0 noOptions noOptions
      (Args1 (Fixture.options None None
                (Some [Positional [Fixture.str "abc"]]) None None)) in
  ∃ column,
    Table.columns (parseContent Fixture.host0 table) = [column] ∧
    Column.minWidth column = 10%Q ∧ Column.wrappedWidth column = 25%Q ∧
    (Column.minWidth column <= Column.wrappedWidth column)%Q.
Proof.
  intros table.
  assert (∃ column, Table.columns (parseContent Fixture.host0 table) = [column] ∧
                    Column.index column = 0%nat ∧
                    Column.minWidth column = 10%Q ∧
                    Column.wrappedWidth column = 25%Q)
    as (column & Hcolumns & Hindex & Hmin & Hwrapped) by (vm_compute; eauto).
  assert (∃ r, Table.allRows (parseContent Fixture.host0 table) = [r] ∧
               Cell.minWidth <$> Row.cell r (pretty 0%nat) = Some 10%Q)
    as (r & Hrows & Hr) by (vm_compute; eauto).
  exists column. split; [done|]. split; [done|]. split; [done|].
  apply (column_widths_ordered Fixture.host0 table column).
  - rewrite Hcolumns. by left.
  - intros r' c Hr' Hc _. rewrite Hrows in Hr'.
    apply list_elem_of_singleton in Hr' as ->.
    rewrite Hindex in Hc. rewrite Hc in Hr. by injection Hr as ->.
Defined.

(** *** A column against its cells *)

Lemma noFixedWidth_ext styles column column' :
  columnStylesOf styles column' = columnStylesOf styles column →
  noFixedWidth styles column → noFixedWidth styles column'.
Proof. unfold noFixedWidth. by intros ->. Qed.

Lemma aggregateStep_grows styles r column :
  noFixedWidth styles column →
  (∀ c, Row.cell r (pretty (Column.index column)) = Some c →
        1 < Cell.colSpan c → (0 <= Cell.minWidth c)%Q) →
  (Column.minWidth column <= Column.minWidth (aggregateStep styles r column))%Q ∧
  (Column.wrappedWidth column
   <= Column.wrappedWidth (aggregateStep styles r column))%Q.
Proof.
  intros Hfree Hspans.
  rewrite aggregateStep_minWidth, aggregateStep_wrappedWidth.
  rewrite (respectColumnStyles_id styles column Hfree).
  destruct (Row.cell r (pretty (Column.index column))) as [c|];
    [|split; apply Qle_refl].
  destruct (Cell.colSpan c =? 1); [split; apply Math_max_l|].
  destruct (Z.ltb_spec 1 (Cell.colSpan c)) as [Hspan|_]; cbn [andb];
    [|split; apply Qle_refl].
  pose proof (Hspans c eq_refl Hspan) as Hc.
  split.
  - destruct (Qzero (Column.minWidth column)) eqn:Hz; [|apply Qle_refl].
    apply Qzero_true in Hz. by rewrite Hz.
  - destruct (Qzero (Column.wrappedWidth column)) eqn:Hz; [|apply Qle_refl].
    apply Qzero_true in Hz. by rewrite Hz.
Qed.

Lemma aggregateStep_covers styles r column c :
  Row.cell r (pretty (Column.index column)) = Some c →
  Cell.colSpan c = 1 →
  (Cell.minWidth c <= Column.minWidth (aggregateStep styles r column))%Q ∧
  (Cell.wrappedWidth c
   <= Column.wrappedWidth (aggregateStep styles r column))%Q.
Proof.
  intros Hc Hspan.
  rewrite aggregateStep_minWidth, aggregateStep_wrappedWidth, Hc, Hspan.
  split; apply Math_max_r.
Qed.

Lemma aggregateColumn_covers styles rows column0 :
  noFixedWidth styles column0 →
  (∀ r c, r ∈ rows →
     Row.cell r (pretty (Column.index column0)) = Some c →
     1 < Cell.colSpan c → (0 <= Cell.minWidth c)%Q) →
  let column := aggregateColumn styles rows column0 in
  ((Column.minWidth column0 <= Column.minWidth column)%Q ∧
   (Column.wrappedWidth column0 <= Column.wrappedWidth column)%Q) ∧
  ∀ r c, r ∈ rows →
    Row.cell r (pretty (Column.index column0)) = Some c → Cell.colSpan c = 1 →
    (Cell.minWidth c <= Column.minWidth column)%Q ∧
    (Cell.wrappedWidth c <= Column.wrappedWidth column)%Q.
Proof.
  intros Hfree. cbn zeta.
  induction rows as [|r rows IH] using rev_ind; intros Hspans.
  - split; [split; apply Qle_refl|]. by intros r c ?%elem_of_nil.
  - destruct IH as [[Hmin Hwrapped] Hall].
    { intros r' c Hr'. apply Hspans. apply elem_of_app. by left. }
    rewrite aggregateColumn_snoc.
    destruct (aggregateColumn_same styles rows column0) as [Hindex Hstyles].
    set (column := aggregateColumn styles rows column0) in *.
    destruct (aggregateStep_grows styles r column) as [Hmin' Hwrapped'].
    { by eapply noFixedWidth_ext. }
    { rewrite Hindex. intros c. apply Hspans. apply elem_of_app. right.
      by apply list_elem_of_singleton. }
    split; [split; by eapply Qle_trans|].
    intros r' c [Hr'|Hr']%elem_of_app Hc Hspan.
    + destruct (Hall r' c Hr' Hc Hspan). split; by eapply Qle_trans.
    + apply list_elem_of_singleton in Hr' as ->.
      apply aggregateStep_covers; [by rewrite Hindex|done].
Qed.

(** X14. Let the entry of a column in [columnStyles] fix no width
    (its [cellWidth] is not a number other than zero), and let the spanning
    cells that rows hold under the index of the column have a minimum width
    that is not negative. Then the column is at least as wide as every cell
    with [colSpan] 1 that a row holds under its index, in minimum width and in
    wrapped width. *)
Theorem column_covers_cells (host : Host) (table : Table) (column : Column)
    (r : Row) (c : Cell) :
  let rows := Table.allRows (parseContent host table) in
  column ∈ Table.columns (parseContent host table) →
  noFixedWidth (Table.styles table) column →
  (∀ r' c', r' ∈ rows →
     Row.cell r' (pretty (Column.index column)) = Some c' →
     1 < Cell.colSpan c' → (0 <= Cell.minWidth c')%Q) →
  r ∈ rows →
  Row.cell r (pretty (Column.index column)) = Some c →
  Cell.colSpan c = 1 →
  (Cell.minWidth c <= Column.minWidth column)%Q ∧
  (Cell.wrappedWidth c <= Column.wrappedWidth column)%Q.
Proof.
  cbn zeta. intros (column0 & Hin0 & ->)%parsed_column_inv.
  destruct (aggregateColumn_same (Table.styles table)
              (Table.allRows (parseContent host table)) column0)
    as [-> Hstyles].
  intros Hfree Hspans Hr Hc Hspan.
  destruct (aggregateColumn_covers (Table.styles table)
              (Table.allRows (parseContent host table)) column0) as [_ Hall];
    [by eapply noFixedWidth_ext|done|].
  by apply (Hall r c).
Qed.

Lemma column_covers_cells_witness :
  let table :=
    newTable Fixture.host0 noOptions noOptions
      (Args1 (Fixture.options None
                (Some [Positional [Fixture.str "a wide header"]])
                (Some [Positional [Fixture.str "a"]]) None None)) in
  ∃ column r c,
    Table.columns (parseContent Fixture.host0 table) = [column] ∧
    Table.allRows (parseContent Fixture.host0 table) !! 0%nat = Some r ∧
    Row.cell r (pretty (Column.index column)) = Some c ∧
    Cell.wrappedWidth c = 75%Q ∧
    (Cell.minWidth c <= Column.minWidth column)%Q ∧
    (Cell.wrappedWidth c <= Column.wrappedWidth column)%Q.
Proof.
  intros table.
  assert (∃ column, Table.columns (parseContent Fixture.host0 table) = [column] ∧
                    Column.index column = 0%nat ∧
                    columnStylesOf (Table.styles table) column !! "cellWidth"
                    = None)
    as (column & Hcolumns & Hindex & Hstyle) by (vm_compute; eauto).
  assert (∃ r, Table.allRows (parseContent Fixture.host0 table) !! 0%nat = Some r)
    as [r Hr] by (vm_compute; eauto).
  assert (∃ c, Row.cell r (pretty 0%nat) = Some c ∧ Cell.colSpan c = 1 ∧
               Cell.wrappedWidth c = 75%Q) as (c & Hc & Hspan & Hwidth).
  { revert Hr. vm_compute. intros [= <-]. eauto. }
  assert (Forall (fun r' => Cell.colSpan <$> Row.cell r' (pretty 0%nat) = Some 1)
            (Table.allRows (parseContent Fixture.host0 table))) as Hspans
    by (vm_compute; repeat constructor).
  rewrite <- Hindex in Hc.
  exists column, r, c. split; [done|]. split; [done|]. split; [done|].
  split; [done|].
  apply (column_covers_cells Fixture.host0 table column r c).
  - rewrite Hcolumns. by left.
  - unfold noFixedWidth. intros w. by rewrite Hstyle.
  - intros r' c' Hr' Hc' Hspan'.
    rewrite Forall_forall in Hspans. specialize (Hspans r' Hr').
    rewrite Hindex in Hc'. rewrite Hc' in Hspans. injection Hspans as Heq. lia.
  - by eapply list_elem_of_lookup_2.
  - done.
  - done.
Defined.

(** *** A column without a cell of its own *)

Lemma aggregateStep_spans styles r column :
  noFixedWidth styles column →
  (∀ c, Row.cell r (pretty (Column.index column)) = Some c →
        Cell.colSpan c ≠ 1) →
  Column.minWidth column = Column.wrappedWidth column →
  let column' := aggregateStep styles r column in
  Column.minWidth column' = Column.wrappedWidth column' ∧
  (Column.minWidth column' = Column.minWidth column ∨
   ∃ c, Row.cell r (pretty (Column.index column)) = Some c ∧
        1 < Cell.colSpan c ∧ Column.minWidth column' = Cell.minWidth c).
Proof.
  intros Hfree Hspans Heq. cbn zeta.
  rewrite aggregateStep_minWidth, aggregateStep_wrappedWidth.
  rewrite (respectColumnStyles_id styles column Hfree).
  destruct (Row.cell r (pretty (Column.index column))) as [c|]; [|auto].
  destruct (Z.eqb_spec (Cell.colSpan c) 1) as [Hspan|_];
    [by destruct (Hspans c eq_refl)|].
  rewrite <- Heq.
  destruct (Z.ltb_spec 1 (Cell.colSpan c)) as [Hspan|_]; cbn [andb]; [|auto].
  destruct (Qzero (Column.minWidth column)); [|auto].
  split; [done|]. right. by exists c.
Qed.

Lemma aggregateColumn_spans styles rows column0 :
  noFixedWidth styles column0 →
  (∀ r c, r ∈ rows →
     Row.cell r (pretty (Column.index column0)) = Some c → Cell.colSpan c ≠ 1) →
  Column.minWidth column0 = Column.wrappedWidth column0 →
  let column := aggregateColumn styles rows column0 in
  Column.minWidth column = Column.wrappedWidth column ∧
  (Column.minWidth column = Column.minWidth column0 ∨
   ∃ r c, r ∈ rows ∧
     Row.cell r (pretty (Column.index column0)) = Some c ∧
     1 < Cell.colSpan c ∧ Column.minWidth column = Cell.minWidth c).
Proof.
  intros Hfree Hspans Heq. cbn zeta.
  induction rows as [|r rows IH] using rev_ind; [auto|].
  destruct IH as [Heq' Hfrom].
  { intros r' c Hr'. apply Hspans. apply elem_of_app. by left. }
  rewrite aggregateColumn_snoc.
  destruct (aggregateColumn_same styles rows column0) as [Hindex Hstyles].
  set (column := aggregateColumn styles rows column0) in *.
  assert (r ∈ rows ++ [r]) as Hr.
  { apply elem_of_app. right. by apply list_elem_of_singleton. }
  destruct (aggregateStep_spans styles r column) as [Heq'' Hstep]; [| |done|].
  { by eapply noFixedWidth_ext. }
  { rewrite Hindex. intros c. by apply Hspans. }
  split; [done|].
  destruct Hstep as [->|(c & Hc & Hspan & ->)].
  - destruct Hfrom as [?|(r' & c & Hr' & ?)]; [by left|right].
    exists r', c. split; [|done]. apply elem_of_app. by left.
  - right. exists r, c. rewrite <- Hindex. done.
Qed.

(** X15. Let the entry of a column in [columnStyles] fix no width, and let
    no row hold a cell with [colSpan] 1 under the index of the column. Then
    the minimum readable width of the column is zero, its minimum width and
    its wrapped width are equal, and they are zero or the minimum width of a
    cell of [colSpan] above 1 that a row holds under the index of the column.
    In particular a column that only lies under the spans of other columns
    keeps a width of zero. *)
Theorem column_of_spans (host : Host) (table : Table) (column : Column) :
  let rows := Table.allRows (parseContent host table) in
  column ∈ Table.columns (parseContent host table) →
  noFixedWidth (Table.styles table) column →
  (∀ r c, r ∈ rows →
     Row.cell r (pretty (Column.index column)) = Some c → Cell.colSpan c ≠ 1) →
  Column.minReadableWidth column = 0%Q ∧
  Column.minWidth column = Column.wrappedWidth column ∧
  (Column.minWidth column = 0%Q ∨
   ∃ r c, r ∈ rows ∧
     Row.cell r (pretty (Column.index column)) = Some c ∧
     1 < Cell.colSpan c ∧ Column.minWidth column = Cell.minWidth c).
Proof.
  cbn zeta. intros (column0 & Hin0 & ->)%parsed_column_inv.
  destruct (aggregateColumn_same (Table.styles table)
              (Table.allRows (parseContent host table)) column0)
    as [-> Hstyles].
  intros Hfree Hspans.
  destruct (getTableColumns_new _ column0 Hin0) as [Hmin Hwrapped].
  split.
  - destruct (aggregateColumn_minReadableWidth (Table.styles table)
                (Table.allRows (parseContent host table)) column0)
      as (_ & _ & [->|(r & c & Hr & Hc & Hspan & _)]).
    + by apply (getTableColumns_fresh (contentOf (Table.settings table))).
    + by destruct (Hspans r c Hr Hc).
  - destruct (aggregateColumn_spans (Table.styles table)
                (Table.allRows (parseContent host table)) column0)
      as [Heq Hfrom]; [by eapply noFixedWidth_ext|done|congruence|].
    split; [done|]. by rewrite Hmin in Hfrom.
Qed.

Lemma column_of_spans_witness :
  let table :=
    newTable Fixture.host0 noOptions noOptions
      (Args1 (Fixture.options None None
                (Some [Positional [Fixture.spanning "ab" (Some 2) None]])
                None None)) in
  ∃ column,
    Table.columns (parseContent Fixture.host0 table) !! 0%nat = Some column ∧
    Column.minWidth column = 10%Q ∧
    let rows := Table.allRows (parseContent Fixture.host0 table) in
    Column.minReadableWidth column = 0%Q ∧
    Column.minWidth column = Column.wrappedWidth column ∧
    (Column.minWidth column = 0%Q ∨
     ∃ r c, r ∈ rows ∧
       Row.cell r (pretty (Column.index column)) = Some c ∧
       1 < Cell.colSpan c ∧ Column.minWidth column = Cell.minWidth c).
Proof.
  intros table.
  assert (∃ column, Table.columns (parseContent Fixture.host0 table) !! 0%nat
                    = Some column ∧
                    Column.index column = 0%nat ∧
                    Column.minWidth column = 10%Q ∧
                    columnStylesOf (Table.styles table) column !! "cellWidth"
                    = None)
    as (column & Hcolumn & Hindex & Hmin & Hstyle) by (vm_compute; eauto).
  assert (Forall (fun r' => Cell.colSpan <$> Row.cell r' (pretty 0%nat) = Some 2)
            (Table.allRows (parseContent Fixture.host0 table))) as Hspans
    by (vm_compute; repeat constructor).
  exists column. split; [done|]. split; [done|].
  apply (column_of_spans Fixture.host0 table column).
  - by eapply list_elem_of_lookup_2.
  - unfold noFixedWidth. intros w. by rewrite Hstyle.
  - intros r c Hr Hc.
    rewrite Forall_forall in Hspans. specialize (Hspans r Hr).
    rewrite Hindex in Hc. rewrite Hc in Hspans. injection Hspans as Heq. lia.
Defined.

(** *** The widths of the table *)

Lemma sumQ_le {A : Type} (f g : A → Q) (l : list A) :
  (∀ x, x ∈ l → (f x <= g x)%Q) → (sumQ (f <$> l) <= sumQ (g <$> l))%Q.
Proof.
  induction l as [|x l IH]; intros Hle; [apply Qle_refl|].
  cbn [fmap list_fmap sumQ foldr]. apply Qplus_le_compat.
  - apply Hle. by left.
  - apply IH. intros y Hy. apply Hle. by right.
Qed.

Lemma parseInput_allRows host g d args :
  Table.allRows (parseInput host g d args) =
  Table.allRows (parseContent host (newTable host g d args)).
Proof.
  lazy beta iota zeta
    delta [parseInput Table.allRows Table.head Table.body Table.foot].
  reflexivity.
Qed.

Lemma parseInput_minWidth host g d args :
  Table.minWidth (parseInput host g d args) =
  reduceWidths Column.minWidth
    (Table.columns (parseContent host (newTable host g d args))).
Proof.
  lazy beta iota zeta delta [parseInput Table.minWidth Table.columns].
  reflexivity.
Qed.

Lemma parseInput_wrappedWidth host g d args :
  Table.wrappedWidth (parseInput host g d args) =
  reduceWidths Column.wrappedWidth
    (Table.columns (parseContent host (newTable host g d args))).
Proof.
  lazy beta iota zeta delta [parseInput Table.wrappedWidth Table.columns].
  reflexivity.
Qed.

(** X16. The minimum width of the table is at most its wrapped width,
    provided that every cell with [colSpan] 1 that a row holds under the index
    of a column has a positive minimum width. *)
Theorem table_widths_ordered (host : Host)
    (globalOptions documentOptions : UserOptions) (args : Args) :
  let table := parseInput host globalOptions documentOptions args in
  (∀ column r c, column ∈ Table.columns table → r ∈ Table.allRows table →
     Row.cell r (pretty (Column.index column)) = Some c → Cell.colSpan c = 1 →
     (0 < Cell.minWidth c)%Q) →
  (Table.minWidth table <= Table.wrappedWidth table)%Q.
Proof.
  cbn zeta. rewrite parseInput_columns, parseInput_allRows.
  rewrite parseInput_minWidth, parseInput_wrappedWidth.
  intros Hpos. rewrite !reduceWidths_sum. apply sumQ_le.
  intros column Hin.
  apply (parsed_column_ordered host
           (newTable host globalOptions documentOptions args)); [done|].
  intros r c. by apply Hpos.
Qed.

Lemma table_widths_ordered_witness :
  let table :=
    parseInput Fixture.host0 noOptions noOptions
      (Args1 (Fixture.options None None
                (Some [Positional [Fixture.str "abc"; Fixture.str "de"]])
                None None)) in
  Table.minWidth table = 20%Q ∧ Table.wrappedWidth table = 45%Q ∧
  (Table.minWidth table <= Table.wrappedWidth table)%Q.
Proof.
  intros table.
  split; [vm_compute; reflexivity|]. split; [vm_compute; reflexivity|].
  assert (Forall (fun r =>
            Forall (fun column =>
              Cell.minWidth <$> Row.cell r (pretty (Column.index column))
              = Some 10%Q) (Table.columns table)) (Table.allRows table))
    as Hcells by (vm_compute; repeat constructor).
  apply (table_widths_ordered Fixture.host0 noOptions noOptions).
  intros column r c Hcolumn Hr Hc _.
  rewrite Forall_forall in Hcells. specialize (Hcells r Hr).
  rewrite Forall_forall in Hcells. specialize (Hcells column Hcolumn).
  rewrite Hc in Hcells. by injection Hcells as ->.
Defined.

(** ** The cell a row creates at a column *)

Lemma createdBefore_S (r : Row) (n : nat) :
  createdBefore r (S n) =
  (createdBefore r n + if decide (is_Some (created r n)) then 1 else 0)%nat.
Proof.
  unfold createdBefore. rewrite seq_S, filter_app, length_app. f_equal.
  cbn [Nat.add]. rewrite filter_cons, filter_nil.
  by destruct (decide (is_Some (created r n))).
Qed.

Lemma createdBefore_ext (r r' : Row) (j : nat) :
  (∀ k, (k < j)%nat → created r k = created r' k) →
  createdBefore r j = createdBefore r' j.
Proof.
  induction j as [|j IH]; intros Hsame; [done|].
  rewrite !createdBefore_S, IH, (Hsame j) by (intros; try apply Hsame; lia).
  done.
Qed.

Section CreatedCells.

Variable defaultStyles : Styles.
Variable theme : Theme.
Variable styles : StylesProps.
Variable sectionName : Section.
Variable rawRow : RowInput.
Variable rowIndex : nat.

Let step := columnStep defaultStyles theme styles sectionName rawRow rowIndex.

(** [rawRow[column.index - colSpansAdded - skippedRowForRowSpans]], or
    [rawRow[column.dataKey]]. *)
Let rawCell (st : RowState) (column : Column) : option CellInput :=
  match rawRow with
  | Positional cells =>
      arr_get cells
        (Z.of_nat (Column.index column) - colSpansAdded st
         - skippedRowForRowSpans st)
  | Keyed props => obj_get props (propKey (Column.dataKey column))
  end.

(** A column gets a cell and leaves the two counters alone, or gets none and
    raises one of the counters. *)
Lemma columnStep_counts st column :
  (created (row (step st column)) (Column.index column) =
     Some (Cell.new (rawCell st column)
             (cellStyles defaultStyles theme styles sectionName column rowIndex)
             sectionName) ∧
   colSpansAdded (step st column) = colSpansAdded st ∧
   skippedRowForRowSpans (step st column) = skippedRowForRowSpans st) ∨
  (row (step st column) = row st ∧
   colSpansAdded (step st column) + skippedRowForRowSpans (step st column) =
     colSpansAdded st + skippedRowForRowSpans st + 1).
Proof.
  unfold step, columnStep, rawCell, created.
  destruct (noRowSpanLeft _ _) eqn:Hfree.
  - destruct (columnSpansLeft st =? 0).
    + left. cbn [row colSpansAdded skippedRowForRowSpans].
      rewrite !heap_setCell, heap_alloc, lookup_insert_eq. by destruct rawRow.
    + right. cbn [row colSpansAdded skippedRowForRowSpans]. split; [done|lia].
  - unfold noRowSpanLeft in Hfree.
    destruct (rowSpansLeftForColumn st !! Column.index column); [|done].
    right. cbn [row colSpansAdded skippedRowForRowSpans]. split; [done|lia].
Qed.

Lemma columnStep_raw st column :
  Row.raw (row (step st column)) = Row.raw (row st).
Proof.
  pose proof (columnStep_identity defaultStyles theme styles sectionName rawRow
                rowIndex st column) as H.
  unfold rowIdentity in H. unfold step. congruence.
Qed.

Variable ledger : Ledger.

Let start := mkRowState ledger (Row.new rawRow rowIndex sectionName) 0 0 0.

Lemma columns_created (columns : list Column) :
  indexedFrom 0 columns →
  let st := fold_left step columns start in
  Row.raw (row st) = rawRow ∧
  (∀ k, (length columns ≤ k)%nat → created (row st) k = None) ∧
  Z.of_nat (createdBefore (row st) (length columns)) =
    Z.of_nat (length columns) - colSpansAdded st - skippedRowForRowSpans st ∧
  (∀ j column cell,
     columns !! j = Some column → created (row st) j = Some cell →
     cell = Cell.new (rawValueAt (row st) column)
              (cellStyles defaultStyles theme styles sectionName column rowIndex)
              sectionName).
Proof.
  cbn zeta. induction columns as [|column columns IH] using rev_ind;
    intros Hindexed.
  - cbn [fold_left length]. repeat split; try done.
  - assert (indexedFrom 0 columns) as Hprefix.
    { intros i c Hc. apply Hindexed. by apply lookup_app_l_Some. }
    assert (Column.index column = length columns) as Hindex.
    { rewrite (Hindexed (length columns) column); [done|].
      by rewrite lookup_app_r, Nat.sub_diag. }
    destruct (IH Hprefix) as (Hraw & Hnone & Hcount & Hcells). clear IH.
    rewrite fold_left_app, length_app. cbn [fold_left length].
    set (st := fold_left step columns start) in *.
    assert (∀ k, k ≠ length columns →
              created (row (step st column)) k = created (row st) k) as Hother.
    { intros k Hk.
      apply (columnStep_other defaultStyles theme styles sectionName rawRow
               rowIndex st column k). by rewrite Hindex. }
    assert (∀ j, (j ≤ length columns)%nat →
              createdBefore (row (step st column)) j = createdBefore (row st) j)
      as Hbefore.
    { intros j Hj. apply createdBefore_ext. intros k Hk. apply Hother. lia. }
    assert (Row.raw (row (step st column)) = rawRow) as Hraw'
      by by rewrite columnStep_raw.
    split; [done|].
    replace (length columns + 1)%nat with (S (length columns)) by lia.
    rewrite createdBefore_S, Hbefore by done.
    assert (∀ j column' cell,
              columns !! j = Some column' →
              created (row (step st column)) j = Some cell →
              cell = Cell.new (rawValueAt (row (step st column)) column')
                       (cellStyles defaultStyles theme styles sectionName
                          column' rowIndex) sectionName) as Hold.
    { intros j column' cell Hj Hcell.
      pose proof (lookup_lt_Some _ _ _ Hj) as Hlt.
      rewrite Hother in Hcell by lia.
      rewrite (Hcells j column' cell Hj Hcell). f_equal.
      unfold rawValueAt. rewrite Hraw, Hraw'.
      destruct rawRow; [|done].
      rewrite (Hprefix j column' Hj). cbn [Nat.add].
      by rewrite Hbefore by lia. }
    destruct (columnStep_counts st column)
      as [(Hcell & -> & ->)|(Hrow & Hcounters)].
    + rewrite Hindex in Hcell.
      split; [|split].
      * intros k Hk. rewrite Hother by lia. apply Hnone. lia.
      * rewrite Hcell. rewrite decide_True by done. lia.
      * intros j column' cell Hj Hcell'.
        apply lookup_app_Some in Hj as [Hj|[Hlen Hj]]; [by eapply Hold|].
        apply list_lookup_singleton_Some in Hj as [Hj <-].
        assert (j = length columns) as -> by lia.
        rewrite Hcell in Hcell'. injection Hcell' as <-. f_equal.
        unfold rawValueAt, rawCell. rewrite Hraw'.
        destruct rawRow as [cells|props]; [|done].
        rewrite Hindex, Hbefore by done.
        replace (Z.of_nat (length columns) - colSpansAdded st
                 - skippedRowForRowSpans st)
          with (Z.of_nat (createdBefore (row st) (length columns)) - 0 - 0)
          by lia.
        apply arr_get_nat.
    + split; [|split].
      * intros k Hk. rewrite Hrow. apply Hnone. lia.
      * rewrite Hrow, (Hnone (length columns)) by done.
        rewrite decide_False by (by intros [? ?]). lia.
      * intros j column' cell Hj Hcell'.
        apply lookup_app_Some in Hj as [Hj|[Hlen Hj]]; [by eapply Hold|].
        apply list_lookup_singleton_Some in Hj as [Hj <-].
        rewrite Hrow, Hnone in Hcell' by lia. done.
Qed.

End CreatedCells.

(** X17. The cell that row [i] of a section creates for a column is
    [new Cell(rawCell, cellStyles(sectionName, column, i), sectionName)],
    where [rawCell] is, for an array row, the element whose position is the
    number of cells the row has created for the columns before (so the
    elements are used in order, none is skipped and none is used twice,
    whatever the spans), and for an object row the property named by the
    [dataKey] of the column. *)
Theorem created_cell (defaultStyles : Styles) (theme : Theme)
    (styles : StylesProps) (sectionName : Section) (columns : list Column)
    (sectionRows : list RowInput) (i j : nat) (r : Row) (column : Column)
    (cell : Cell) :
  indexedFrom 0 columns →
  parseSection defaultStyles theme styles columns sectionName sectionRows !! i
    = Some r →
  columns !! j = Some column →
  created r j = Some cell →
  cell = Cell.new (rawValueAt r column)
           (cellStyles defaultStyles theme styles sectionName column i)
           sectionName.
Proof.
  intros Hindexed Hr Hj Hcell. unfold parseSection in Hr.
  apply parseRows_lookup_inv in Hr as (rawRow & Hi & ->).
  cbn [Nat.add] in *. unfold parseRow in *.
  destruct (columns_created defaultStyles theme styles sectionName rawRow i
              (ledgerAfter defaultStyles theme styles columns sectionName ∅ 0
                 (take i sectionRows)) columns Hindexed)
    as (_ & _ & _ & Hcells).
  by eapply Hcells.
Qed.

Lemma created_cell_witness :
  let sectionRows :=
    [Positional [Fixture.spanning "a" (Some 2) None; Fixture.str "b"]] in
  let columns := getTableColumns (Build_Content None [] sectionRows []) in
  let styles := StylesProps.mk ∅ ∅ ∅ ∅ ∅ ∅ in
  ∃ r column cell,
    parseSection ∅ Fixture.theme0 styles columns body sectionRows !! 0%nat
      = Some r ∧
    columns !! 2%nat = Some column ∧
    created r 2 = Some cell ∧
    created r 1 = None ∧
    rawValueAt r column = Some (Fixture.str "b") ∧
    cell = Cell.new (rawValueAt r column)
             (cellStyles ∅ Fixture.theme0 styles body column 0) body.
Proof.
  intros sectionRows columns styles.
  assert (∃ r, parseSection ∅ Fixture.theme0 styles columns body sectionRows
               !! 0%nat = Some r) as [r Hr] by (vm_compute; eauto).
  assert (∃ column, columns !! 2%nat = Some column) as [column Hcolumn]
    by (vm_compute; eauto).
  assert (∃ cell, created r 2 = Some cell ∧ created r 1 = None)
    as (cell & Hcell & Hnone).
  { revert Hr. vm_compute. intros [= <-]. eauto. }
  assert (rawValueAt r column = Some (Fixture.str "b")) as Hraw.
  { revert Hr Hcolumn. vm_compute. by intros [= <-] [= <-]. }
  exists r, column, cell. repeat (split; [done|]).
  exact (created_cell ∅ Fixture.theme0 styles body columns sectionRows 0 2 r
           column cell (getTableColumns_indexed _) Hr Hcolumn Hcell).
Defined.

(** ** The names of a cell *)

Lemma indexedFrom_inj n columns column column' :
  indexedFrom n columns → column ∈ columns → column' ∈ columns →
  Column.index column = Column.index column' → column = column'.
Proof.
  intros Hindexed (i & Hi)%list_elem_of_lookup (j & Hj)%list_elem_of_lookup.
  rewrite (Hindexed i column Hi), (Hindexed j column' Hj). intros Heq.
  assert (i = j) as -> by lia. congruence.
Qed.

Section Names.

Variable columns : list Column.
Hypothesis columns_indexed : indexedFrom 0 columns.
Hypothesis columns_ownNames : ownNames columns.

Lemma columnStep_wellNamed defaultStyles theme styles sectionName rawRow
    rowIndex st column :
  column ∈ columns →
  wellNamed columns (row st) →
  wellNamed columns (row (columnStep defaultStyles theme styles sectionName
                            rawRow rowIndex st column)).
Proof.
  intros Hin [Hcells Hheap]. unfold columnStep.
  destruct (noRowSpanLeft _ _); [|by destruct (_ !! Column.index column)].
  destruct (columnSpansLeft st =? 0); [|done].
  cbn [row]. split.
  - intros key a. rewrite !cells_setCell, cells_alloc, !heap_setCell, heap_alloc.
    destruct (decide (key = pretty (Column.index column))) as [->|Hne1].
    { rewrite lookup_insert_eq. intros [= <-]. rewrite lookup_insert_eq.
      split; [done|]. exists column. auto. }
    rewrite lookup_insert_ne by done.
    destruct (decide (key = propKey (Column.dataKey column))) as [->|Hne2].
    { rewrite lookup_insert_eq. intros [= <-]. rewrite lookup_insert_eq.
      split; [done|]. exists column. auto. }
    rewrite lookup_insert_ne by done. intros Ha.
    destruct (Hcells key a Ha) as [Hsome Hname]. split; [|done].
    destruct (decide (Column.index column = a)) as [->|Hne].
    + by rewrite lookup_insert_eq.
    + by rewrite lookup_insert_ne.
  - intros column' Hin'.
    rewrite !cells_setCell, cells_alloc, !heap_setCell, heap_alloc.
    destruct (decide (Column.index column = Column.index column')) as [Heq|Hne].
    { intros _. rewrite Heq. by rewrite lookup_insert_eq. }
    rewrite (lookup_insert_ne (Row.heap _)) by done. intros Hsome.
    rewrite lookup_insert_ne by (by intros ?%(inj pretty)).
    rewrite lookup_insert_ne; [by apply Hheap|].
    intros Hkey. by apply Hne, columns_ownNames.
Qed.

Lemma parseRow_wellNamed defaultStyles theme styles sectionName ledger rowIndex
    rawRow :
  wellNamed columns (row (parseRow defaultStyles theme styles columns
                            sectionName ledger rowIndex rawRow)).
Proof.
  unfold parseRow.
  apply (fold_left_invariant_elem (fun st => wellNamed columns (row st))).
  - intros st column Hin Hst. by apply columnStep_wellNamed.
  - split.
    + intros key a. cbn. by rewrite lookup_empty.
    + intros column _. cbn. rewrite lookup_empty. by intros [? ?].
Qed.

Lemma cellPassStep_domain host hooks r column a :
  is_Some (Row.heap (cellPassStep host hooks r column) !! a) ↔
  is_Some (Row.heap r !! a).
Proof.
  unfold cellPassStep.
  destruct (_ !! pretty _) as [a'|]; [|done].
  destruct (Row.heap r !! a') as [c|] eqn:Ha'; [|done].
  rewrite heap_alloc.
  destruct (decide (a' = a)) as [->|Hne].
  - rewrite lookup_insert_eq, Ha'. split; by eauto.
  - by rewrite lookup_insert_ne.
Qed.

Lemma cellPass_domain host hooks columns' r a :
  is_Some (Row.heap (cellPass host hooks columns' r) !! a) ↔
  is_Some (Row.heap r !! a).
Proof.
  unfold cellPass. revert r.
  induction columns' as [|column columns' IH]; intros r; [done|].
  cbn [fold_left]. by rewrite IH, cellPassStep_domain.
Qed.

Lemma cellPass_cells host hooks columns' r :
  Row.cells (cellPass host hooks columns' r) = Row.cells r.
Proof.
  unfold cellPass.
  apply (fold_left_invariant (fun r' => Row.cells r' = Row.cells r)); [|done].
  intros r' column Hr'. by rewrite cellPassStep_cells.
Qed.

Lemma cellPass_wellNamed host hooks columns' r :
  wellNamed columns r → wellNamed columns (cellPass host hooks columns' r).
Proof.
  intros [Hcells Hheap]. split.
  - intros key a. rewrite cellPass_cells, cellPass_domain. apply Hcells.
  - intros column Hin. rewrite cellPass_cells, cellPass_domain. by apply Hheap.
Qed.

(** Under its index a row holds the cell created for the column. *)
Lemma wellNamed_index r column :
  wellNamed columns r → column ∈ columns →
  Row.cell r (pretty (Column.index column)) = Row.heap r !! Column.index column.
Proof.
  intros [Hcells Hheap] Hin. unfold Row.cell.
  destruct (Row.heap r !! Column.index column) as [c|] eqn:Hc.
  - rewrite (Hheap column Hin) by by rewrite Hc. done.
  - destruct (Row.cells r !! pretty (Column.index column)) as [a|] eqn:Ha;
      [|done].
    destruct (Hcells _ a Ha) as [[c Hsome] (column' & Hin' & <- & [Hkey|Hkey])].
    + symmetry in Hkey. apply (columns_ownNames column' column Hin' Hin) in Hkey.
      rewrite Hkey, Hc in Hsome. done.
    + apply (inj pretty) in Hkey. rewrite <- Hkey, Hc in Hsome. done.
Qed.

Lemma cellPassStep_wellNamed host hooks r column :
  wellNamed columns r → wellNamed columns (cellPassStep host hooks r column).
Proof. apply (cellPass_wellNamed host hooks [column]). Qed.

Lemma cellPassStep_heap_other host hooks r column a :
  Row.cells r !! pretty (Column.index column) ≠ Some a →
  Row.heap (cellPassStep host hooks r column) !! a = Row.heap r !! a.
Proof.
  intros Hne. unfold cellPassStep.
  destruct (_ !! pretty _) as [a'|]; [|done].
  destruct (Row.heap r !! a') as [c|]; [|done].
  rewrite heap_alloc, lookup_insert_ne; [done|congruence].
Qed.

(** The cell of a column is left alone by the other columns. *)
Lemma cellPass_heap_other host hooks columns' r a :
  wellNamed columns r →
  (∀ column, column ∈ columns' → column ∈ columns ∧ Column.index column ≠ a) →
  Row.heap (cellPass host hooks columns' r) !! a = Row.heap r !! a.
Proof.
  unfold cellPass. revert r.
  induction columns' as [|column columns' IH]; intros r Hr Hother; [done|].
  cbn [fold_left]. rewrite IH.
  - destruct (Hother column) as [Hin Hne]; [by left|].
    apply cellPassStep_heap_other. intros Ha.
    destruct Hr as [Hcells _].
    destruct (Hcells _ a Ha) as [_ (column' & Hin' & <- & [Hkey|Hkey])].
    + symmetry in Hkey. by apply (columns_ownNames column' column Hin' Hin) in Hkey.
    + by apply (inj pretty) in Hkey.
  - by apply cellPassStep_wellNamed.
  - intros column' Hin'. apply Hother. by right.
Qed.

(** The second loop calls the hooks once on the cell of a column, with the
    row as the columns before have left it, and resolves its widths. *)
Lemma cellPass_once host hooks r j column :
  wellNamed columns r →
  columns !! j = Some column →
  Row.cell (cellPass host hooks columns r) (pretty j) =
  (fun cell =>
     resolveCellWidths host
       (callCellHooks hooks cell (cellPass host hooks (take j columns) r) column))
    <$> created r j.
Proof.
  intros Hr Hj.
  assert (column ∈ columns) as Hin by by eapply list_elem_of_lookup_2.
  assert (Column.index column = j) as Hindex
    by by rewrite (columns_indexed j column Hj).
  rewrite <- Hindex at 1.
  rewrite (wellNamed_index _ column (cellPass_wellNamed host hooks columns r Hr) Hin).
  rewrite Hindex.
  rewrite <- (take_drop_middle columns j column Hj) at 1.
  unfold cellPass at 1. rewrite fold_left_app. cbn [fold_left].
  fold (cellPass host hooks (take j columns) r).
  set (before := cellPass host hooks (take j columns) r).
  fold (cellPass host hooks (drop (S j) columns)
          (cellPassStep host hooks before column)).
  assert (wellNamed columns before) as Hbefore by by apply cellPass_wellNamed.
  rewrite cellPass_heap_other; [|by apply cellPassStep_wellNamed|].
  2:{ intros column' (k & Hk)%list_elem_of_lookup.
      rewrite lookup_drop in Hk. split; [by eapply list_elem_of_lookup_2|].
      rewrite (columns_indexed _ column' Hk). lia. }
  assert (Row.heap before !! j = Row.heap r !! j) as Hsame.
  { apply cellPass_heap_other; [done|].
    intros column' (k & Hk)%list_elem_of_lookup.
    apply lookup_take_Some in Hk as [Hk Hlt].
    split; [by eapply list_elem_of_lookup_2|].
    rewrite (columns_indexed _ column' Hk). lia. }
  unfold created. rewrite <- Hsame. unfold cellPassStep. rewrite Hindex.
  destruct (Row.heap before !! j) as [cell|] eqn:Hcell.
  - destruct Hbefore as [_ Hheap].
    assert (Row.cells before !! pretty j = Some j) as ->.
    { rewrite <- Hindex. apply (Hheap column Hin). by rewrite Hindex, Hcell. }
    by rewrite Hcell, heap_alloc, lookup_insert_eq.
  - destruct (Row.cells before !! pretty j) as [a|]; [|by rewrite Hcell].
    destruct (Row.heap before !! a) eqn:Ha; [|by rewrite Hcell].
    rewrite heap_alloc.
    destruct (decide (a = j)) as [->|Hne]; [congruence|].
    by rewrite lookup_insert_ne, Hcell.
Qed.

Hypothesis columns_distinctKeys : distinctKeys columns.

Lemma columnStep_wellKeyed defaultStyles theme styles sectionName rawRow
    rowIndex st column :
  column ∈ columns →
  wellKeyed columns (row st) →
  wellKeyed columns (row (columnStep defaultStyles theme styles sectionName
                            rawRow rowIndex st column)).
Proof.
  intros Hin Hkeys. unfold columnStep.
  destruct (noRowSpanLeft _ _); [|by destruct (_ !! Column.index column)].
  destruct (columnSpansLeft st =? 0); [|done].
  cbn [row]. intros column' Hin'.
  rewrite !cells_setCell, cells_alloc, !heap_setCell, heap_alloc.
  destruct (decide (Column.index column = Column.index column')) as [Heq|Hne].
  { intros _.
    rewrite <- (indexedFrom_inj 0 columns column column' columns_indexed Hin Hin' Heq).
    destruct (decide (pretty (Column.index column)
                      = propKey (Column.dataKey column))) as [->|Hne].
    - by rewrite lookup_insert_eq.
    - by rewrite lookup_insert_ne, lookup_insert_eq. }
  rewrite (lookup_insert_ne (Row.heap _)) by done. intros Hsome.
  rewrite lookup_insert_ne.
  - rewrite lookup_insert_ne; [by apply Hkeys|].
    intros Hkey. by apply Hne, columns_distinctKeys.
  - intros Hkey. symmetry in Hkey.
    by apply Hne; symmetry; apply columns_ownNames.
Qed.

Lemma parseRow_wellKeyed defaultStyles theme styles sectionName ledger rowIndex
    rawRow :
  wellKeyed columns (row (parseRow defaultStyles theme styles columns
                            sectionName ledger rowIndex rawRow)).
Proof.
  unfold parseRow.
  apply (fold_left_invariant_elem (fun st => wellKeyed columns (row st))).
  - intros st column Hin Hst. by apply columnStep_wellKeyed.
  - intros column _. cbn. rewrite lookup_empty. by intros [? ?].
Qed.

Lemma cellPass_wellKeyed host hooks columns' r :
  wellKeyed columns r → wellKeyed columns (cellPass host hooks columns' r).
Proof.
  intros Hkeys column Hin. rewrite cellPass_cells, cellPass_domain.
  by apply Hkeys.
Qed.

(** Under its [dataKey] a row holds the cell created for the column. *)
Lemma wellKeyed_dataKey r column :
  wellNamed columns r → wellKeyed columns r → column ∈ columns →
  Row.cell r (propKey (Column.dataKey column)) =
  Row.heap r !! Column.index column.
Proof.
  intros [Hcells Hheap] Hkeys Hin. unfold Row.cell.
  destruct (Row.heap r !! Column.index column) as [c|] eqn:Hc.
  - rewrite (Hkeys column Hin) by by rewrite Hc. done.
  - destruct (Row.cells r !! propKey (Column.dataKey column)) as [a|] eqn:Ha;
      [|done].
    destruct (Hcells _ a Ha) as [[c Hsome] (column' & Hin' & <- & [Hkey|Hkey])].
    + apply (columns_distinctKeys column column' Hin Hin') in Hkey.
      rewrite <- Hkey, Hc in Hsome. done.
    + apply (columns_ownNames column column' Hin Hin') in Hkey.
      rewrite <- Hkey, Hc in Hsome. done.
Qed.

End Names.

(** Columns that have their index for [dataKey], as the columns inferred from
    an array have, are told apart by their names. *)
Lemma positional_names (columns : list Column) :
  Forall (fun column => Column.dataKey column = KNum (Column.index column))
    columns →
  ownNames columns ∧ distinctKeys columns.
Proof.
  rewrite Forall_forall. intros Hkeys.
  split; intros column column' Hin Hin' Hkey.
  - rewrite (Hkeys column Hin) in Hkey. cbn [propKey] in Hkey.
    by apply (inj pretty) in Hkey.
  - rewrite (Hkeys column Hin), (Hkeys column' Hin') in Hkey.
    cbn [propKey] in Hkey. by apply (inj pretty) in Hkey.
Qed.

Lemma ownNames_identity (l l' : list Column) :
  columnIdentity <$> l = columnIdentity <$> l' → ownNames l → ownNames l'.
Proof.
  intros Hid Hl column column' Hin Hin'.
  apply (list_elem_of_fmap_2 columnIdentity) in Hin, Hin'.
  rewrite <- Hid in Hin, Hin'.
  apply list_elem_of_fmap in Hin as (x & Hx & Hinx).
  apply list_elem_of_fmap in Hin' as (x' & Hx' & Hinx').
  unfold columnIdentity in Hx, Hx'.
  injection Hx as -> _ ->. injection Hx' as _ _ ->. by apply Hl.
Qed.

Lemma distinctKeys_identity (l l' : list Column) :
  columnIdentity <$> l = columnIdentity <$> l' → distinctKeys l → distinctKeys l'.
Proof.
  intros Hid Hl column column' Hin Hin'.
  apply (list_elem_of_fmap_2 columnIdentity) in Hin, Hin'.
  rewrite <- Hid in Hin, Hin'.
  apply list_elem_of_fmap in Hin as (x & Hx & Hinx).
  apply list_elem_of_fmap in Hin' as (x' & Hx' & Hinx').
  unfold columnIdentity in Hx, Hx'.
  injection Hx as -> _ ->. injection Hx' as -> _ ->. by apply Hl.
Qed.

Lemma parsed_identity host table :
  columnIdentity <$> Table.columns (parseContent host table) =
  columnIdentity <$> columnsOf table.
Proof. by rewrite parseContent_columns, aggregate_identity. Qed.

Lemma columnsOf_indexed table : indexedFrom 0 (columnsOf table).
Proof. apply getTableColumns_indexed. Qed.

Lemma parsed_rows_wellNamed host table r :
  ownNames (columnsOf table) →
  r ∈ Table.allRows (parseContent host table) →
  wellNamed (columnsOf table) r.
Proof.
  intros Hown (sectionName & r0 & Hr0 & ->)%elem_of_parseContent_rows.
  unfold gridOf, parseSection in Hr0.
  apply elem_of_parseRows in Hr0 as (ledger & rowIndex & rawRow & ->).
  apply cellPass_wellNamed. by apply parseRow_wellNamed.
Qed.

Lemma parsed_rows_wellKeyed host table r :
  ownNames (columnsOf table) → distinctKeys (columnsOf table) →
  r ∈ Table.allRows (parseContent host table) →
  wellKeyed (columnsOf table) r.
Proof.
  intros Hown Hkeys (sectionName & r0 & Hr0 & ->)%elem_of_parseContent_rows.
  unfold gridOf, parseSection in Hr0.
  apply elem_of_parseRows in Hr0 as (ledger & rowIndex & rawRow & ->).
  apply cellPass_wellKeyed. apply parseRow_wellKeyed; [|done..].
  apply columnsOf_indexed.
Qed.

(** X18. When no column has for [dataKey] the decimal numeral of the index
    of another column, what a row of the parsed table holds under the index
    of a column is the cell object created for that column, or nothing when
    none was created. *)
Theorem cell_by_index (host : Host) (table : Table) (r : Row) (column : Column) :
  ownNames (Table.columns (parseContent host table)) →
  r ∈ Table.allRows (parseContent host table) →
  column ∈ Table.columns (parseContent host table) →
  Row.cell r (pretty (Column.index column)) = created r (Column.index column).
Proof.
  intros Hown Hr (column0 & Hin0 & <-)%elem_of_parseContent_columns.
  apply (ownNames_identity _ _ (parsed_identity host table)) in Hown.
  apply (wellNamed_index (columnsOf table)); [done| |done].
  by apply (parsed_rows_wellNamed host).
Qed.

Lemma cell_by_index_witness :
  let table :=
    newTable Fixture.host0 noOptions noOptions
      (Args1 (Fixture.options None None
                (Some [Positional [Fixture.spanning "a" (Some 2) None;
                                   Fixture.str "b"]]) None None)) in
  ∃ r,
    Table.allRows (parseContent Fixture.host0 table) = [r] ∧
    Forall (fun column =>
              Row.cell r (pretty (Column.index column))
              = created r (Column.index column))
      (Table.columns (parseContent Fixture.host0 table)).
Proof.
  intros table.
  assert (ownNames (Table.columns (parseContent Fixture.host0 table))) as Hown.
  { apply positional_names. vm_compute. repeat constructor. }
  assert (∃ r, Table.allRows (parseContent Fixture.host0 table) = [r])
    as [r Hr] by (vm_compute; eauto).
  exists r. split; [done|]. apply Forall_forall. intros column Hcolumn.
  apply (cell_by_index Fixture.host0 table r column Hown); [|done].
  rewrite Hr. by left.
Defined.

(** X19. When moreover no two columns have the same [dataKey], a row of
    the parsed table holds the same under the [dataKey] of a column and under
    its index. *)
Theorem cells_alias (host : Host) (table : Table) (r : Row) (column : Column) :
  ownNames (Table.columns (parseContent host table)) →
  distinctKeys (Table.columns (parseContent host table)) →
  r ∈ Table.allRows (parseContent host table) →
  column ∈ Table.columns (parseContent host table) →
  Row.cell r (propKey (Column.dataKey column)) =
  Row.cell r (pretty (Column.index column)).
Proof.
  intros Hown Hkeys Hr (column0 & Hin0 & ->)%parsed_column_inv.
  apply (ownNames_identity _ _ (parsed_identity host table)) in Hown.
  apply (distinctKeys_identity _ _ (parsed_identity host table)) in Hkeys.
  pose proof (aggregateColumn_identity (Table.styles table)
                (Table.allRows (parseContent host table)) column0) as Hid.
  unfold columnIdentity in Hid. injection Hid as -> _ ->.
  pose proof (parsed_rows_wellNamed host table r Hown Hr) as Hnamed.
  rewrite (wellNamed_index (columnsOf table) Hown r column0 Hnamed Hin0).
  apply (wellKeyed_dataKey (columnsOf table)); try done.
  by apply (parsed_rows_wellKeyed host).
Qed.

Lemma cells_alias_witness :
  let table :=
    newTable Fixture.host0 noOptions noOptions
      (Args1 (Fixture.options None None
                (Some [Keyed [("name", Fixture.str "a"); ("age", Fixture.str "7")]])
                None None)) in
  ∃ r,
    Table.allRows (parseContent Fixture.host0 table) = [r] ∧
    propKey ∘ Column.dataKey <$> Table.columns (parseContent Fixture.host0 table)
      = ["name"; "age"] ∧
    Forall (fun column =>
              Row.cell r (propKey (Column.dataKey column))
              = Row.cell r (pretty (Column.index column)))
      (Table.columns (parseContent Fixture.host0 table)).
Proof.
  intros table.
  assert (∃ name age,
            Table.columns (parseContent Fixture.host0 table) = [name; age] ∧
            Column.dataKey name = KStr "name" ∧ Column.index name = 0%nat ∧
            Column.dataKey age = KStr "age" ∧ Column.index age = 1%nat)
    as (name & age & Hcolumns & Hname & Hname' & Hage & Hage')
    by (vm_compute; eauto 10).
  assert (∀ column, column ∈ Table.columns (parseContent Fixture.host0 table) →
            (Column.dataKey column = KStr "name" ∧ Column.index column = 0%nat) ∨
            (Column.dataKey column = KStr "age" ∧ Column.index column = 1%nat))
    as Hcases.
  { intros column. rewrite Hcolumns.
    intros [->|[->|[]%elem_of_nil]%elem_of_cons]%elem_of_cons; [by left|by right]. }
  assert (ownNames (Table.columns (parseContent Fixture.host0 table))) as Hown.
  { intros column column' Hin Hin' Hkey.
    destruct (Hcases column Hin) as [[Hk Hi]|[Hk Hi]],
             (Hcases column' Hin') as [[Hk' Hi']|[Hk' Hi']];
      rewrite Hk, Hi' in Hkey; by vm_compute in Hkey. }
  assert (distinctKeys (Table.columns (parseContent Fixture.host0 table)))
    as Hkeys.
  { intros column column' Hin Hin' Hkey.
    destruct (Hcases column Hin) as [[Hk Hi]|[Hk Hi]],
             (Hcases column' Hin') as [[Hk' Hi']|[Hk' Hi']];
      rewrite Hk, Hk' in Hkey; rewrite Hi, Hi'; by vm_compute in Hkey. }
  assert (∃ r, Table.allRows (parseContent Fixture.host0 table) = [r])
    as [r Hr] by (vm_compute; eauto).
  exists r. split; [done|]. split; [by rewrite Hcolumns; cbn; rewrite Hname, Hage|].
  apply Forall_forall. intros column Hcolumn.
  apply (cells_alias Fixture.host0 table r column Hown Hkeys); [|done].
  rewrite Hr. by left.
Defined.

(** X20. When no column has for [dataKey] the decimal numeral of the index of
    another column, the cell a row of the parsed table holds under the index
    of a column is the cell created for that column once the [didParseCell]
    hooks have been called on it, with the row as the columns before have left
    it and with that column, and once its widths have been resolved; there is
    none when none was created. *)
Theorem hooks_once (host : Host) (table : Table) (sectionName : Section)
    (i j : nat) (r0 r : Row) (column : Column) :
  ownNames (columnsOf table) →
  gridOf host table sectionName !! i = Some r0 →
  table_section (parseContent host table) sectionName !! i = Some r →
  columnsOf table !! j = Some column →
  Row.cell r (pretty j) =
  (fun cell =>
     resolveCellWidths host
       (callCellHooks (Table.hooks table) cell
          (cellPass host (Table.hooks table) (take j (columnsOf table)) r0)
          column))
    <$> created r0 j.
Proof.
  intros Hown Hr0 Hr Hj.
  rewrite parseContent_section, list_lookup_fmap, Hr0 in Hr.
  injection Hr as <-.
  apply (cellPass_once (columnsOf table) (columnsOf_indexed table) Hown);
    [|done].
  unfold gridOf, parseSection in Hr0.
  apply list_elem_of_lookup_2, elem_of_parseRows in Hr0
    as (ledger & rowIndex & rawRow & ->).
  by apply parseRow_wellNamed.
Qed.

Lemma hooks_once_witness :
  let table :=
    newTable Fixture.host0 noOptions noOptions
      (Args1 (optionsWith None None (Some (retitle "X"))
                (Some [Positional [Fixture.str "a"]]))) in
  ∃ r0 r column,
    gridOf Fixture.host0 table body !! 0%nat = Some r0 ∧
    table_section (parseContent Fixture.host0 table) body !! 0%nat = Some r ∧
    columnsOf table !! 0%nat = Some column ∧
    Cell.text <$> created r0 0 = Some (Cell.Lines ["a"]) ∧
    Cell.text <$> Row.cell r (pretty 0%nat) = Some (Cell.Lines ["X"]) ∧
    Row.cell r (pretty 0%nat) =
    (fun cell =>
       resolveCellWidths Fixture.host0
         (callCellHooks (Table.hooks table) cell
            (cellPass Fixture.host0 (Table.hooks table)
               (take 0 (columnsOf table)) r0)
            column))
      <$> created r0 0.
Proof.
  intros table.
  assert (ownNames (columnsOf table)) as Hown.
  { apply positional_names. vm_compute. repeat constructor. }
  assert (∃ r0, gridOf Fixture.host0 table body !! 0%nat = Some r0 ∧
                Cell.text <$> created r0 0 = Some (Cell.Lines ["a"]))
    as (r0 & Hr0 & Htext0) by (vm_compute; eauto).
  assert (∃ r, table_section (parseContent Fixture.host0 table) body !! 0%nat
               = Some r ∧
               Cell.text <$> Row.cell r (pretty 0%nat) = Some (Cell.Lines ["X"]))
    as (r & Hr & Htext) by (vm_compute; eauto).
  assert (∃ column, columnsOf table !! 0%nat = Some column)
    as [column Hcolumn] by (vm_compute; eauto).
  exists r0, r, column. repeat (split; [done|]).
  exact (hooks_once Fixture.host0 table body 0 0 r0 r column Hown Hr0 Hr Hcolumn).
Defined.

(** ** The hooks and the columns of the table *)

Lemma newTable_hooks host g d args :
  Table.hooks (newTable host g d args) =
  omap didParseCell [g; d; parseUserArguments args].
Proof. lazy beta iota zeta delta [newTable Table.new Table.hooks]. reflexivity. Qed.

Lemma callCellHooks_levels g d t cell row column :
  callCellHooks (omap didParseCell [g; d; t]) cell row column =
  hookOf t (hookOf d (hookOf g cell row column) row column) row column.
Proof.
  unfold hookOf. cbn [omap list_omap].
  by destruct (didParseCell g), (didParseCell d), (didParseCell t).
Qed.

(** X21. The [didParseCell] hooks of the global options, of the document
    options and of the table options are all called on a cell, in this order,
    each on the cell as the one before has left it, so that the hook of the
    table options has the last word on the text and the styles; a level
    without the hook is passed over. Stated for the cell a row of the table
    that [parseInput] returns holds under the index of a column, when no
    column has for [dataKey] the decimal numeral of the index of another
    column. *)
Theorem hooks_in_order (host : Host)
    (globalOptions documentOptions : UserOptions) (args : Args)
    (sectionName : Section) (i j : nat) (r0 r : Row) (column : Column) :
  let table := newTable host globalOptions documentOptions args in
  ownNames (columnsOf table) →
  gridOf host table sectionName !! i = Some r0 →
  table_section (parseInput host globalOptions documentOptions args) sectionName
    !! i = Some r →
  columnsOf table !! j = Some column →
  Row.cell r (pretty j) =
  (fun cell =>
     let row :=
       cellPass host (Table.hooks table) (take j (columnsOf table)) r0 in
     resolveCellWidths host
       (hookOf (parseUserArguments args)
          (hookOf documentOptions
             (hookOf globalOptions cell row column) row column) row column))
    <$> created r0 j.
Proof.
  intros table Hown Hr0 Hr Hj.
  rewrite parseInput_section, parseContent_section, list_lookup_fmap in Hr.
  fold table in Hr. rewrite Hr0 in Hr.
  assert (r = cellPass host (Table.hooks table) (columnsOf table) r0) as ->
    by (by injection Hr as <-).
  clear Hr.
  assert (wellNamed (columnsOf table) r0) as Hnamed0.
  { unfold gridOf, parseSection in Hr0.
    apply list_elem_of_lookup_2, elem_of_parseRows in Hr0
      as (ledger & rowIndex & rawRow & ->).
    by apply parseRow_wellNamed. }
  rewrite (cellPass_once (columnsOf table) (columnsOf_indexed table) Hown host
             (Table.hooks table) r0 j column Hnamed0 Hj).
  destruct (created r0 j) as [cell|]; [|done].
  cbn [fmap option_fmap option_map]. do 2 f_equal.
  unfold table at 1. rewrite newTable_hooks. apply callCellHooks_levels.
Qed.

Lemma hooks_in_order_witness :
  let globalOptions := hookOnly (restyle "fontSize" (VNum 30)) in
  let tableOptions :=
    optionsWith None None (Some (restyle "fontSize" (VNum 40)))
      (Some [Positional [Fixture.str "a"]]) in
  let table := newTable Fixture.host0 globalOptions noOptions (Args1 tableOptions) in
  ∃ r0 r column,
    gridOf Fixture.host0 table body !! 0%nat = Some r0 ∧
    table_section
      (parseInput Fixture.host0 globalOptions noOptions (Args1 tableOptions)) body
      !! 0%nat = Some r ∧
    columnsOf table !! 0%nat = Some column ∧
    (Cell.styles <$> Row.cell r (pretty 0%nat)) ≫= (.!! "fontSize")
      = Some (VNum 40) ∧
    Row.cell r (pretty 0%nat) =
    (fun cell =>
       let row :=
         cellPass Fixture.host0 (Table.hooks table) (take 0 (columnsOf table)) r0 in
       resolveCellWidths Fixture.host0
         (hookOf (parseUserArguments (Args1 tableOptions))
            (hookOf noOptions
               (hookOf globalOptions cell row column) row column) row column))
      <$> created r0 0.
Proof.
  intros globalOptions tableOptions table.
  assert (ownNames (columnsOf table)) as Hown.
  { apply positional_names. vm_compute. repeat constructor. }
  assert (∃ r0, gridOf Fixture.host0 table body !! 0%nat = Some r0)
    as (r0 & Hr0) by (vm_compute; eauto).
  assert (∃ r, table_section
                 (parseInput Fixture.host0 globalOptions noOptions
                    (Args1 tableOptions)) body !! 0%nat = Some r ∧
               (Cell.styles <$> Row.cell r (pretty 0%nat)) ≫= (.!! "fontSize")
                 = Some (VNum 40))
    as (r & Hr & Hsize) by (vm_compute; eauto).
  assert (∃ column, columnsOf table !! 0%nat = Some column)
    as [column Hcolumn] by (vm_compute; eauto).
  exists r0, r, column. repeat (split; [done|]).
  exact (hooks_in_order Fixture.host0 globalOptions noOptions (Args1 tableOptions)
           body 0 0 r0 r column Hown Hr0 Hr Hcolumn).
Defined.

(** X22. The index of a column of the parsed table is its
    position in [table.columns]. *)
Theorem column_index_is_position (host : Host) (table : Table) (j : nat)
    (column : Column) :
  Table.columns (parseContent host table) !! j = Some column →
  Column.index column = j.
Proof.
  intros Hj.
  apply (f_equal (fmap Column.index)) in Hj.
  rewrite <- list_lookup_fmap, parseContent_columns, aggregate_index in Hj.
  rewrite list_lookup_fmap in Hj.
  destruct (columnsOf table !! j) as [column0|] eqn:Hj0; [|done].
  injection Hj as <-. by rewrite (columnsOf_indexed table j column0 Hj0).
Qed.

Lemma column_index_is_position_witness :
  let table :=
    newTable Fixture.host0 noOptions noOptions
      (Args1 (Fixture.options None None
                (Some [Keyed [("name", Fixture.spanning "a" (Some 2) None);
                              ("age", Fixture.str "7")]])
                None None)) in
  ∃ column,
    Table.columns (parseContent Fixture.host0 table) !! 2%nat = Some column ∧
    Column.dataKey column = KStr "age" ∧
    Column.index column = 2%nat.
Proof.
  intros table.
  assert (∃ column,
            Table.columns (parseContent Fixture.host0 table) !! 2%nat
              = Some column ∧ Column.dataKey column = KStr "age")
    as (column & Hcolumn & Hkey) by (vm_compute; eauto).
  exists column. split; [done|]. split; [done|].
  exact (column_index_is_position Fixture.host0 table 2 column Hcolumn).
Defined.

(** ** The title of a column as its header *)

Lemma lastProvided_cons sectionName column columns key :
  lastProvided sectionName (column :: columns) key =
  match lastProvided sectionName columns key with
  | Some v => Some v
  | None =>
      if decide (propKey (Column.dataKey column) = key)
      then generatedValue sectionName column else None
  end.
Proof. reflexivity. Qed.

Lemma lastProvided_unique sectionName columns i column :
  columns !! i = Some column →
  (∀ i' column', columns !! i' = Some column' → i' ≠ i →
     propKey (Column.dataKey column') ≠ propKey (Column.dataKey column)) →
  lastProvided sectionName columns (propKey (Column.dataKey column)) =
  generatedValue sectionName column.
Proof.
  revert i. induction columns as [|x columns IH]; intros i Hi Hothers; [done|].
  rewrite lastProvided_cons.
  destruct i as [|i].
  - injection Hi as ->.
    assert (lastProvided sectionName columns (propKey (Column.dataKey column))
            = None) as ->.
    { clear IH. induction columns as [|y columns IH]; [done|].
      rewrite lastProvided_cons, IH.
      - rewrite decide_False; [done|]. by apply (Hothers 1%nat y).
      - intros i' column' Hi' Hne. destruct i' as [|i']; [done|].
        by apply (Hothers (S (S i')) column'). }
    by rewrite decide_True.
  - rewrite (IH i Hi).
    + destruct (generatedValue sectionName column); [done|].
      rewrite decide_False; [done|]. by apply (Hothers 0%nat x).
    + intros i' column' Hi' Hne. apply (Hothers (S i') column' Hi'). lia.
Qed.

Lemma explicitKey_titleAsHeader input index :
  explicitKey (titleAsHeader input) index = explicitKey input index.
Proof.
  destruct input as [k|def]; [done|]. cbn [titleAsHeader].
  by destruct (isNullish (col_header def)).
Qed.

Lemma newTable_columnsOf_explicit host g d args cols :
  inForce columns_opt host g d args = Some cols →
  columnsOf (newTable host g d args) =
  imap (fun index input => Column.new (explicitKey input index) input index) cols.
Proof. intros Hcols. by apply getTableColumns_explicit. Qed.

Lemma table_section_head (table : Table) :
  Table.head table = table_section table head.
Proof. reflexivity. Qed.

(** X23. In the deprecated form [autoTable(columns, body, options)], when
    no head row is in force, a column entry with a truthy [title] and no
    [header] puts its title in the generated head row, under the name of the
    column, provided no other column has that name. *)
Theorem title_as_header (host : Host)
    (globalOptions documentOptions : UserOptions)
    (cols : list ColumnInput) (rows : list RowInput) (options : option UserOptions)
    (i : nat) (def : ColumnDef) (title : CellInput) :
  let args := Args3 cols rows options in
  let key := propKey (explicitKey (ColObj def) i) in
  sectionInForce host globalOptions documentOptions args head = [] →
  cols !! i = Some (ColObj def) →
  isNullish (col_header def) = true →
  col_title def = Some title →
  cell_truthy title = true →
  (∀ i' input', cols !! i' = Some input' → i' ≠ i →
     propKey (explicitKey input' i') ≠ key) →
  ∃ o,
    Row.raw <$> Table.head (parseInput host globalOptions documentOptions args)
      = [Keyed o] ∧
    obj_get o key = Some title.
Proof.
  intros args key Hhead Hi Hheader Htitle Htruthy Hunique.
  rewrite table_section_head, parseInput_raws.
  set (columns := columnsOf (newTable host globalOptions documentOptions args)).
  assert (columns =
          imap (fun index input => Column.new (explicitKey input index) input index)
            (titleAsHeader <$> cols)) as Hcolumns
    by by apply newTable_columnsOf_explicit.
  set (column := Column.new (explicitKey (ColObj def) i)
                   (titleAsHeader (ColObj def)) i).
  assert (columns !! i = Some column) as Hcolumn.
  { rewrite Hcolumns, list_lookup_imap, list_lookup_fmap, Hi.
    cbn [fmap option_fmap option_map]. by rewrite explicitKey_titleAsHeader. }
  assert (generatedValue head column = Some title) as Hvalue.
  { unfold generatedValue, column, Column.new. cbn [Column.raw titleAsHeader].
    rewrite Hheader, Htitle. cbn [columnData_header col_header truthy].
    by rewrite Htruthy. }
  rewrite sectionRowsOf_generated; [| |done|done].
  2:{ by rewrite newTable_section. }
  assert (is_Some (generateSectionRowFromColumnData columns head)) as Hsome.
  { apply generateSectionRow_Some. exists column.
    split; [by eapply list_elem_of_lookup_2|by rewrite Hvalue]. }
  rewrite generateSectionRow_object in Hsome |- *.
  destruct (decide _) as [_|_]; [|by destruct Hsome].
  eexists. split; [done|].
  rewrite generatedObject_get.
  rewrite <- Hvalue.
  change key with (propKey (Column.dataKey column)).
  rewrite (lastProvided_unique head columns i column Hcolumn); [by rewrite Hvalue|].
  intros i' column' Hi' Hne.
  rewrite Hcolumns, list_lookup_imap, list_lookup_fmap in Hi'.
  destruct (cols !! i') as [input'|] eqn:Hinput'; [|done].
  injection Hi' as <-. cbn [Column.dataKey Column.new].
  rewrite explicitKey_titleAsHeader. by apply Hunique.
Qed.

Lemma title_as_header_witness :
  let def :=
    Build_ColumnDef (Some (KStr "id")) None None (Some (Fixture.str "ID"))
      None None in
  let args := Args3 [ColObj def] [Keyed [("id", Fixture.str "1")]] None in
  sectionInForce Fixture.host0 noOptions noOptions args head = [] ∧
  ∃ o,
    Row.raw <$> Table.head (parseInput Fixture.host0 noOptions noOptions args)
      = [Keyed o] ∧
    obj_get o "id" = Some (Fixture.str "ID").
Proof.
  intros def args. split; [reflexivity|].
  apply (title_as_header Fixture.host0 noOptions noOptions [ColObj def]
           [Keyed [("id", Fixture.str "1")]] None 0 def (Fixture.str "ID"));
    try reflexivity.
  intros [|i'] input' Hi' Hne; [done|]. by destruct i'.
Defined.

(** ** The first row of a section *)

Section FirstRow.

Variable defaultStyles : Styles.
Variable theme : Theme.
Variable styles : StylesProps.
Variable sectionName : Section.
Variable rawRow : RowInput.
Variable rowIndex : nat.

Let step := columnStep defaultStyles theme styles sectionName rawRow rowIndex.
Let start := mkRowState ∅ (Row.new rawRow rowIndex sectionName) 0 0 0.

Lemma first_row_columns (columns : list Column) :
  indexedFrom 0 columns →
  let st := fold_left step columns start in
  let n := length columns in
  (∀ k, (n ≤ k)%nat →
     rowSpansLeftForColumn st !! k = None ∧ created (row st) k = None) ∧
  (columnSpansLeft st = 0 ∨
   ∃ j' cell, (j' < n)%nat ∧ created (row st) j' = Some cell ∧
     columnSpansLeft st = Cell.colSpan cell - Z.of_nat (n - j') ∧
     (Cell.colSpan cell ≤ 0 ∨ Z.of_nat n ≤ Z.of_nat j' + Cell.colSpan cell)) ∧
  (∀ j, (j < n)%nat → created (row st) j = None →
     ∃ j' cell, created (row st) j' = Some cell ∧ underSpanOf j' cell j).
Proof.
  cbn zeta. induction columns as [|column columns IH] using rev_ind;
    intros Hindexed.
  - cbn [fold_left length]. split; [|split].
    + intros k _. unfold created. cbn. by rewrite !lookup_empty.
    + by left.
    + intros j Hj. lia.
  - assert (indexedFrom 0 columns) as Hprefix.
    { intros i c Hc. apply Hindexed. by apply lookup_app_l_Some. }
    assert (Column.index column = length columns) as Hindex.
    { rewrite (Hindexed (length columns) column); [done|].
      by rewrite lookup_app_r, Nat.sub_diag. }
    destruct (IH Hprefix) as (Hfree & Hspan & Hnone). clear IH.
    rewrite fold_left_app, length_app. cbn [fold_left length].
    set (st := fold_left step columns start) in *.
    set (n := length columns) in *.
    assert (noRowSpanLeft (rowSpansLeftForColumn st) (Column.index column) = true)
      as Hledger.
    { unfold noRowSpanLeft. rewrite Hindex. by destruct (Hfree n) as [-> _]. }
    assert (∀ k, k ≠ n →
              created (row (step st column)) k = created (row st) k ∧
              rowSpansLeftForColumn (step st column) !! k =
                rowSpansLeftForColumn st !! k) as Hother.
    { intros k Hk.
      apply (columnStep_other defaultStyles theme styles sectionName rawRow
               rowIndex st column k). by rewrite Hindex. }
    destruct (Z.eq_dec (columnSpansLeft st) 0) as [Hzero|Hleft].
    + destruct (columnStep_anchor defaultStyles theme styles sectionName rawRow
                  rowIndex st column Hledger Hzero)
        as (cell & Hcell & _ & Hspan').
      fold step in Hcell, Hspan'. rewrite Hindex in Hcell.
      split; [|split].
      * intros k Hk. destruct (Hother k) as [-> ->]; [lia|]. apply Hfree. lia.
      * right. exists n, cell. split; [lia|]. split; [done|].
        rewrite Hspan'. split; lia.
      * intros j Hj Hj'.
        assert (j ≠ n) as Hne by (intros ->; congruence).
        destruct (Hother j Hne) as [Hsame _]. rewrite Hsame in Hj'.
        destruct (Hnone j) as (j' & cell' & Hcell' & Hunder); [lia|done|].
        exists j', cell'. split; [|done].
        destruct (Hother j') as [-> _]; [|done].
        destruct Hunder as [Hlt _]. lia.
    + destruct (columnStep_consumed defaultStyles theme styles sectionName rawRow
                  rowIndex st column Hledger Hleft)
        as (Hrow & Hsame & Hspan').
      fold step in Hrow, Hsame, Hspan'.
      destruct Hspan as [?|(j' & cell & Hlt & Hcell & Hcount & Hbound)]; [done|].
      rewrite Hrow, Hsame, Hspan'.
      split; [|split].
      * intros k Hk. apply Hfree. lia.
      * right. exists j', cell. split; [lia|]. split; [done|]. split; lia.
      * intros j Hj Hj'.
        destruct (decide (j = n)) as [->|Hne]; [|apply Hnone; [lia|done]].
        exists j', cell. split; [done|]. split; [done|]. lia.
Qed.

End FirstRow.

(** X24. Row spans do not pass from one section to the next: in the first
    row of a section a column has no cell of its own only if it lies under
    the column span of a cell to its left in that row. The first column
    always has one. *)
Theorem first_row_cells (defaultStyles : Styles) (theme : Theme)
    (styles : StylesProps) (sectionName : Section) (columns : list Column)
    (sectionRows : list RowInput) (r : Row) (j : nat) :
  indexedFrom 0 columns →
  parseSection defaultStyles theme styles columns sectionName sectionRows !! 0%nat
    = Some r →
  (j < length columns)%nat →
  created r j = None →
  ∃ j' cell, created r j' = Some cell ∧ underSpanOf j' cell j.
Proof.
  intros Hindexed Hr Hj Hnone.
  destruct sectionRows as [|rawRow rest]; [done|].
  injection Hr as <-.
  destruct (first_row_columns defaultStyles theme styles sectionName rawRow 0
              columns Hindexed) as (_ & _ & Hcells).
  by apply Hcells.
Qed.

Lemma first_row_cells_witness :
  let sectionRows :=
    [Positional [Fixture.spanning "a" (Some 2) (Some 3); Fixture.str "b"]] in
  let columns := getTableColumns (Build_Content None sectionRows [] []) in
  let styles := StylesProps.mk ∅ ∅ ∅ ∅ ∅ ∅ in
  ∃ r,
    parseSection ∅ Fixture.theme0 styles columns head sectionRows !! 0%nat
      = Some r ∧
    length columns = 3%nat ∧
    created r 1 = None ∧
    ∃ j' cell, created r j' = Some cell ∧ underSpanOf j' cell 1.
Proof.
  intros sectionRows columns styles.
  assert (∃ r, parseSection ∅ Fixture.theme0 styles columns head sectionRows
               !! 0%nat = Some r) as [r Hr] by (vm_compute; eauto).
  assert (created r 1 = None) as Hnone.
  { revert Hr. vm_compute. by intros [= <-]. }
  assert (length columns = 3%nat) as Hlength by (vm_compute; reflexivity).
  exists r. repeat (split; [done|]).
  apply (first_row_cells ∅ Fixture.theme0 styles head columns sectionRows r 1
           (getTableColumns_indexed _) Hr); [|done].
  rewrite Hlength. lia.
Defined.

(** * The effective style of a cell

    The cascade of [cellStyles] as the cells of the table have it: at their
    creation, and after the hooks. *)

Lemma Cell_new_styles raw themeStyles sectionName key :
  Cell.styles (Cell.new raw themeStyles sectionName) !! key =
  orElse (ownStyles raw !! key) (themeStyles !! key).
Proof.
  unfold Cell.new. cbn [Cell.styles]. fold (ownStyles raw).
  rewrite assign_lookup. cbn [mergedValue]. done.
Qed.

Lemma Cell_new_raw raw themeStyles sectionName :
  Cell.raw (Cell.new raw themeStyles sectionName) = raw.
Proof. reflexivity. Qed.

Lemma resolveCellWidths_styles host cell :
  Cell.styles (resolveCellWidths host cell) = Cell.styles cell.
Proof. reflexivity. Qed.

Lemma resolveCellWidths_raw host cell :
  Cell.raw (resolveCellWidths host cell) = Cell.raw cell.
Proof. reflexivity. Qed.

(** The style a cell is created with. *)
Lemma created_style (defaultStyles : Styles) (theme : Theme)
    (styles : StylesProps) (sectionName : Section) (columns : list Column)
    (sectionRows : list RowInput) (i j : nat) (r : Row) (column : Column)
    (cell : Cell) (key : string) :
  indexedFrom 0 columns →
  parseSection defaultStyles theme styles columns sectionName sectionRows !! i
    = Some r →
  columns !! j = Some column →
  created r j = Some cell →
  Cell.styles cell !! key =
    mergedValue
      (cascadeLayers defaultStyles theme styles sectionName column i
       ++ [ownStyles (Cell.raw cell)]) key.
Proof.
  intros Hindexed Hr Hj Hcell. unfold parseSection in Hr.
  apply parseRows_lookup_inv in Hr as (rawRow & Hi & ->).
  cbn [Nat.add] in *. unfold parseRow in *.
  destruct (columns_created defaultStyles theme styles sectionName rawRow i
              (ledgerAfter defaultStyles theme styles columns sectionName ∅ 0
                 (take i sectionRows)) columns Hindexed)
    as (_ & _ & _ & Hcells).
  rewrite (Hcells j column cell Hj Hcell).
  rewrite Cell_new_styles, Cell_new_raw, mergedValue_app, cellStyles_layers.
  cbn [mergedValue]. done.
Qed.

(** C4 (as amended). The style a cell is created with is, property by
    property, the value set by the last of these layers that sets the
    property: the default styles, the theme's table style, the theme's section
    style, the user's [styles], the user's section styles, then in the body on
    rows of even index the theme's alternate-row style and the user's
    [alternateRowStyles] over it, then in the body the column's entry of
    [columnStyles], found under the [dataKey] first and the index second, and
    last the styles that the cell definition declares for the cell itself.
    The effective style of a cell of the parsed table, under whatever name the
    row holds it, is the style of the cell created for a column of that name
    as the [didParseCell] hooks leave it; with no hook it is the merge of
    these eight layers. The second part is for a table where no column has
    for [dataKey] the decimal numeral of the index of another column. *)
Theorem cell_style_cascade (host : Host) (table : Table)
    (sectionName : Section) (i : nat) (r0 : Row) :
  let columns := columnsOf table in
  let hooks := Table.hooks table in
  let layers column :=
    cascadeLayers (defaultStyles host)
      (getTheme host (theme (Table.settings table))) (Table.styles table)
      sectionName column i in
  gridOf host table sectionName !! i = Some r0 →
  (∀ j column cell0,
     columns !! j = Some column → created r0 j = Some cell0 →
     ∀ key, Cell.styles cell0 !! key =
            mergedValue (layers column ++ [ownStyles (Cell.raw cell0)]) key) ∧
  (ownNames columns →
   ∀ r name cell,
     table_section (parseContent host table) sectionName !! i = Some r →
     Row.cell r name = Some cell →
     ∃ j column cell0,
       columns !! j = Some column ∧
       (name = propKey (Column.dataKey column) ∨ name = pretty j) ∧
       created r0 j = Some cell0 ∧
       Cell.styles cell =
         Cell.styles
           (callCellHooks hooks cell0
              (cellPass host hooks (take j columns) r0) column) ∧
       (hooks = [] →
        ∀ key, Cell.styles cell !! key =
               mergedValue (layers column ++ [ownStyles (Cell.raw cell)]) key)).
Proof.
  intros columns hooks layers Hr0.
  assert (∀ j column cell0,
            columns !! j = Some column → created r0 j = Some cell0 →
            ∀ key, Cell.styles cell0 !! key =
                   mergedValue (layers column ++ [ownStyles (Cell.raw cell0)]) key)
    as Hcreated.
  { intros j column cell0 Hj Hcell0 key.
    by apply (created_style _ _ _ _ columns _ i j r0 column cell0 key
                (columnsOf_indexed table) Hr0). }
  split; [done|].
  intros Hown r name cell Hr Hcell.
  rewrite parseContent_section, list_lookup_fmap, Hr0 in Hr.
  injection Hr as <-.
  assert (wellNamed columns r0) as Hnamed0.
  { unfold gridOf, parseSection in Hr0.
    apply list_elem_of_lookup_2, elem_of_parseRows in Hr0
      as (ledger & rowIndex & rawRow & ->).
    by apply parseRow_wellNamed. }
  pose proof (cellPass_wellNamed columns host hooks columns r0 Hnamed0) as Hnamed.
  fold columns hooks in Hcell.
  set (r := cellPass host hooks columns r0) in *.
  unfold Row.cell in Hcell.
  destruct (Row.cells r !! name) as [a|] eqn:Ha; [|done].
  cbn [mbind option_bind] in Hcell.
  destruct Hnamed as [Hcells Hheap].
  destruct (Hcells name a Ha) as [_ (column & Hin & Hindex & Hname)].
  pose proof Hin as (j & Hj)%list_elem_of_lookup.
  assert (a = j) as ->.
  { rewrite <- Hindex. by rewrite (columnsOf_indexed table j column Hj). }
  assert (Row.cell r (pretty j) = Some cell) as Hcell'.
  { rewrite <- Hindex.
    rewrite (wellNamed_index columns Hown r column (conj Hcells Hheap) Hin).
    by rewrite Hindex. }
  unfold r in Hcell'.
  rewrite (cellPass_once columns (columnsOf_indexed table) Hown host hooks r0 j
             column Hnamed0 Hj) in Hcell'.
  destruct (created r0 j) as [cell0|] eqn:Hcell0; [|done].
  injection Hcell' as <-.
  exists j, column, cell0. split; [done|]. split; [by rewrite <- Hindex|].
  split; [done|]. split; [done|].
  intros Hhooks key. rewrite resolveCellWidths_styles, resolveCellWidths_raw.
  rewrite Hhooks. cbn [callCellHooks fold_left].
  by apply (Hcreated j).
Qed.

Lemma cell_style_cascade_witness :
  let table :=
    newTable Fixture.host0 noOptions noOptions
      (Args1 (Fixture.options None None
                (Some [Positional [styled "a" {[ "fontSize" := VNum 20 ]};
                                   Fixture.str "b"]])
                None None)) in
  let layers column :=
    cascadeLayers (defaultStyles Fixture.host0)
      (getTheme Fixture.host0 (theme (Table.settings table)))
      (Table.styles table) body column 0 in
  ∃ r0 r column cell0 cell,
    gridOf Fixture.host0 table body !! 0%nat = Some r0 ∧
    table_section (parseContent Fixture.host0 table) body !! 0%nat = Some r ∧
    columnsOf table !! 0%nat = Some column ∧
    created r0 0 = Some cell0 ∧
    Row.cell r "0" = Some cell ∧
    mergedValue (layers column) "fontSize" = Some (VNum 10) ∧
    Cell.styles cell0 !! "fontSize" = Some (VNum 20) ∧
    Cell.styles cell !! "fontSize" = Some (VNum 20) ∧
    (∀ key, Cell.styles cell0 !! key =
            mergedValue (layers column ++ [ownStyles (Cell.raw cell0)]) key) ∧
    ∃ j column' cell0',
      columnsOf table !! j = Some column' ∧
      ("0" = propKey (Column.dataKey column') ∨ "0" = pretty j) ∧
      created r0 j = Some cell0' ∧
      Cell.styles cell =
        Cell.styles
          (callCellHooks (Table.hooks table) cell0'
             (cellPass Fixture.host0 (Table.hooks table)
                (take j (columnsOf table)) r0) column') ∧
      (Table.hooks table = [] →
       ∀ key, Cell.styles cell !! key =
              mergedValue (layers column' ++ [ownStyles (Cell.raw cell)]) key).
Proof.
  intros table layers.
  assert (ownNames (columnsOf table)) as Hown.
  { apply positional_names. vm_compute. repeat constructor. }
  assert (∃ r0 cell0, gridOf Fixture.host0 table body !! 0%nat = Some r0 ∧
                      created r0 0 = Some cell0 ∧
                      Cell.styles cell0 !! "fontSize" = Some (VNum 20))
    as (r0 & cell0 & Hr0 & Hcell0 & Hsize0) by (vm_compute; eauto 10).
  assert (∃ r cell, table_section (parseContent Fixture.host0 table) body !! 0%nat
                      = Some r ∧
                    Row.cell r "0" = Some cell ∧
                    Cell.styles cell !! "fontSize" = Some (VNum 20))
    as (r & cell & Hr & Hcell & Hsize) by (vm_compute; eauto 10).
  assert (∃ column, columnsOf table !! 0%nat = Some column ∧
                    mergedValue (layers column) "fontSize" = Some (VNum 10))
    as (column & Hcolumn & Hcascade) by (vm_compute; eauto).
  exists r0, r, column, cell0, cell. repeat (split; [done|]).
  split.
  - exact (proj1 (cell_style_cascade Fixture.host0 table body 0 r0 Hr0)
             0%nat column cell0 Hcolumn Hcell0).
  - exact (proj2 (cell_style_cascade Fixture.host0 table body 0 r0 Hr0)
             Hown r "0" cell Hr Hcell).
Defined.

(** C4 as stated fails on a cell definition with styles of its own, which
    the cell keeps over the cascade ([fontSize] 20 against 10), and on a
    table with a hook that sets a style ([fontSize] 30 against 10). *)
Lemma cell_style_counterexample :
  let layers table column :=
    cascadeLayers (defaultStyles Fixture.host0)
      (getTheme Fixture.host0 (theme (Table.settings table)))
      (Table.styles table) body column 0 in
  let own :=
    Fixture.table
      (Fixture.options None None
         (Some [Positional [styled "a" {[ "fontSize" := VNum 20 ]}]])
         None None) in
  let hooked :=
    Fixture.table
      (optionsWith None None (Some (restyle "fontSize" (VNum 30)))
         (Some [Positional [Fixture.str "a"]])) in
  (∃ column cell,
     Table.columns own !! 0%nat = Some column ∧
     Fixture.cellAt (Table.body own) 0 "0" = Some cell ∧
     Table.hooks own = [] ∧
     Cell.styles cell !! "fontSize" = Some (VNum 20) ∧
     mergedValue (layers own column) "fontSize" = Some (VNum 10) ∧
     Cell.styles cell !! "fontSize" ≠ mergedValue (layers own column) "fontSize") ∧
  (∃ column cell,
     Table.columns hooked !! 0%nat = Some column ∧
     Fixture.cellAt (Table.body hooked) 0 "0" = Some cell ∧
     ownStyles (Cell.raw cell) = ∅ ∧
     Cell.styles cell !! "fontSize" = Some (VNum 30) ∧
     mergedValue (layers hooked column) "fontSize" = Some (VNum 10) ∧
     Cell.styles cell !! "fontSize" ≠
       mergedValue (layers hooked column) "fontSize").
Proof.
  intros layers own hooked. split.
  - assert (∃ column cell,
              Table.columns own !! 0%nat = Some column ∧
              Fixture.cellAt (Table.body own) 0 "0" = Some cell ∧
              Table.hooks own = [] ∧
              Cell.styles cell !! "fontSize" = Some (VNum 20) ∧
              mergedValue (layers own column) "fontSize" = Some (VNum 10))
      as (column & cell & Hcolumn & Hcell & Hhooks & Hsize & Hcascade)
      by (vm_compute; eauto 10).
    exists column, cell. repeat (split; [done|]).
    rewrite Hsize, Hcascade. discriminate.
  - assert (∃ column cell,
              Table.columns hooked !! 0%nat = Some column ∧
              Fixture.cellAt (Table.body hooked) 0 "0" = Some cell ∧
              ownStyles (Cell.raw cell) = ∅ ∧
              Cell.styles cell !! "fontSize" = Some (VNum 30) ∧
              mergedValue (layers hooked column) "fontSize" = Some (VNum 10))
      as (column & cell & Hcolumn & Hcell & Hown & Hsize & Hcascade)
      by (vm_compute; eauto 10).
    exists column, cell. repeat (split; [done|]).
    rewrite Hsize, Hcascade. discriminate.
Qed.
